(** * Autonomous Mobility-on-Demand environment: fleet bookkeeping

    A shallow embedding of [src/envs/amod_env.py] (class [AMoD]): the
    time-indexed vehicle ledgers, the greedy matching step, the passenger
    step, the rebalancing step and [reset], followed by the properties of
    the specification that concern them.

    Conventions of the embedding.
    - Vehicle counts, demand volumes, travel times and time steps are
      integers ([Z]); prices, costs and rewards are rationals ([Qc]).
    - A Python exception ([KeyError], [IndexError], a failed [assert])
      aborts the call: every method returns an [option].
    - Dictionaries are finite maps; what Python does on a missing key
      (raise, or create a default entry) is written out below.
    - The road graph is an object shared by reference, so it lives in a
      heap of graphs and the environment holds its location.
    - The order of [list(set(...))] and the permutation of
      [random.Random(42).shuffle] are the interpreter's: they are computed
      as CPython computes them. *)

From Stdlib Require Import ZArith QArith Qcanon Lia.
From stdpp Require Import base numbers option list gmap fin_maps.

Open Scope Z_scope.

(** ** Python containers *)

Abbreviation Edge := (Z * Z)%type.
Abbreviation loc := nat.

(** The inner dictionary of a ledger. [dflt] tells a [defaultdict(float)]
    (a read of a missing key gives 0) from a plain [dict] (it raises). *)
Record PyDict := { dflt : bool; items : gmap Z Z }.

Definition plain : PyDict := {| dflt := false; items := ∅ |}.
Definition zeros : PyDict := {| dflt := true; items := ∅ |}.

Definition dict_get (d : PyDict) (k : Z) : option Z :=
  match items d !! k with
  | Some v => Some v
  | None => if dflt d then Some 0 else None
  end.

Definition dict_set (d : PyDict) (k v : Z) : PyDict :=
  {| dflt := dflt d; items := <[k := v]> (items d) |}.

Definition dict_has (d : PyDict) (k : Z) : bool :=
  bool_decide (is_Some (items d !! k)).

(** [m[k]] on a [defaultdict(dict)]: a missing key stands for a fresh [{}]. *)
Definition sub `{Countable K} (m : gmap K PyDict) (k : K) : PyDict :=
  default plain (m !! k).

(** [m[k][t]], [m[k][t] = v] and [m[k][t] += v] on a [defaultdict(dict)]. *)
Definition get2 `{Countable K} (m : gmap K PyDict) (k : K) (t : Z) : option Z :=
  dict_get (sub m k) t.

Definition set2 `{Countable K} (m : gmap K PyDict) (k : K) (t v : Z) : gmap K PyDict :=
  <[k := dict_set (sub m k) t v]> m.

Definition add2 `{Countable K} (m : gmap K PyDict) (k : K) (t v : Z) : option (gmap K PyDict) :=
  x ← get2 m k t; Some (set2 m k t (x + v)).

(** The same three on a plain outer [dict], where a missing key raises. *)
Definition add2_strict (m : gmap Z PyDict) (k : Z) (t v : Z) : option (gmap Z PyDict) :=
  d ← m !! k; x ← dict_get d t; Some (<[k := dict_set d t (x + v)]> m).

(** [k in m and t in m[k]]. *)
Definition has2 `{Countable K} (m : gmap K PyDict) (k : K) (t : Z) : bool :=
  match m !! k with
  | Some d => dict_has d t
  | None => false
  end.

(** A travel-time table indexed by time: a [defaultdict] with a constant
    factory ([tt_default = Some c]) or a plain [dict] ([None]). *)
Record TimeTable := { tt_default : option Z; tt_at : gmap Z Z }.

Definition tt_get (tt : TimeTable) (t : Z) : option Z :=
  match tt_at tt !! t with
  | Some v => Some v
  | None => tt_default tt
  end.

Definition time_of (tab : gmap Edge TimeTable) (e : Edge) (t : Z) : option Z :=
  tt ← tab !! e; tt_get tt t.

(** Indexing a numpy vector or a list by an integer: negative indices count
    from the end, anything else out of range raises. *)
Definition py_index {A} (l : list A) (i : Z) : option nat :=
  let n := Z.of_nat (length l) in
  if bool_decide (0 ≤ i < n) then Some (Z.to_nat i)
  else if bool_decide (- n ≤ i < 0) then Some (Z.to_nat (n + i))
  else None.

Definition py_nth {A} (l : list A) (i : Z) : option A :=
  k ← py_index l i; l !! k.

(** [v[i] += x] on a numpy vector. *)
Definition np_add (v : list Qc) (i : Z) (x : Qc) : option (list Qc) :=
  k ← py_index v i; y ← v !! k; Some (<[k := (y + x)%Qc]> v).

(** [max(0, x)]: Python returns the first argument unless the second is larger. *)
Definition max0 (x : Qc) : Qc := if decide (0 < x)%Qc then x else 0%Qc.

(** Loops: [for x in l] and [for k, x in enumerate(l)] over a state that
    every iteration may abort. *)
Fixpoint for_each {A S} (f : S → A → option S) (l : list A) (s : S) : option S :=
  match l with
  | [] => Some s
  | x :: l' => s' ← f s x; for_each f l' s'
  end.

Fixpoint enumerate_from {A} (k : nat) (l : list A) : list (nat * A) :=
  match l with
  | [] => []
  | x :: l' => (k, x) :: enumerate_from (S k) l'
  end.

Definition enumerate {A} (l : list A) : list (nat * A) := enumerate_from 0 l.

(** ** What the interpreter decides

    Two results of the code depend on CPython and not on the language: the
    order of [list(set(...))] and the permutation of
    [random.Random(42).shuffle]. Both are computed here as CPython (3.8 and
    later) computes them. *)

(** The set of a list of pairs of integers: the hash of a pair, the hash
    table with its probe sequence ([set_add_entry], [set_insert_clean],
    [set_table_resize]) and the order of its slots, in which the set is
    iterated. Hashes are kept as unsigned 64-bit numbers. *)
Module PySet.

(** A C [size_t]: arithmetic is modulo [2^64]. *)
Definition wrap64 (x : Z) : Z := Z.land x (Z.ones 64).

Definition XXPRIME_1 : Z := 11400714785074694791.
Definition XXPRIME_2 : Z := 14029467366897019727.
Definition XXPRIME_5 : Z := 2870177450012600261.

(** [hash(x)] of an [int]: the remainder modulo [2^61 - 1] with the sign of
    [x], and -2 in the place of -1. *)
Definition hash_int (x : Z) : Z :=
  let h := Z.sgn x * (Z.abs x mod (2 ^ 61 - 1)) in
  if bool_decide (h = -1) then -2 else h.

(** [tuplehash]: one round for each item, then the length is mixed in. *)
Definition rotate (x : Z) : Z := wrap64 (Z.lor (Z.shiftl x 31) (Z.shiftr x 33)).

Definition lane (acc x : Z) : Z :=
  wrap64 (rotate (wrap64 (acc + wrap64 (hash_int x) * XXPRIME_2)) * XXPRIME_1).

Definition tuplehash (e : Edge) : Z :=
  let acc := lane (lane XXPRIME_5 e.1) e.2 in
  let acc := wrap64 (acc + Z.lxor 2 (Z.lxor XXPRIME_5 3527539)) in
  if bool_decide (acc = Z.ones 64) then 1546275796 else acc.

(** A slot of the table: free, or a key with its hash. *)
Definition entry : Type := option (Z * Edge).

Definition LINEAR_PROBES : Z := 9.
Definition PERTURB_SHIFT : Z := 5.

(** The slots a key is looked for in, in order: slot [i] and, when they do
    not run off the table, the nine slots after it; then [perturb] loses
    five bits and the walk goes on from [(5 i + 1 + perturb) & mask]. C's
    loop runs until it finds a free slot; here the walk is [rounds] rounds
    long. *)
Fixpoint probe (rounds : nat) (mask i perturb : Z) : list Z :=
  match rounds with
  | O => []
  | S r =>
      let here := if bool_decide (i + LINEAR_PROBES ≤ mask)
                  then (λ d, i + Z.of_nat d) <$> seq 0 10 else [i] in
      let perturb := Z.shiftr perturb PERTURB_SHIFT in
      here ++ probe r mask (Z.land (i * 5 + 1 + perturb) mask) perturb
  end.

(** After 13 rounds [perturb] is 0 and the walk [i := 5 i + 1] comes by
    every slot of a table of [size] slots in [size] rounds, so a table
    with a free slot has one among these. *)
Definition slots (tbl : list entry) (h : Z) : list Z :=
  let mask := Z.of_nat (length tbl) - 1 in
  probe (length tbl + 13) mask (Z.land h mask) h.

(** [set_add_entry]: the first slot on the walk that is free or holds the
    key (the flag tells which). *)
Fixpoint find_slot (tbl : list entry) (hk : Z * Edge) (l : list Z) : option (Z * bool) :=
  match l with
  | [] => None
  | i :: l' =>
      match tbl !! Z.to_nat i with
      | Some None => Some (i, false)
      | Some (Some hk') => if bool_decide (hk' = hk) then Some (i, true) else find_slot tbl hk l'
      | None => find_slot tbl hk l'
      end
  end.

(** [set_insert_clean]: the first free slot on the walk takes the entry.
    (A walk without a free slot does not occur, see [slots]; the entry
    would be put behind the table.) *)
Fixpoint find_null (tbl : list entry) (l : list Z) : option Z :=
  match l with
  | [] => None
  | i :: l' =>
      match tbl !! Z.to_nat i with
      | Some None => Some i
      | _ => find_null tbl l'
      end
  end.

Definition insert_clean (tbl : list entry) (hk : Z * Edge) : list entry :=
  match find_null tbl (slots tbl hk.1) with
  | Some i => <[Z.to_nat i := Some hk]> tbl
  | None => tbl ++ [Some hk]
  end.

(** [set_table_resize(minused)]: the size doubles from 8 until it exceeds
    [minused], and the entries are put in the new table in the order of
    their slots. *)
Fixpoint new_size (n : nat) (size minused : Z) : Z :=
  match n with
  | O => size
  | S n' => if bool_decide (size ≤ minused) then new_size n' (Z.shiftl size 1) minused else size
  end.

Definition active (tbl : list entry) : list (Z * Edge) := omap id tbl.

Definition table_resize (tbl : list entry) (minused : Z) : list entry :=
  let size := new_size (Z.to_nat (Z.log2_up (minused + 1))) 8 minused in
  foldl insert_clean (replicate (Z.to_nat size) None) (active tbl).

(** [set_add_key]: a key that is there is left; a new one takes the free
    slot found, and the table is resized once three fifths of it are
    filled. *)
Definition add (tbl : list entry) (key : Edge) : list entry :=
  let hk := (tuplehash key, key) in
  match find_slot tbl hk (slots tbl hk.1) with
  | Some (_, true) => tbl
  | Some (i, false) =>
      let tbl := <[Z.to_nat i := Some hk]> tbl in
      let fill := Z.of_nat (length (active tbl)) in
      let mask := Z.of_nat (length tbl) - 1 in
      if bool_decide (fill * 5 < mask * 3) then tbl
      else table_resize tbl (if bool_decide (50000 < fill) then fill * 2 else fill * 4)
  | None => tbl ++ [Some hk]
  end.

(** [set(l)] and [list(s)]: the keys are added in the order of the list
    to a table of eight slots, and listed in the order of the slots. *)
Definition set_of (l : list Edge) : list entry := foldl add (replicate 8 None) l.

Definition list_of (tbl : list entry) : list Edge := snd <$> active tbl.

End PySet.

(** The Mersenne Twister behind [random.Random]: seeding by an array of
    32-bit words ([init_by_array]; for the seed 42 the array is [42]), the
    generation of a word, and [shuffle] on top of it. *)
Module MT.

(** The state is a vector of [N] words of 32 bits. *)
Definition N : nat := 624.
Definition M : nat := 397.
Definition w32 (x : Z) : Z := Z.land x (Z.ones 32).
Definition word_at (mt : list Z) (i : nat) : Z := default 0 (mt !! i).

(** [init_genrand(s)]. *)
Fixpoint init_genrand_from (n : nat) (i prev : Z) : list Z :=
  match n with
  | O => []
  | S n' =>
      let x := w32 (1812433253 * Z.lxor prev (Z.shiftr prev 30) + i) in
      x :: init_genrand_from n' (i + 1) x
  end.

Definition init_genrand (s : Z) : list Z := w32 s :: init_genrand_from (N - 1) 1 (w32 s).

(** [init_by_array(key)]: the two loops over the state, the first of
    which takes in the words of the key; [i] goes back to 1 after [N - 1]. *)
Definition mix (mult : Z) (mt : list Z) (i : nat) : Z :=
  Z.lxor (word_at mt i) (Z.lxor (word_at mt (i - 1)) (Z.shiftr (word_at mt (i - 1)) 30) * mult).

Definition next_i (mt : list Z) (i : nat) : list Z * nat :=
  if bool_decide (N ≤ S i)%nat then (<[0%nat := word_at mt (N - 1)]> mt, 1%nat) else (mt, S i).

Fixpoint key_loop (k : nat) (key : list Z) (mt : list Z) (i j : nat) : list Z * nat :=
  match k with
  | O => (mt, i)
  | S k' =>
      let mt := <[i := w32 (mix 1664525 mt i + default 0 (key !! j) + Z.of_nat j)]> mt in
      let '(mt, i) := next_i mt i in
      let j := if bool_decide (length key ≤ S j)%nat then 0%nat else S j in
      key_loop k' key mt i j
  end.

Fixpoint index_loop (k : nat) (mt : list Z) (i : nat) : list Z :=
  match k with
  | O => mt
  | S k' =>
      let mt := <[i := w32 (mix 1566083941 mt i - Z.of_nat i)]> mt in
      let '(mt, i) := next_i mt i in
      index_loop k' mt i
  end.

Definition init_by_array (key : list Z) : list Z :=
  let '(mt, i) := key_loop (N `max` length key) key (init_genrand 19650218) 1 0 in
  <[0%nat := 2 ^ 31]> (index_loop (N - 1) mt i).

(** The regeneration of the state, one word after the other in place. *)
Fixpoint twist_from (n : nat) (kk : nat) (mt : list Z) : list Z :=
  match n with
  | O => mt
  | S n' =>
      let y := Z.lor (Z.land (word_at mt kk) (2 ^ 31)) (Z.land (word_at mt ((kk + 1) mod N)) (Z.ones 31)) in
      let mag := if Z.odd y then 2567483615 else 0 in
      twist_from n' (S kk)
        (<[kk := Z.lxor (Z.lxor (word_at mt ((kk + M) mod N)) (Z.shiftr y 1)) mag]> mt)
  end.

Definition twist (mt : list Z) : list Z := twist_from N 0 mt.

(** [genrand_uint32]: the state is regenerated when all its words are
    used; the next word is tempered. *)
Definition temper (y : Z) : Z :=
  let y := Z.lxor y (Z.shiftr y 11) in
  let y := Z.lxor y (Z.land (Z.shiftl y 7) 2636928640) in
  let y := Z.lxor y (Z.land (Z.shiftl y 15) 4022730752) in
  Z.lxor y (Z.shiftr y 18).

(** The generator: the state vector and the index of its next word. *)
Definition gen : Type := list Z * nat.

Definition ready (g : gen) : gen :=
  if bool_decide (N ≤ g.2)%nat then (twist g.1, 0%nat) else g.

Definition genrand_uint32 (g : gen) : Z * gen :=
  let g := ready g in (temper (word_at g.1 g.2), (g.1, S g.2)).

(** [seed(n)] for a non-negative integer: [key] holds its 32-bit words,
    the low one first. *)
Definition seed (key : list Z) : gen := (init_by_array key, N).

(** [getrandbits(k)] for [k >= 1]: the high bits of one word, or for more
    than 32 bits as many words as needed, the low ones first. *)
Fixpoint random_words (n : nat) (k : Z) (g : gen) : Z * gen :=
  match n with
  | O => (0, g)
  | S n' =>
      let '(r, g) := genrand_uint32 g in
      let r := if bool_decide (k < 32) then Z.shiftr r (32 - k) else r in
      let '(rest, g) := random_words n' (k - 32) g in
      (r + Z.shiftl rest 32, g)
  end.

Definition getrandbits (k : Z) (g : gen) : Z * gen :=
  if bool_decide (k ≤ 32) then
    let '(r, g) := genrand_uint32 g in (Z.shiftr r (32 - k), g)
  else random_words (Z.to_nat ((k - 1) / 32 + 1)) k g.

(** [_randbelow(n)]: words of [n.bit_length()] bits are drawn until one is
    below [n]; each is so with a chance above one half, and the loop is cut
    after a thousand. *)
Fixpoint randbelow_loop (tries : nat) (n k : Z) (g : gen) : Z * gen :=
  let '(r, g) := getrandbits k g in
  if bool_decide (r < n) then (r, g)
  else match tries with
       | O => (r mod n, g)
       | S tries' => randbelow_loop tries' n k g
       end.

Definition randbelow (n : Z) (g : gen) : Z * gen :=
  if bool_decide (n = 0) then (0, g) else randbelow_loop 1000 n (Z.log2 n + 1) g.

(** [shuffle(x)]: for [i] from [len(x) - 1] down to 1, [x[i]] and
    [x[randbelow(i + 1)]] change places. *)
Definition swap {A} (x : list A) (i j : nat) : list A :=
  match x !! i, x !! j with
  | Some a, Some b => <[j := a]> (<[i := b]> x)
  | _, _ => x
  end.

Fixpoint shuffle_from {A} (i : nat) (x : list A) (g : gen) : list A :=
  match i with
  | O => x
  | S i' =>
      let '(j, g) := randbelow (Z.of_nat i + 1) g in
      shuffle_from i' (swap x i (Z.to_nat j)) g
  end.

Definition shuffle {A} (g : gen) (x : list A) : list A := shuffle_from (length x - 1) x g.

(** [random.Random(42)], ready to give its first word. *)
Definition Random42 : gen := Eval vm_compute in ready (seed [42]).

End MT.

(** ** The road graph (a networkx [DiGraph]) *)

Record Graph := {
  g_nodes : list Z;              (* nodes, in insertion order *)
  g_accInit : gmap Z Z;          (* node attribute 'accInit' *)
  g_adj : gmap Z (list Z);       (* successors of each node, in order *)
  g_time : gmap Edge Z           (* edge attribute 'time' *)
}.

(** [G[n]] and [G.out_edges(n)]. *)
Definition neighbors (g : Graph) (n : Z) : option (list Z) := g_adj g !! n.

Definition out_edges (g : Graph) (n : Z) : option (list Edge) :=
  js ← neighbors g n; Some (map (pair n) js).

(** [G.edges], in iteration order, and [(i,j) in G.edges]. *)
Definition g_edges (g : Graph) : list Edge :=
  flat_map (λ n, map (pair n) (default [] (g_adj g !! n))) (g_nodes g).

Definition has_edge (g : Graph) (e : Edge) : bool :=
  bool_decide (e.2 ∈ default [] (g_adj g !! e.1)).

(** [G.edges[i,j]['time'] = v]. *)
Definition set_edge_time (g : Graph) (e : Edge) (v : Z) : Graph :=
  {| g_nodes := g_nodes g; g_accInit := g_accInit g; g_adj := g_adj g;
     g_time := <[e := v]> (g_time g) |}.

Abbreviation Heap := (gmap loc Graph).

(** ** Scenario: the attributes of a scenario object that [AMoD] reads *)

Module Scenario.

Record t := {
  G : loc;
  demandTime : gmap Edge TimeTable;
  rebTime : gmap Edge TimeTable;
  tf : Z;
  tstep : option Z;              (* [None]: the attribute is not set *)
  tripAttr : list (Z * Z * Z * Z * Qc)
}.

(** [nx.complete_graph(n).to_directed()] with [ninit] vehicles at every
    node: the road graph of a grid scenario. *)
Definition complete_graph (n : nat) (ninit : Z) : Graph :=
  let nodes := Z.of_nat <$> seq 0 n in
  {| g_nodes := nodes;
     g_accInit := list_to_map ((λ i, (i, ninit)) <$> nodes);
     g_adj := list_to_map ((λ i, (i, filter (λ j, j ≠ i) nodes)) <$> nodes);
     g_time := ∅ |}.

(** [deepcopy(scenario)]: the copy owns a fresh graph object. *)
Definition deepcopy (h : Heap) (sc : t) : option (Heap * t) :=
  g ← h !! G sc;
  let l := fresh (dom h) in
  Some (<[l := g]> h,
        {| G := l; demandTime := demandTime sc; rebTime := rebTime sc;
           tf := tf sc; tstep := tstep sc; tripAttr := tripAttr sc |}).

End Scenario.

(** ** Passenger *)

Module Passenger.

Definition MAX_WAIT_STEP : Z := 12.

(** Modelled from the spec: the class [Passenger] of [src/envs/structures.py],
    which is not among the sources. The record has the fields of the data
    model; a passenger is created with [wait_time = 0] and both flags off. *)
Record t := {
  origin : Z;
  destination : Z;
  request_time : Z;
  price : Qc;
  wait_time : Z;
  enter_flag : bool;
  matched_flag : bool
}.

Definition create (o d tr : Z) (p : Qc) : t :=
  {| origin := o; destination := d; request_time := tr; price := p;
     wait_time := 0; enter_flag := false; matched_flag := false |}.

(** Modelled from the spec: [enter()]. Every materialised passenger joins
    the queue; entering twice is a contract failure. *)
Definition enter (p : t) : option (t * bool) :=
  if enter_flag p then None
  else Some ({| origin := origin p; destination := destination p;
                request_time := request_time p; price := price p;
                wait_time := wait_time p; enter_flag := true;
                matched_flag := matched_flag p |}, true).

(** Modelled from the spec: [match(t)]. The acceptance draw (probability
    [exp(-wait_time/4)]) is the argument [draw]; a passenger is matched at
    most once, and matching it again is a contract failure. *)
Definition match_ (p : t) (now : Z) (draw : bool) : option (t * bool) :=
  if matched_flag p then None
  else if draw then
    Some ({| origin := origin p; destination := destination p;
             request_time := request_time p; price := price p;
             wait_time := wait_time p; enter_flag := enter_flag p;
             matched_flag := true |}, true)
  else Some (p, false).

(** Modelled from the spec: [unmatched_update()]. One more step waited; the
    passenger leaves once [wait_time >= MAX_WAIT_STEP]. *)
Definition unmatched_update (p : t) : t * bool :=
  let w := wait_time p + 1 in
  ({| origin := origin p; destination := destination p;
      request_time := request_time p; price := price p;
      wait_time := w; enter_flag := enter_flag p;
      matched_flag := matched_flag p |}, bool_decide (MAX_WAIT_STEP ≤ w)).

(** Modelled from the spec: [generate_passenger((o,d,t,vol,p), arrivals)]
    materialises [vol] passengers of the trip and counts them. *)
Definition generate_passenger (attr : Z * Z * Z * Z * Qc) (arrivals : Z) : list t * Z :=
  let '(o, d, tr, vol, p) := attr in
  let n := Z.to_nat vol in
  (replicate n (create o d tr p), arrivals + Z.of_nat n).

End Passenger.

(** ** The diagnostics dictionary *)

Record Info := {
  revenue : Qc;
  served_demand : Z;
  unserved_demand : Z;
  rebalancing_cost : Qc;
  operating_cost : Qc;
  served_waiting : Z
}.

Definition info0 : Info :=
  {| revenue := 0%Qc; served_demand := 0; unserved_demand := 0;
     rebalancing_cost := 0%Qc; operating_cost := 0%Qc; served_waiting := 0 |}.

(** ** The environment *)

Module AMoD.

(** The attributes of an [AMoD] object. [G] is the location of the road
    graph; [Ncells] is the attribute [N]. *)
Record state := {
  scenario : Scenario.t;
  mode : Z;
  G : loc;
  demandTime : gmap Edge TimeTable;
  rebTime : gmap Edge TimeTable;
  time : Z;
  tf : Z;
  tstep : Z;
  passenger : gmap Z (gmap Z (list Passenger.t));
  queue : gmap Z (list Passenger.t);
  demand : gmap Edge PyDict;
  depDemand : gmap Z PyDict;
  arrDemand : gmap Z PyDict;
  region : list Z;
  price : gmap Edge (gmap Z Qc);
  arrivals : Z;
  acc : gmap Z PyDict;
  dacc : gmap Z PyDict;
  rebFlow : gmap Edge PyDict;
  paxFlow : gmap Edge PyDict;
  edges : list Edge;
  nregion : nat;
  nedge : list nat;
  beta : Qc;
  servedDemand : gmap Edge PyDict;
  unservedDemand : gmap Edge PyDict;
  Ncells : nat;
  info : Info;
  reward : Qc;
  ext_reward : list Qc;
  paxAction : list Z;
  rebAction : list Z;
  regionDemand : gmap Z PyDict
}.

Definition set_time (v : Z) (s : state) : state :=
  {| scenario := scenario s; mode := mode s; G := G s; demandTime := demandTime s; rebTime :=
     rebTime s; time := v; tf := tf s; tstep := tstep s; passenger := passenger s; queue :=
     queue s; demand := demand s; depDemand := depDemand s; arrDemand := arrDemand s; region :=
     region s; price := price s; arrivals := arrivals s; acc := acc s; dacc := dacc s; rebFlow
     := rebFlow s; paxFlow := paxFlow s; edges := edges s; nregion := nregion s; nedge := nedge
     s; beta := beta s; servedDemand := servedDemand s; unservedDemand := unservedDemand s;
     Ncells := Ncells s; info := info s; reward := reward s; ext_reward := ext_reward s;
     paxAction := paxAction s; rebAction := rebAction s; regionDemand := regionDemand s |}.
Definition set_passenger (v : gmap Z (gmap Z (list Passenger.t))) (s : state) : state :=
  {| scenario := scenario s; mode := mode s; G := G s; demandTime := demandTime s; rebTime :=
     rebTime s; time := time s; tf := tf s; tstep := tstep s; passenger := v; queue := queue s;
     demand := demand s; depDemand := depDemand s; arrDemand := arrDemand s; region := region s;
     price := price s; arrivals := arrivals s; acc := acc s; dacc := dacc s; rebFlow := rebFlow
     s; paxFlow := paxFlow s; edges := edges s; nregion := nregion s; nedge := nedge s; beta :=
     beta s; servedDemand := servedDemand s; unservedDemand := unservedDemand s; Ncells :=
     Ncells s; info := info s; reward := reward s; ext_reward := ext_reward s; paxAction :=
     paxAction s; rebAction := rebAction s; regionDemand := regionDemand s |}.
Definition set_queue (v : gmap Z (list Passenger.t)) (s : state) : state :=
  {| scenario := scenario s; mode := mode s; G := G s; demandTime := demandTime s; rebTime :=
     rebTime s; time := time s; tf := tf s; tstep := tstep s; passenger := passenger s; queue :=
     v; demand := demand s; depDemand := depDemand s; arrDemand := arrDemand s; region := region
     s; price := price s; arrivals := arrivals s; acc := acc s; dacc := dacc s; rebFlow :=
     rebFlow s; paxFlow := paxFlow s; edges := edges s; nregion := nregion s; nedge := nedge s;
     beta := beta s; servedDemand := servedDemand s; unservedDemand := unservedDemand s; Ncells
     := Ncells s; info := info s; reward := reward s; ext_reward := ext_reward s; paxAction :=
     paxAction s; rebAction := rebAction s; regionDemand := regionDemand s |}.
Definition set_demand (v : gmap Edge PyDict) (s : state) : state :=
  {| scenario := scenario s; mode := mode s; G := G s; demandTime := demandTime s; rebTime :=
     rebTime s; time := time s; tf := tf s; tstep := tstep s; passenger := passenger s; queue :=
     queue s; demand := v; depDemand := depDemand s; arrDemand := arrDemand s; region := region
     s; price := price s; arrivals := arrivals s; acc := acc s; dacc := dacc s; rebFlow :=
     rebFlow s; paxFlow := paxFlow s; edges := edges s; nregion := nregion s; nedge := nedge s;
     beta := beta s; servedDemand := servedDemand s; unservedDemand := unservedDemand s; Ncells
     := Ncells s; info := info s; reward := reward s; ext_reward := ext_reward s; paxAction :=
     paxAction s; rebAction := rebAction s; regionDemand := regionDemand s |}.
Definition set_depDemand (v : gmap Z PyDict) (s : state) : state :=
  {| scenario := scenario s; mode := mode s; G := G s; demandTime := demandTime s; rebTime :=
     rebTime s; time := time s; tf := tf s; tstep := tstep s; passenger := passenger s; queue :=
     queue s; demand := demand s; depDemand := v; arrDemand := arrDemand s; region := region s;
     price := price s; arrivals := arrivals s; acc := acc s; dacc := dacc s; rebFlow := rebFlow
     s; paxFlow := paxFlow s; edges := edges s; nregion := nregion s; nedge := nedge s; beta :=
     beta s; servedDemand := servedDemand s; unservedDemand := unservedDemand s; Ncells :=
     Ncells s; info := info s; reward := reward s; ext_reward := ext_reward s; paxAction :=
     paxAction s; rebAction := rebAction s; regionDemand := regionDemand s |}.
Definition set_arrDemand (v : gmap Z PyDict) (s : state) : state :=
  {| scenario := scenario s; mode := mode s; G := G s; demandTime := demandTime s; rebTime :=
     rebTime s; time := time s; tf := tf s; tstep := tstep s; passenger := passenger s; queue :=
     queue s; demand := demand s; depDemand := depDemand s; arrDemand := v; region := region s;
     price := price s; arrivals := arrivals s; acc := acc s; dacc := dacc s; rebFlow := rebFlow
     s; paxFlow := paxFlow s; edges := edges s; nregion := nregion s; nedge := nedge s; beta :=
     beta s; servedDemand := servedDemand s; unservedDemand := unservedDemand s; Ncells :=
     Ncells s; info := info s; reward := reward s; ext_reward := ext_reward s; paxAction :=
     paxAction s; rebAction := rebAction s; regionDemand := regionDemand s |}.
Definition set_price (v : gmap Edge (gmap Z Qc)) (s : state) : state :=
  {| scenario := scenario s; mode := mode s; G := G s; demandTime := demandTime s; rebTime :=
     rebTime s; time := time s; tf := tf s; tstep := tstep s; passenger := passenger s; queue :=
     queue s; demand := demand s; depDemand := depDemand s; arrDemand := arrDemand s; region :=
     region s; price := v; arrivals := arrivals s; acc := acc s; dacc := dacc s; rebFlow :=
     rebFlow s; paxFlow := paxFlow s; edges := edges s; nregion := nregion s; nedge := nedge s;
     beta := beta s; servedDemand := servedDemand s; unservedDemand := unservedDemand s; Ncells
     := Ncells s; info := info s; reward := reward s; ext_reward := ext_reward s; paxAction :=
     paxAction s; rebAction := rebAction s; regionDemand := regionDemand s |}.
Definition set_arrivals (v : Z) (s : state) : state :=
  {| scenario := scenario s; mode := mode s; G := G s; demandTime := demandTime s; rebTime :=
     rebTime s; time := time s; tf := tf s; tstep := tstep s; passenger := passenger s; queue :=
     queue s; demand := demand s; depDemand := depDemand s; arrDemand := arrDemand s; region :=
     region s; price := price s; arrivals := v; acc := acc s; dacc := dacc s; rebFlow := rebFlow
     s; paxFlow := paxFlow s; edges := edges s; nregion := nregion s; nedge := nedge s; beta :=
     beta s; servedDemand := servedDemand s; unservedDemand := unservedDemand s; Ncells :=
     Ncells s; info := info s; reward := reward s; ext_reward := ext_reward s; paxAction :=
     paxAction s; rebAction := rebAction s; regionDemand := regionDemand s |}.
Definition set_acc (v : gmap Z PyDict) (s : state) : state :=
  {| scenario := scenario s; mode := mode s; G := G s; demandTime := demandTime s; rebTime :=
     rebTime s; time := time s; tf := tf s; tstep := tstep s; passenger := passenger s; queue :=
     queue s; demand := demand s; depDemand := depDemand s; arrDemand := arrDemand s; region :=
     region s; price := price s; arrivals := arrivals s; acc := v; dacc := dacc s; rebFlow :=
     rebFlow s; paxFlow := paxFlow s; edges := edges s; nregion := nregion s; nedge := nedge s;
     beta := beta s; servedDemand := servedDemand s; unservedDemand := unservedDemand s; Ncells
     := Ncells s; info := info s; reward := reward s; ext_reward := ext_reward s; paxAction :=
     paxAction s; rebAction := rebAction s; regionDemand := regionDemand s |}.
Definition set_dacc (v : gmap Z PyDict) (s : state) : state :=
  {| scenario := scenario s; mode := mode s; G := G s; demandTime := demandTime s; rebTime :=
     rebTime s; time := time s; tf := tf s; tstep := tstep s; passenger := passenger s; queue :=
     queue s; demand := demand s; depDemand := depDemand s; arrDemand := arrDemand s; region :=
     region s; price := price s; arrivals := arrivals s; acc := acc s; dacc := v; rebFlow :=
     rebFlow s; paxFlow := paxFlow s; edges := edges s; nregion := nregion s; nedge := nedge s;
     beta := beta s; servedDemand := servedDemand s; unservedDemand := unservedDemand s; Ncells
     := Ncells s; info := info s; reward := reward s; ext_reward := ext_reward s; paxAction :=
     paxAction s; rebAction := rebAction s; regionDemand := regionDemand s |}.
Definition set_rebFlow (v : gmap Edge PyDict) (s : state) : state :=
  {| scenario := scenario s; mode := mode s; G := G s; demandTime := demandTime s; rebTime :=
     rebTime s; time := time s; tf := tf s; tstep := tstep s; passenger := passenger s; queue :=
     queue s; demand := demand s; depDemand := depDemand s; arrDemand := arrDemand s; region :=
     region s; price := price s; arrivals := arrivals s; acc := acc s; dacc := dacc s; rebFlow
     := v; paxFlow := paxFlow s; edges := edges s; nregion := nregion s; nedge := nedge s; beta
     := beta s; servedDemand := servedDemand s; unservedDemand := unservedDemand s; Ncells :=
     Ncells s; info := info s; reward := reward s; ext_reward := ext_reward s; paxAction :=
     paxAction s; rebAction := rebAction s; regionDemand := regionDemand s |}.
Definition set_paxFlow (v : gmap Edge PyDict) (s : state) : state :=
  {| scenario := scenario s; mode := mode s; G := G s; demandTime := demandTime s; rebTime :=
     rebTime s; time := time s; tf := tf s; tstep := tstep s; passenger := passenger s; queue :=
     queue s; demand := demand s; depDemand := depDemand s; arrDemand := arrDemand s; region :=
     region s; price := price s; arrivals := arrivals s; acc := acc s; dacc := dacc s; rebFlow
     := rebFlow s; paxFlow := v; edges := edges s; nregion := nregion s; nedge := nedge s; beta
     := beta s; servedDemand := servedDemand s; unservedDemand := unservedDemand s; Ncells :=
     Ncells s; info := info s; reward := reward s; ext_reward := ext_reward s; paxAction :=
     paxAction s; rebAction := rebAction s; regionDemand := regionDemand s |}.
Definition set_edges (v : list Edge) (s : state) : state :=
  {| scenario := scenario s; mode := mode s; G := G s; demandTime := demandTime s; rebTime :=
     rebTime s; time := time s; tf := tf s; tstep := tstep s; passenger := passenger s; queue :=
     queue s; demand := demand s; depDemand := depDemand s; arrDemand := arrDemand s; region :=
     region s; price := price s; arrivals := arrivals s; acc := acc s; dacc := dacc s; rebFlow
     := rebFlow s; paxFlow := paxFlow s; edges := v; nregion := nregion s; nedge := nedge s;
     beta := beta s; servedDemand := servedDemand s; unservedDemand := unservedDemand s; Ncells
     := Ncells s; info := info s; reward := reward s; ext_reward := ext_reward s; paxAction :=
     paxAction s; rebAction := rebAction s; regionDemand := regionDemand s |}.
Definition set_nedge (v : list nat) (s : state) : state :=
  {| scenario := scenario s; mode := mode s; G := G s; demandTime := demandTime s; rebTime :=
     rebTime s; time := time s; tf := tf s; tstep := tstep s; passenger := passenger s; queue :=
     queue s; demand := demand s; depDemand := depDemand s; arrDemand := arrDemand s; region :=
     region s; price := price s; arrivals := arrivals s; acc := acc s; dacc := dacc s; rebFlow
     := rebFlow s; paxFlow := paxFlow s; edges := edges s; nregion := nregion s; nedge := v;
     beta := beta s; servedDemand := servedDemand s; unservedDemand := unservedDemand s; Ncells
     := Ncells s; info := info s; reward := reward s; ext_reward := ext_reward s; paxAction :=
     paxAction s; rebAction := rebAction s; regionDemand := regionDemand s |}.
Definition set_servedDemand (v : gmap Edge PyDict) (s : state) : state :=
  {| scenario := scenario s; mode := mode s; G := G s; demandTime := demandTime s; rebTime :=
     rebTime s; time := time s; tf := tf s; tstep := tstep s; passenger := passenger s; queue :=
     queue s; demand := demand s; depDemand := depDemand s; arrDemand := arrDemand s; region :=
     region s; price := price s; arrivals := arrivals s; acc := acc s; dacc := dacc s; rebFlow
     := rebFlow s; paxFlow := paxFlow s; edges := edges s; nregion := nregion s; nedge := nedge
     s; beta := beta s; servedDemand := v; unservedDemand := unservedDemand s; Ncells := Ncells
     s; info := info s; reward := reward s; ext_reward := ext_reward s; paxAction := paxAction
     s; rebAction := rebAction s; regionDemand := regionDemand s |}.
Definition set_unservedDemand (v : gmap Edge PyDict) (s : state) : state :=
  {| scenario := scenario s; mode := mode s; G := G s; demandTime := demandTime s; rebTime :=
     rebTime s; time := time s; tf := tf s; tstep := tstep s; passenger := passenger s; queue :=
     queue s; demand := demand s; depDemand := depDemand s; arrDemand := arrDemand s; region :=
     region s; price := price s; arrivals := arrivals s; acc := acc s; dacc := dacc s; rebFlow
     := rebFlow s; paxFlow := paxFlow s; edges := edges s; nregion := nregion s; nedge := nedge
     s; beta := beta s; servedDemand := servedDemand s; unservedDemand := v; Ncells := Ncells s;
     info := info s; reward := reward s; ext_reward := ext_reward s; paxAction := paxAction s;
     rebAction := rebAction s; regionDemand := regionDemand s |}.
Definition set_info (v : Info) (s : state) : state :=
  {| scenario := scenario s; mode := mode s; G := G s; demandTime := demandTime s; rebTime :=
     rebTime s; time := time s; tf := tf s; tstep := tstep s; passenger := passenger s; queue :=
     queue s; demand := demand s; depDemand := depDemand s; arrDemand := arrDemand s; region :=
     region s; price := price s; arrivals := arrivals s; acc := acc s; dacc := dacc s; rebFlow
     := rebFlow s; paxFlow := paxFlow s; edges := edges s; nregion := nregion s; nedge := nedge
     s; beta := beta s; servedDemand := servedDemand s; unservedDemand := unservedDemand s;
     Ncells := Ncells s; info := v; reward := reward s; ext_reward := ext_reward s; paxAction :=
     paxAction s; rebAction := rebAction s; regionDemand := regionDemand s |}.
Definition set_reward (v : Qc) (s : state) : state :=
  {| scenario := scenario s; mode := mode s; G := G s; demandTime := demandTime s; rebTime :=
     rebTime s; time := time s; tf := tf s; tstep := tstep s; passenger := passenger s; queue :=
     queue s; demand := demand s; depDemand := depDemand s; arrDemand := arrDemand s; region :=
     region s; price := price s; arrivals := arrivals s; acc := acc s; dacc := dacc s; rebFlow
     := rebFlow s; paxFlow := paxFlow s; edges := edges s; nregion := nregion s; nedge := nedge
     s; beta := beta s; servedDemand := servedDemand s; unservedDemand := unservedDemand s;
     Ncells := Ncells s; info := info s; reward := v; ext_reward := ext_reward s; paxAction :=
     paxAction s; rebAction := rebAction s; regionDemand := regionDemand s |}.
Definition set_ext_reward (v : list Qc) (s : state) : state :=
  {| scenario := scenario s; mode := mode s; G := G s; demandTime := demandTime s; rebTime :=
     rebTime s; time := time s; tf := tf s; tstep := tstep s; passenger := passenger s; queue :=
     queue s; demand := demand s; depDemand := depDemand s; arrDemand := arrDemand s; region :=
     region s; price := price s; arrivals := arrivals s; acc := acc s; dacc := dacc s; rebFlow
     := rebFlow s; paxFlow := paxFlow s; edges := edges s; nregion := nregion s; nedge := nedge
     s; beta := beta s; servedDemand := servedDemand s; unservedDemand := unservedDemand s;
     Ncells := Ncells s; info := info s; reward := reward s; ext_reward := v; paxAction :=
     paxAction s; rebAction := rebAction s; regionDemand := regionDemand s |}.
Definition set_paxAction (v : list Z) (s : state) : state :=
  {| scenario := scenario s; mode := mode s; G := G s; demandTime := demandTime s; rebTime :=
     rebTime s; time := time s; tf := tf s; tstep := tstep s; passenger := passenger s; queue :=
     queue s; demand := demand s; depDemand := depDemand s; arrDemand := arrDemand s; region :=
     region s; price := price s; arrivals := arrivals s; acc := acc s; dacc := dacc s; rebFlow
     := rebFlow s; paxFlow := paxFlow s; edges := edges s; nregion := nregion s; nedge := nedge
     s; beta := beta s; servedDemand := servedDemand s; unservedDemand := unservedDemand s;
     Ncells := Ncells s; info := info s; reward := reward s; ext_reward := ext_reward s;
     paxAction := v; rebAction := rebAction s; regionDemand := regionDemand s |}.
Definition set_rebAction (v : list Z) (s : state) : state :=
  {| scenario := scenario s; mode := mode s; G := G s; demandTime := demandTime s; rebTime :=
     rebTime s; time := time s; tf := tf s; tstep := tstep s; passenger := passenger s; queue :=
     queue s; demand := demand s; depDemand := depDemand s; arrDemand := arrDemand s; region :=
     region s; price := price s; arrivals := arrivals s; acc := acc s; dacc := dacc s; rebFlow
     := rebFlow s; paxFlow := paxFlow s; edges := edges s; nregion := nregion s; nedge := nedge
     s; beta := beta s; servedDemand := servedDemand s; unservedDemand := unservedDemand s;
     Ncells := Ncells s; info := info s; reward := reward s; ext_reward := ext_reward s;
     paxAction := paxAction s; rebAction := v; regionDemand := regionDemand s |}.
Definition set_regionDemand (v : gmap Z PyDict) (s : state) : state :=
  {| scenario := scenario s; mode := mode s; G := G s; demandTime := demandTime s; rebTime :=
     rebTime s; time := time s; tf := tf s; tstep := tstep s; passenger := passenger s; queue :=
     queue s; demand := demand s; depDemand := depDemand s; arrDemand := arrDemand s; region :=
     region s; price := price s; arrivals := arrivals s; acc := acc s; dacc := dacc s; rebFlow
     := rebFlow s; paxFlow := paxFlow s; edges := edges s; nregion := nregion s; nedge := nedge
     s; beta := beta s; servedDemand := servedDemand s; unservedDemand := unservedDemand s;
     Ncells := Ncells s; info := info s; reward := reward s; ext_reward := ext_reward s;
     paxAction := paxAction s; rebAction := rebAction s; regionDemand := v |}.

(** The observation tuple [(acc, time, dacc, demand)] and the tuple a step
    returns. *)
Record Obs := {
  obs_acc : gmap Z PyDict;
  obs_time : Z;
  obs_dacc : gmap Z PyDict;
  obs_demand : gmap Edge PyDict
}.

Definition observe (s : state) : Obs :=
  {| obs_acc := acc s; obs_time := time s; obs_dacc := dacc s; obs_demand := demand s |}.

Record StepOut := {
  out_obs : Obs;
  out_reward : Qc;
  out_done : bool;
  out_info : Info;
  out_ext_reward : list Qc;
  out_ext_done : list bool
}.

(** [for k in keys: m[k] = defaultdict(float)]. *)
Definition fill_zeros `{Countable K} {V} (keys : gmap K V) (m : gmap K PyDict) : gmap K PyDict :=
  map_fold (λ k _ m', <[k := zeros]> m') m keys.

(** The rebalancing edge list of [__init__] and [reset]: a self-loop and
    the outgoing edges of every region, as [list(set(self.edges))] lists
    them. *)
Definition build_edges (g : Graph) : option (list Edge) :=
  es ← for_each (λ es i, oe ← out_edges g i; Some (es ++ (i, i) :: oe)) (g_nodes g) [];
  Some (PySet.list_of (PySet.set_of es)).

(** *** [__init__] *)

(** One trip of [scenario.tripAttr]. *)
Definition load_trip (s : state) (tr : Z * Z * Z * Z * Qc) : option state :=
  let '(i, j, t, d, p) := tr in
  let s := set_demand (set2 (demand s) (i, j) t d) s in
  let s := set_price (<[(i, j) := <[t := p]> (default ∅ (price s !! (i, j)))]> (price s)) s in
  dep ← add2_strict (depDemand s) i t d;
  let s := set_depDemand dep s in
  τ ← time_of (demandTime s) (i, j) t;
  arr ← add2_strict (arrDemand s) i (t + τ) d;
  Some (set_arrDemand arr s).

(** [G.edges[i,j]['time'] = rebTime[i,j][now]] for every edge of the graph. *)
Definition refresh_edge_times (tab : gmap Edge TimeTable) (now : Z) (g : Graph) : option Graph :=
  for_each (λ g' e, τ ← time_of tab e now; Some (set_edge_time g' e τ)) (g_edges g) g.

(** [acc[n][0] = G.nodes[n]['accInit']; dacc[n] = defaultdict(float)]. *)
Definition seed_region (g : Graph) (s : state) (n : Z) : option state :=
  a ← g_accInit g !! n;
  let s := set_acc (set2 (acc s) n 0 a) s in
  Some (set_dacc (<[n := zeros]> (dacc s)) s).

Definition init (h : Heap) (sc : Scenario.t) (md : Z) (b : Qc) : option (Heap * state) :=
  '(h, copy) ← Scenario.deepcopy h sc;
  let G_ := Scenario.G sc in
  g ← h !! G_;
  tstep_ ← Scenario.tstep sc;
  let rg := g_nodes g in
  let s :=
    {| scenario := copy; mode := md; G := G_;
       demandTime := Scenario.demandTime copy; rebTime := Scenario.rebTime copy;
       time := 0; tf := Scenario.tf sc; tstep := tstep_;
       passenger := list_to_map ((λ i, (i, ∅)) <$> rg); queue := ∅; demand := ∅;
       depDemand := list_to_map ((λ i, (i, zeros)) <$> rg);
       arrDemand := list_to_map ((λ i, (i, zeros)) <$> rg);
       region := rg; price := ∅; arrivals := 0;
       acc := ∅; dacc := ∅; rebFlow := ∅; paxFlow := ∅;
       edges := []; nregion := length (g_nodes g); nedge := [];
       beta := (b * Qc_of_Z tstep_)%Qc;
       servedDemand := ∅; unservedDemand := ∅; Ncells := length rg;
       info := info0; reward := 0%Qc; ext_reward := [];
       paxAction := []; rebAction := []; regionDemand := ∅ |} in
  s ← for_each load_trip (Scenario.tripAttr sc) s;
  es ← build_edges g;
  let s := set_edges es s in
  ne ← mapM (λ n, oe ← out_edges g n; Some (S (length oe))) rg;
  let s := set_nedge ne s in
  g' ← refresh_edge_times (rebTime s) (time s) g;
  let s := set_rebFlow (foldl (λ m e, <[e := zeros]> m) (rebFlow s) (g_edges g)) s in
  let s := set_paxFlow (fill_zeros (demand s) (paxFlow s)) s in
  s ← for_each (seed_region g') rg s;
  let s := set_servedDemand (fill_zeros (demand s) (servedDemand s)) s in
  let s := set_unservedDemand (fill_zeros (demand s) (unservedDemand s)) s in
  Some (<[G_ := g']> h, s).

(** *** [match_step_simple] *)

Section Matching.

(** [random.Random(42).shuffle]: a fixed permutation for every length. *)
Context (shuffle : list Passenger.t → list Passenger.t).

(** Modelled from the spec: [demand_update] of [src/misc/helper_functions.py],
    the constant-elasticity demand curve; it is called as
    [demand_update(d, p, 2*p, p_ori)] and gives the adjusted volume. *)
Context (demand_update : Z → Qc → Qc → Qc → Z).

(** The body of [for j in self.G[n]]: the new requests towards [j] join the
    batch [passenger[n][t]], and the batch is shuffled. *)
Definition arrive_dest (pr : option (list Qc)) (t n : Z) (s : state) (j : Z) : option state :=
  d ← get2 (demand s) (n, j) t;
  p ← price s !! (n, j) ≫= (.!! t);
  '(d, p) ← match pr with
            | Some v =>
                if bool_decide (foldr Qcplus 0%Qc v ≠ 0%Qc) then
                  τ ← time_of (demandTime s) (n, j) t;
                  x ← py_nth v n;
                  let p' := (Qc_of_Z 10 + Qc_of_Z (Z.max (τ * tstep s - 6) 0) * x)%Qc in
                  Some (Z.max (demand_update d p' (Qc_of_Z 2 * p')%Qc p) 0, p')
                else Some (d, p)
            | None => Some (d, p)
            end;
  let '(newp, arr) := Passenger.generate_passenger (n, j, t, d, p) (arrivals s) in
  let s := set_arrivals arr s in
  byTime ← passenger s !! n;
  let batch := default [] (byTime !! t) in
  Some (set_passenger (<[n := <[t := shuffle (batch ++ newp)]> byTime]> (passenger s)) s).

(** [[pax for pax in batch if pax.enter()]]: the batch with its flags set,
    and the passengers that entered. *)
Fixpoint enter_all (batch : list Passenger.t) : option (list Passenger.t * list Passenger.t) :=
  match batch with
  | [] => Some ([], [])
  | pax :: rest =>
      '(pax', ok) ← Passenger.enter pax;
      '(rest', entered) ← enter_all rest;
      Some (pax' :: rest', if (ok : bool) then pax' :: entered else entered)
  end.

(** Lines 98-112: the region's queue receives the step's batch. *)
Definition enqueue_region (g : Graph) (pr : option (list Qc)) (t : Z) (s : state) (n : Z)
  : option state :=
  js ← neighbors g n;
  s ← for_each (arrive_dest pr t n) js s;
  byTime ← passenger s !! n;
  '(batch', new_enterq) ← enter_all (default [] (byTime !! t));
  let s := set_passenger (<[n := <[t := batch']> byTime]> (passenger s)) s in
  let queueCurrent := default [] (queue s !! n) ++ new_enterq in
  Some (set_queue (<[n := queueCurrent]> (queue s)) s).

End Matching.

(** The state of the walk over one queue: the environment, [accCurrent],
    [matched_leave_index], the passengers walked so far (as updated), and
    the number of acceptance draws consumed. *)
Record Serving := {
  sv_env : state;
  sv_acc : Z;
  sv_index : list nat;
  sv_seen : list Passenger.t;
  sv_draws : nat
}.

Definition info_served (p cost : Qc) (w : Z) (i : Info) : Info :=
  {| revenue := (revenue i + p)%Qc; served_demand := served_demand i + 1;
     unserved_demand := unserved_demand i; rebalancing_cost := rebalancing_cost i;
     operating_cost := (operating_cost i + cost)%Qc;
     served_waiting := served_waiting i + w |}.

Definition info_unserved (i : Info) : Info :=
  {| revenue := revenue i; served_demand := served_demand i;
     unserved_demand := unserved_demand i + 1; rebalancing_cost := rebalancing_cost i;
     operating_cost := operating_cost i; served_waiting := served_waiting i |}.

(** [leave = pax.unmatched_update()] and what follows it. *)
Definition wait_or_leave (t : Z) (i : nat) (pax : Passenger.t) (draws : nat) (sv : Serving)
  : option Serving :=
  let s := sv_env sv in
  let '(pax', leave) := Passenger.unmatched_update pax in
  if leave then
    ud ← add2 (unservedDemand s) (Passenger.origin pax', Passenger.destination pax') t 1;
    let s := set_unservedDemand ud s in
    let s := set_info (info_unserved (info s)) s in
    Some {| sv_env := s; sv_acc := sv_acc sv; sv_index := sv_index sv ++ [i];
            sv_seen := sv_seen sv ++ [pax']; sv_draws := draws |}
  else
    Some {| sv_env := s; sv_acc := sv_acc sv; sv_index := sv_index sv;
            sv_seen := sv_seen sv ++ [pax']; sv_draws := draws |}.

(** One iteration of [for i, pax in enumerate(queueCurrent)]. [coin] gives
    the acceptance draws of the call, in the order they are made. *)
Definition serve_pax (coin : nat → bool) (t n : Z) (sv : Serving) (ip : nat * Passenger.t)
  : option Serving :=
  let '(i, pax) := ip in
  let s := sv_env sv in
  if bool_decide (sv_acc sv ≠ 0) then
    '(pax', accept) ← Passenger.match_ pax t (coin (sv_draws sv));
    if (accept : bool) then
      let od := (Passenger.origin pax', Passenger.destination pax') in
      τ ← time_of (demandTime s) od t;
      pf ← add2 (paxFlow s) od (t + τ) 1;
      let s := set_paxFlow pf s in
      da ← add2 (dacc s) (Passenger.destination pax') (t + τ) 1;
      let s := set_dacc da s in
      sd ← add2 (servedDemand s) od t 1;
      let s := set_servedDemand sd s in
      let cost := (Qc_of_Z τ * beta s)%Qc in
      let s := set_reward (reward s + (Passenger.price pax' - cost))%Qc s in
      er ← np_add (ext_reward s) n (max0 cost);
      let s := set_ext_reward er s in
      let s := set_info (info_served (Passenger.price pax') cost
                           (Passenger.wait_time pax') (info s)) s in
      Some {| sv_env := s; sv_acc := sv_acc sv - 1; sv_index := sv_index sv ++ [i];
              sv_seen := sv_seen sv ++ [pax']; sv_draws := S (sv_draws sv) |}
    else wait_or_leave t i pax' (S (sv_draws sv)) sv
  else wait_or_leave t i pax (sv_draws sv) sv.

(** [[q[i] for i in range(len(q)) if i not in index]]. *)
Definition keep_unless {A} (index : list nat) (q : list A) : list A :=
  (filter (λ ix : nat * A, ix.1 ∉ index) (enumerate q)).*2.

(** Lines 113-148: the queue of region [n] is walked in order, then pruned,
    and what is left of [accCurrent] becomes [acc[n][t+1]]. The queued
    passengers are the objects of their batch in [passenger]; what the walk
    changes in them is followed in the queue, where the code reads them
    again, and the batch keeps them as they entered. *)
Definition serve_region (coin : nat → bool) (t : Z) (accCurrent : Z) (s : state)
    (draws : nat) (n : Z) : option (state * nat) :=
  let queueCurrent := default [] (queue s !! n) in
  sv ← for_each (serve_pax coin t n) (enumerate queueCurrent)
         {| sv_env := s; sv_acc := accCurrent; sv_index := []; sv_seen := [];
            sv_draws := draws |};
  let s := sv_env sv in
  let s := set_queue (<[n := keep_unless (sv_index sv) (sv_seen sv)]> (queue s)) s in
  let s := set_acc (set2 (acc s) n (t + 1) (sv_acc sv)) s in
  Some (s, sv_draws sv).

Section MatchStep.

Context (shuffle : list Passenger.t → list Passenger.t).
Context (demand_update : Z → Qc → Qc → Qc → Z).

(** The body of [for n in self.region]. *)
Definition match_region (g : Graph) (pr : option (list Qc)) (coin : nat → bool) (t : Z)
    (sd : state * nat) (n : Z) : option (state * nat) :=
  let '(s, draws) := sd in
  accCurrent ← get2 (acc s) n t;
  s ← enqueue_region shuffle demand_update g pr t s n;
  serve_region coin t accCurrent s draws n.

(** [done]: no branch of the method binds it for a mode outside 0, 1, 2. *)
Definition match_done (s : state) (t : Z) : option bool :=
  if bool_decide (mode s = 0) || bool_decide (mode s = 2) then Some false
  else if bool_decide (mode s = 1) then Some (bool_decide (tf s = t + 1))
  else None.

Definition match_step_simple (h : Heap) (s : state) (pr : option (list Qc))
    (coin : nat → bool) : option (state * StepOut) :=
  g ← h !! G s;
  let t := time s in
  let s := set_reward 0%Qc s in
  let s := set_ext_reward (replicate (nregion s) 0%Qc) s in
  '(s, _) ← for_each (match_region g pr coin t) (region s) (s, 0%nat);
  done ← match_done s t;
  Some (s, {| out_obs := observe s; out_reward := max0 (reward s); out_done := done;
              out_info := info s; out_ext_reward := ext_reward s;
              out_ext_done := replicate (nregion s) done |}).

End MatchStep.

(** *** [pax_step] *)

Definition info_cleared (i : Info) : Info :=
  {| revenue := 0%Qc; served_demand := 0; unserved_demand := unserved_demand i;
     rebalancing_cost := 0%Qc; operating_cost := 0%Qc;
     served_waiting := served_waiting i |}.

Definition info_operating (c : Qc) (i : Info) : Info :=
  {| revenue := revenue i; served_demand := served_demand i;
     unserved_demand := unserved_demand i; rebalancing_cost := rebalancing_cost i;
     operating_cost := (operating_cost i + c)%Qc; served_waiting := served_waiting i |}.

Definition info_boarded (n : Z) (i : Info) : Info :=
  {| revenue := revenue i; served_demand := served_demand i + n;
     unserved_demand := unserved_demand i; rebalancing_cost := rebalancing_cost i;
     operating_cost := operating_cost i; served_waiting := served_waiting i |}.

Definition info_revenue (r : Qc) (i : Info) : Info :=
  {| revenue := (revenue i + r)%Qc; served_demand := served_demand i;
     unserved_demand := unserved_demand i; rebalancing_cost := rebalancing_cost i;
     operating_cost := operating_cost i; served_waiting := served_waiting i |}.

(** [acc[i][t+1] = acc[i][t]]. *)
Definition carry_over (t : Z) (s : state) (i : Z) : option state :=
  a ← get2 (acc s) i t; Some (set_acc (set2 (acc s) i (t + 1) a) s).

(** One iteration of the serving loop. [paxAction] and [self.paxAction]
    are the same list, so the clipped flow is what the assertion reads.
    On integer flows [x < 1e-3] is [x < 1] and [x < y + 1e-3] is [x <= y]. *)
Definition pax_edge (t : Z) (s : state) (ke : nat * Edge) : option state :=
  let '(k, (i, j)) := ke in
  if negb (bool_decide (is_Some (demand s !! (i, j)))) then Some s else
  if negb (dict_has (sub (demand s) (i, j)) t) then Some s else
  p_k ← paxAction s !! k;
  if bool_decide (p_k < 1) then Some s else
  a_i ← get2 (acc s) i (t + 1);
  let a := Z.min a_i p_k in
  let s := set_paxAction (<[k := a]> (paxAction s)) s in
  if negb (bool_decide (a ≤ a_i)) then None else
  let s := set_servedDemand (set2 (servedDemand s) (i, j) t a) s in
  τ ← time_of (demandTime s) (i, j) t;
  let s := set_paxFlow (set2 (paxFlow s) (i, j) (t + τ) a) s in
  let s := set_info (info_operating (Qc_of_Z τ * beta s * Qc_of_Z a)%Qc (info s)) s in
  a_i' ← get2 (acc s) i (t + 1);
  let s := set_acc (set2 (acc s) i (t + 1) (a_i' - a)) s in
  sd ← get2 (servedDemand s) (i, j) t;
  let s := set_info (info_boarded sd (info s)) s in
  pf ← get2 (paxFlow s) (i, j) (t + τ);
  da ← add2 (dacc s) j (t + τ) pf;
  let s := set_dacc da s in
  p ← price s !! (i, j) ≫= (.!! t);
  let gain := (Qc_of_Z a * (p - Qc_of_Z τ * beta s))%Qc in
  let s := set_reward (reward s + gain)%Qc s in
  er ← np_add (ext_reward s) i (max0 gain);
  let s := set_ext_reward er s in
  Some (set_info (info_revenue (Qc_of_Z a * p)%Qc (info s)) s).

(** [pax_step(paxAction)] for a given flow vector (the default, which asks
    the external solver for one, is outside the model). *)
Definition pax_step (s : state) (action : list Z) : option (state * StepOut) :=
  let t := time s in
  let s := set_reward 0%Qc s in
  let s := set_ext_reward (replicate (nregion s) 0%Qc) s in
  s ← for_each (carry_over t) (region s) s;
  let s := set_info (info_cleared (info s)) s in
  let s := set_paxAction action s in
  s ← for_each (pax_edge t) (enumerate (edges s)) s;
  Some (s, {| out_obs := observe s; out_reward := max0 (reward s); out_done := false;
              out_info := info s; out_ext_reward := ext_reward s;
              out_ext_done := replicate (nregion s) false |}).

(** *** [reb_step] *)

Definition info_rebalanced (c : Qc) (i : Info) : Info :=
  {| revenue := revenue i; served_demand := served_demand i;
     unserved_demand := unserved_demand i;
     rebalancing_cost := (rebalancing_cost i + c)%Qc;
     operating_cost := (operating_cost i + c)%Qc; served_waiting := served_waiting i |}.

(** One iteration of the rebalancing loop. [rebAction] and [self.rebAction]
    are the same list. *)
Definition reb_edge (g : Graph) (t : Z) (s : state) (ke : nat * Edge) : option state :=
  let '(k, (i, j)) := ke in
  if negb (has_edge g (i, j)) then Some s else
  a_i ← get2 (acc s) i (t + 1);
  r_k ← rebAction s !! k;
  let a := Z.min a_i r_k in
  let s := set_rebAction (<[k := a]> (rebAction s)) s in
  τ ← time_of (rebTime s) (i, j) t;
  let s := set_rebFlow (set2 (rebFlow s) (i, j) (t + τ) a) s in
  a_i' ← get2 (acc s) i (t + 1);
  let s := set_acc (set2 (acc s) i (t + 1) (a_i' - a)) s in
  rf ← get2 (rebFlow s) (i, j) (t + τ);
  da ← add2 (dacc s) j (t + τ) rf;
  let s := set_dacc da s in
  let cost := (Qc_of_Z τ * beta s * Qc_of_Z a)%Qc in
  let s := set_info (info_rebalanced cost (info s)) s in
  let s := set_reward (reward s - cost)%Qc s in
  er ← np_add (ext_reward s) i (- cost)%Qc;
  Some (set_ext_reward er s).

(** One iteration of the arrival loop: what the two ledgers of the edge
    hold under the key [t] is added to [acc[j][t+1]]. *)
Definition land_edge (t : Z) (s : state) (e : Edge) : option state :=
  let '(i, j) := e in
  s ← (if has2 (rebFlow s) (i, j) t then
         x ← get2 (rebFlow s) (i, j) t;
         a ← add2 (acc s) j (t + 1) x;
         Some (set_acc a s)
       else Some s);
  if has2 (paxFlow s) (i, j) t then
    x ← get2 (paxFlow s) (i, j) t;
    a ← add2 (acc s) j (t + 1) x;
    Some (set_acc a s)
  else Some s.

(** The two loops of [reb_step]. *)
Definition reb_loop (g : Graph) (t : Z) (s : state) : option state :=
  for_each (reb_edge g t) (enumerate (edges s)) s.

Definition land_loop (t : Z) (s : state) : option state :=
  for_each (land_edge t) (edges s) s.

(** What [reb_step] sets before its first loop. *)
Definition reb_begin (s : state) (action : list Z) : state :=
  set_rebAction action (set_ext_reward (replicate (nregion s) 0%Qc) (set_reward 0%Qc s)).

Definition reb_step (h : Heap) (s : state) (action : list Z)
  : option (Heap * state * StepOut) :=
  g ← h !! G s;
  let t := time s in
  let s := reb_begin s action in
  s ← reb_loop g t s;
  s ← land_loop t s;
  let s := set_time (time s + 1) s in
  g' ← refresh_edge_times (rebTime s) (time s) g;
  let done := bool_decide (tf s = t + 1) in
  Some (<[G s := g']> h, s,
        {| out_obs := observe s; out_reward := reward s; out_done := done;
           out_info := info s; out_ext_reward := ext_reward s;
           out_ext_done := replicate (nregion s) done |}).

(** *** [reset] *)

(** One trip of the regenerated demand. *)
Definition load_demand (s : state) (tr : Z * Z * Z * Z * Qc) : state :=
  let '(i, j, t, d, p) := tr in
  let s := set_demand (set2 (demand s) (i, j) t d) s in
  let s := set_price (<[(i, j) := <[t := p]> (default ∅ (price s !! (i, j)))]> (price s)) s in
  match items (sub (regionDemand s) i) !! t with
  | None => set_regionDemand (set2 (regionDemand s) i t 0) s
  | Some x => set_regionDemand (set2 (regionDemand s) i t (x + d)) s
  end.

(** [reset()]. [trips] is what [self.scenario.get_random_demand(reset=True)]
    returns: the draws come from numpy's global generator. *)
Definition reset (h : Heap) (s : state) (trips : list (Z * Z * Z * Z * Qc))
  : option (state * Obs) :=
  g ← h !! G s;
  let s := set_acc ∅ s in
  let s := set_dacc ∅ s in
  let s := set_rebFlow ∅ s in
  let s := set_paxFlow ∅ s in
  let s := set_queue ∅ s in
  es ← build_edges g;
  let s := set_passenger (list_to_map ((λ i, (i, ∅)) <$> region s)) s in
  let s := set_edges es s in
  let s := set_demand ∅ s in
  let s := set_price ∅ s in
  let s := set_arrivals 0 s in
  let s := set_regionDemand ∅ s in
  let s := foldl load_demand s trips in
  let s := set_time 0 s in
  let s := set_rebFlow (foldl (λ m e, <[e := zeros]> m) (rebFlow s) (g_edges g)) s in
  let s := set_paxFlow (foldl (λ m e, <[e := zeros]> m) (paxFlow s) (g_edges g)) s in
  s ← for_each (seed_region g) (g_nodes g) s;
  let s := set_servedDemand (fill_zeros (demand s) (servedDemand s)) s in
  let s := set_unservedDemand (fill_zeros (demand s) (unservedDemand s)) s in
  let s := set_reward 0%Qc s in
  Some (s, observe s).

(** The bodies of the loops are unfolded on request only. *)
Arguments load_trip : simpl never.
Arguments seed_region : simpl never.
Arguments refresh_edge_times : simpl never.
Arguments build_edges : simpl never.
Arguments arrive_dest : simpl never.
Arguments enqueue_region : simpl never.
Arguments wait_or_leave : simpl never.
Arguments serve_pax : simpl never.
Arguments serve_region : simpl never.
Arguments match_region : simpl never.
Arguments match_done : simpl never.
Arguments carry_over : simpl never.
Arguments pax_edge : simpl never.
Arguments reb_edge : simpl never.
Arguments land_edge : simpl never.
Arguments reb_loop : simpl never.
Arguments land_loop : simpl never.
Arguments reb_begin : simpl never.
Arguments load_demand : simpl never.

End AMoD.

Import AMoD.

(** * Vocabulary of the statements *)

(** No region holds a negative number of vehicles at [t+1]. *)
Definition vehicles_nonneg (t : Z) (s : state) : Prop :=
  ∀ n a, get2 (acc s) n (t + 1) = Some a → 0 ≤ a.

(** The rebalancing cost of the edges a loop processes, from the flows
    that ended up applied. *)
Definition edge_cost (g : Graph) (tab : gmap Edge TimeTable) (t : Z) (b : Qc)
    (applied : list Z) (ke : nat * Edge) : Qc :=
  if has_edge g ke.2 then
    (Qc_of_Z (default 0%Z (time_of tab ke.2 t)) * b * Qc_of_Z (default 0%Z (applied !! ke.1)))%Qc
  else 0%Qc.

Definition reb_cost (g : Graph) (tab : gmap Edge TimeTable) (t : Z) (b : Qc)
    (applied : list Z) (kes : list (nat * Edge)) : Qc :=
  foldr (λ ke c, (edge_cost g tab t b applied ke + c)%Qc) 0%Qc kes.

(** The vehicles a ledger records on edge [e] under the key [t]. *)
Definition landing (m : gmap Edge PyDict) (t : Z) (e : Edge) : Z :=
  match m !! e with
  | Some d => default 0 (items d !! t)
  | None => 0
  end.

(** What the two ledgers hold under the key [t] for the edges of [es] that
    end in region [j]. *)
Definition landed (s : state) (t j : Z) (es : list Edge) : Z :=
  foldr (λ e n, if bool_decide (e.2 = j)
                then landing (rebFlow s) t e + landing (paxFlow s) t e + n
                else n) 0 es.

(** Sums over a list and over the entries of a dictionary. *)
Definition lsum {A} (f : A → Z) (l : list A) : Z := foldr (λ x z, f x + z) 0 l.

Definition msum `{Countable K} {V} (f : K → V → Z) (m : gmap K V) : Z :=
  map_fold (λ k v z, f k v + z) 0 m.

(** Vehicles parked in the regions at time [k]; vehicles a ledger still has
    to deliver at time [t] (those under an arrival key not before [t]); and
    the fleet: parked now plus in flight on either ledger. *)
Definition parked_at (s : state) (k : Z) : Z :=
  lsum (λ n, default 0 (get2 (acc s) n k)) (region s).

Definition parked (s : state) : Z := parked_at s (time s).

Definition row_from (t : Z) (d : PyDict) : Z :=
  msum (λ k v, if bool_decide (t ≤ k) then v else 0) (items d).

Definition in_flight (m : gmap Edge PyDict) (t : Z) : Z :=
  msum (λ _ d, row_from t d) m.

Definition fleet (s : state) : Z :=
  parked s + in_flight (rebFlow s) (time s) + in_flight (paxFlow s) (time s).

(** What keeps a cycle's bookkeeping closed: regions and edges are listed
    once, edges join regions, and the two flow ledgers only have rows for
    listed edges. *)
Record closed_books (s : state) : Prop := {
  cb_region : NoDup (region s);
  cb_edges : NoDup (edges s);
  cb_ends : ∀ i j, (i, j) ∈ edges s → i ∈ region s ∧ j ∈ region s;
  cb_reb : ∀ e, is_Some (rebFlow s !! e) → e ∈ edges s;
  cb_pax : ∀ e, is_Some (paxFlow s !! e) → e ∈ edges s
}.

(** Travel times at [t] are not negative. *)
Definition times_nonneg (tab : gmap Edge TimeTable) (t : Z) : Prop :=
  ∀ e τ, time_of tab e t = Some τ → 0 ≤ τ.

(** The rebalancing ledger holds nothing yet under the key a departure at
    [t] on a graph edge would write. *)
Definition arrival_slots_free (g : Graph) (s : state) : Prop :=
  ∀ e τ, e ∈ edges s → has_edge g e = true →
         time_of (rebTime s) e (time s) = Some τ →
         landing (rebFlow s) (time s + τ) e = 0.



(** Two states with the same regions, edges, travel-time tables, clock,
    graph and rebalancing ledger. *)
Definition same_setting (s s' : state) : Prop :=
  region s' = region s ∧ edges s' = edges s ∧ rebFlow s' = rebFlow s ∧
  rebTime s' = rebTime s ∧ demandTime s' = demandTime s ∧ time s' = time s ∧
  G s' = G s.

(** The length of the queue of a region, and of the batch of passengers
    that arrived there at [t]. *)
Definition queue_len (s : state) (n : Z) : Z :=
  Z.of_nat (length (default [] (queue s !! n))).

Definition batch_len (s : state) (t n : Z) : Z :=
  Z.of_nat (length (default [] (passenger s !! n ≫= (.!! t)))).

(** What the matching phase leaves as it finds it: the setting, the demand
    and price tables, and the parameters of the environment. *)
Definition match_keeps (s s' : state) : Prop :=
  same_setting s s' ∧ demand s' = demand s ∧ price s' = price s ∧
  mode s' = mode s ∧ tf s' = tf s ∧ tstep s' = tstep s ∧ beta s' = beta s ∧
  nregion s' = nregion s ∧ scenario s' = scenario s.

(** A table with a row, a [defaultdict(float)], for each region and for
    nothing else: the shape of [depDemand] and [arrDemand]. *)
Definition region_rows (nodes : list Z) (m : gmap Z PyDict) : Prop :=
  ∀ i, match m !! i with
       | Some d => i ∈ nodes ∧ dflt d = true
       | None => i ∉ nodes
       end.

(** What the construction needs of a trip and of the graph: the origin of
    the trip is a region and the trip has a travel time at its request
    time; every node has its adjacency row and its attribute 'accInit'. *)
Definition trip_loadable (g : Graph) (tab : gmap Edge TimeTable)
    (tr : Z * Z * Z * Z * Qc) : Prop :=
  let '(i, j, t, _, _) := tr in i ∈ g_nodes g ∧ is_Some (time_of tab (i, j) t).

Definition nodes_complete (g : Graph) : Prop :=
  ∀ n, n ∈ g_nodes g → is_Some (g_adj g !! n) ∧ is_Some (g_accInit g !! n).

(** No inventory and no ledger entry is negative. *)
Definition books_nonneg (s : state) : Prop :=
  (∀ n k a, get2 (acc s) n k = Some a → 0 ≤ a) ∧
  (∀ e k, 0 ≤ landing (rebFlow s) k e) ∧
  (∀ e k, 0 ≤ landing (paxFlow s) k e).

(** The passenger ledger holds nothing yet under the key a departure at
    the current time would write. *)
Definition pax_slots_free (s : state) : Prop :=
  ∀ e τ, e ∈ edges s → time_of (demandTime s) e (time s) = Some τ →
         landing (paxFlow s) (time s + τ) e = 0.

(** ** Episodes *)

Section Episode.

Context (shuffle : list Passenger.t → list Passenger.t).
Context (demand_update : Z → Qc → Qc → Qc → Z).

(** One step of an episode in mode 0 or 2: [match_step_simple(price)], then
    [reb_step(action)]. A step has its price signal (or none), its
    acceptance draws and its action. *)
Definition cycle (step : option (list Qc) * (nat → bool) * list Z) (hs : Heap * state)
  : option (Heap * state) :=
  let '(pr, coin, action) := step in
  '(s, _) ← match_step_simple shuffle demand_update hs.1 hs.2 pr coin;
  '(h, s, _) ← reb_step hs.1 s action;
  Some (h, s).

Fixpoint cycles (steps : list (option (list Qc) * (nat → bool) * list Z))
    (hs : Heap * state) : option (Heap * state) :=
  match steps with
  | [] => Some hs
  | st :: rest => hs' ← cycle st hs; cycles rest hs'
  end.

End Episode.

(** A state with its stored action vector blanked: two states with the
    same image differ at most in [rebAction]. *)
Definition forget_rebAction (s : state) : state := set_rebAction [] s.

(** The passenger went from [p] to [p'] in one call and abandoned: its wait
    counter grew by one and reached the threshold. *)
Definition abandons (p p' : Passenger.t) : bool :=
  bool_decide (Passenger.wait_time p' = Passenger.wait_time p + 1) &&
  bool_decide (Passenger.MAX_WAIT_STEP ≤ Passenger.wait_time p').

Definition trip (p : Passenger.t) : Edge := (Passenger.origin p, Passenger.destination p).

(** How many passengers of the queue [q], updated to [q'], abandoned a
    trip [e]; how many abandoned at all. *)
Fixpoint abandoned (e : Edge) (q q' : list Passenger.t) : Z :=
  match q, q' with
  | p :: q, p' :: q' =>
      (if abandons p p' && bool_decide (trip p' = e) then 1 else 0) + abandoned e q q'
  | _, _ => 0
  end.

Fixpoint abandoned_all (q q' : list Passenger.t) : Z :=
  match q, q' with
  | p :: q, p' :: q' => (if abandons p p' then 1 else 0) + abandoned_all q q'
  | _, _ => 0
  end.

(** The demand and price tables that a list of trips alone determines. *)
Definition demand_of_trips (trips : list (Z * Z * Z * Z * Qc)) : gmap Edge PyDict :=
  foldl (λ m tr, let '(i, j, t, d, _) := tr in set2 m (i, j) t d) ∅ trips.

Definition price_of_trips (trips : list (Z * Z * Z * Z * Qc)) : gmap Edge (gmap Z Qc) :=
  foldl (λ m tr, let '(i, j, t, _, p) := tr in
                 <[(i, j) := <[t := p]> (default ∅ (m !! (i, j)))]> m) ∅ trips.

(** The entry of a region that holds [a] vehicles at time 0 and nothing else. *)
Definition seeded (a : Z) : PyDict := {| dflt := false; items := {[0 := a]} |}.

(** * The scenario of a grid

    [Scenario.__init__] without a json file (lines 337-381), called with
    the trips it is to carry ([tripAttr] given, so that nothing is drawn).
    Prices and the demand ratio are floating-point data that no travel
    time depends on; of their loops the model keeps what they do to the
    loop variables and to the travel-time tables. *)

Module GridScenario.

(** [(abs(i//N1-j//N1) + abs(i%N1-j%N1))*grid_travel_time]. *)
Definition distance (N1 grid_travel_time : Z) (e : Edge) : Z :=
  (Z.abs (e.1 / N1 - e.2 / N1) + Z.abs (e.1 mod N1 - e.2 mod N1)) * grid_travel_time.

(** The constructor at work: its loop variables [i, j] (unbound before the
    first iteration) and what the travel-time tables hold. The tables'
    factories are closures over these variables and not over their values. *)
Record walk := {
  cells : option Edge;
  demandItems : gmap Edge (gmap Z Z);
  rebItems : gmap Edge (gmap Z Z)
}.

(** The factory [lambda: (abs(i//N1-j//N1) + abs(i%N1-j%N1))*grid_travel_time],
    called: it reads [i] and [j] as they are bound at the call. *)
Definition factory (N1 grid_travel_time : Z) (w : walk) : option Z :=
  e ← cells w;
  if bool_decide (N1 = 0) then None else Some (distance N1 grid_travel_time e).

(** The body of the loop of lines 352-354: two tables for the edge. *)
Definition new_tables (w : walk) (e : Edge) : option walk :=
  Some {| cells := Some e; demandItems := <[e := ∅]> (demandItems w);
          rebItems := <[e := ∅]> (rebItems w) |}.

(** The loops of lines 362-373 over [self.edges]: they bind [i, j]. *)
Definition ratio_edge (w : walk) (e : Edge) : option walk :=
  Some {| cells := Some e; demandItems := demandItems w; rebItems := rebItems w |}.

(** The body of the loop of lines 376-377: reading
    [self.demandTime[i,j][0]] stores what the factory gives if the key
    is missing. *)
Definition price_edge (N1 grid_travel_time : Z) (w : walk) (e : Edge) : option walk :=
  let w := {| cells := Some e; demandItems := demandItems w; rebItems := rebItems w |} in
  row ← demandItems w !! e;
  match row !! 0 with
  | Some _ => Some w
  | None =>
      v ← factory N1 grid_travel_time w;
      Some {| cells := cells w; demandItems := <[e := <[0 := v]> row]> (demandItems w);
              rebItems := rebItems w |}
  end.

(** What that read leaves in a row when the factory gives [v]. *)
Definition read0 (v : Z) (row : gmap Z Z) : gmap Z Z :=
  match row !! 0 with Some _ => row | None => <[0 := v]> row end.

(** The tables as they are once the constructor has returned: the loop
    variables keep their last values, so every factory gives one value. *)
Definition tables (N1 grid_travel_time : Z) (w : walk) (rows : gmap Edge (gmap Z Z))
  : gmap Edge TimeTable :=
  (λ row, {| tt_default := factory N1 grid_travel_time w; tt_at := row |}) <$> rows.

Record t := {
  G : Graph;
  edges : list Edge;
  demandTime : gmap Edge TimeTable;
  rebTime : gmap Edge TimeTable;
  tf : Z;
  tripAttr : list (Z * Z * Z * Z * Qc)
}.

Definition init (N1 N2 tf ninit grid_travel_time : Z) (fix_price : bool)
    (tripAttr : list (Z * Z * Z * Z * Qc)) : option t :=
  let g := Scenario.complete_graph (Z.to_nat (N1 * N2)) ninit in
  let es := g_edges g ++ map (λ i, (i, i)) (g_nodes g) in
  w ← for_each new_tables es {| cells := None; demandItems := ∅; rebItems := ∅ |};
  w ← for_each ratio_edge es w;
  w ← (if fix_price then for_each (price_edge N1 grid_travel_time) es w else Some w);
  Some {| G := g; edges := es;
          demandTime := tables N1 grid_travel_time w (demandItems w);
          rebTime := tables N1 grid_travel_time w (rebItems w);
          tf := tf; tripAttr := tripAttr |}.

(** The scenario as [AMoD.__init__] takes it: the graph is an object of
    the heap, and [tstep], which this branch of the constructor leaves
    unset ([None]), is the caller's to set. *)
Definition to_scenario (sc : t) (l : loc) (tstep : option Z) : Scenario.t :=
  {| Scenario.G := l; Scenario.demandTime := demandTime sc; Scenario.rebTime := rebTime sc;
     Scenario.tf := tf sc; Scenario.tstep := tstep; Scenario.tripAttr := tripAttr sc |}.

Arguments new_tables : simpl never.
Arguments ratio_edge : simpl never.
Arguments price_edge : simpl never.

End GridScenario.

(** An environment that runs on the scenario of a grid: its rebalancing
    times are the scenario's and its graph has the scenario's nodes and
    adjacency. *)
Definition on_grid (sc : GridScenario.t) (h : Heap) (s : state) : Prop :=
  rebTime s = GridScenario.rebTime sc ∧
  ∃ g, h !! G s = Some g ∧ g_adj g = g_adj (GridScenario.G sc) ∧
       g_nodes g = g_nodes (GridScenario.G sc).

(** * The agent: [src/algos/sac.py], class [SAC]

    The networks, the losses and the optimisers are torch's and stay
    abstract; what is modelled is the control of the constructor and of
    [update] around them. *)

Module SAC.

(** The critic classes and the one whose constructor has a keyword [mode]
    (the others take [in_channels, hidden_size, act_dim] only). *)
Inductive critic_class := GNNCritic1 | GNNCritic2 | GNNCritic3 | GNNCritic4 | GNNCritic5.

Definition takes_mode (c : critic_class) : bool :=
  match c with GNNCritic4 => true | _ => false end.

(** The five [if critic_version == k: GNNCritic = GNNCritick]; [None] is
    the local name [GNNCritic] left unbound. *)
Definition select_critic (critic_version : Z) : option critic_class :=
  let c := None in
  let c := if bool_decide (critic_version = 1) then Some GNNCritic1 else c in
  let c := if bool_decide (critic_version = 2) then Some GNNCritic2 else c in
  let c := if bool_decide (critic_version = 3) then Some GNNCritic3 else c in
  let c := if bool_decide (critic_version = 4) then Some GNNCritic4 else c in
  let c := if bool_decide (critic_version = 5) then Some GNNCritic5 else c in
  c.

Section Agent.

(** [Net]: the parameters of a network; [Opt]: the rest of what training
    changes (the optimisers' moments, [alpha]); [Data]: a batch. *)
Context {Net Opt Data : Type}.

Record agent := {
  actor : Net;
  critic1 : Net;
  critic2 : Net;
  critic1_target : Net;
  critic2_target : Net;
  opt : Opt;
  lag : Z;
  q_lag : Z
}.

(** torch's part of the constructor: the actor for a mode, the [k]-th
    critic built (their weights are drawn one after the other), the
    optimisers. *)
Context (new_actor : Z → option Net).
Context (new_critic : critic_class → Z → nat → option Net).
Context (configure_optimizers : Net → Net → Net → Opt).

(** [GNNCritic(self.input_size, self.hidden_size, act_dim=self.act_dim,
    mode=mode)]: an unbound name and an unexpected keyword raise. *)
Definition call_critic (c : option critic_class) (mode : Z) (k : nat) : option Net :=
  cls ← c;
  if takes_mode cls then new_critic cls mode k else None.

(** [SAC.__init__]. The targets are built and then loaded with the state
    of their critics. *)
Definition init (critic_version mode q_lag : Z) : option agent :=
  a ← new_actor mode;
  let GNNCritic := select_critic critic_version in
  c1 ← call_critic GNNCritic mode 0;
  c2 ← call_critic GNNCritic mode 1;
  _ ← call_critic GNNCritic mode 2;
  let c1t := c1 in
  _ ← call_critic GNNCritic mode 3;
  let c2t := c2 in
  Some {| actor := a; critic1 := c1; critic2 := c2; critic1_target := c1t;
          critic2_target := c2t; opt := configure_optimizers a c1 c2;
          lag := 0; q_lag := q_lag |}.

(** torch's part of [update]: the two critic steps on the losses of
    [compute_loss_q], [p_targ.data.mul_(polyak); p_targ.data.add_((1 -
    polyak) * p.data)] on the parameters of a target and of its critic, the
    policy step. *)
Context (critic_steps : agent → Data → option (Net * Net * Opt)).
Context (polyak_avg : Net → Net → Net).
Context (actor_step : agent → Data → option (Net * Opt)).

(** [update(data)]. *)
Definition update (a : agent) (data : Data) : option agent :=
  let a := {| actor := actor a; critic1 := critic1 a; critic2 := critic2 a;
              critic1_target := critic1_target a; critic2_target := critic2_target a;
              opt := opt a; lag := lag a + 1; q_lag := q_lag a |} in
  '(c1, c2, o) ← critic_steps a data;
  let a := {| actor := actor a; critic1 := c1; critic2 := c2;
              critic1_target := critic1_target a; critic2_target := critic2_target a;
              opt := o; lag := lag a; q_lag := q_lag a |} in
  let a := if bool_decide (lag a = q_lag a) then
             {| actor := actor a; critic1 := critic1 a; critic2 := critic2 a;
                critic1_target := polyak_avg (critic1_target a) (critic1 a);
                critic2_target := polyak_avg (critic2_target a) (critic2 a);
                opt := opt a; lag := 0; q_lag := q_lag a |}
           else a in
  '(p, o) ← actor_step a data;
  Some {| actor := p; critic1 := critic1 a; critic2 := critic2 a;
          critic1_target := critic1_target a; critic2_target := critic2_target a;
          opt := o; lag := lag a; q_lag := q_lag a |}.

(** A run of updates, one batch after the other. *)
Definition updates (a : agent) (batches : list Data) : option agent :=
  for_each update batches a.

(** What the counter of an agent with [q_lag = q] reads after [n] updates
    of a fresh one. *)
Definition counted (q n : Z) (a : agent) : Prop :=
  q_lag a = q ∧ lag a = if bool_decide (0 < q) then n mod q else n.

End Agent.

Arguments agent : clear implicits.

End SAC.

(** * Concrete scenarios *)

(** [random.Random(42).shuffle]: a generator seeded anew at every call. *)
Definition shuffle42 {A} (l : list A) : list A := MT.shuffle MT.Random42 l.

(** No adjustment of the demand to the price. *)
Definition no_elasticity (d : Z) (_ _ _ : Qc) : Z := d.

(** Regions [0..n-1] on a line: the trip from [i] to [j] takes [|i-j|]
    steps at any time. *)
Definition line_nodes (n : nat) : list Z := Z.of_nat <$> seq 0 n.

Definition line_tables (n : nat) : gmap Edge TimeTable :=
  list_to_map (i ← line_nodes n; j ← line_nodes n;
               [((i, j), {| tt_default := Some (Z.abs (i - j)); tt_at := ∅ |})]).

(** Trips between all pairs at every step below [horizon], with the
    volumes [vol] and one fare. *)
Definition line_trips (n horizon : nat) (vol : Z → Z → Z → Z) (fare : Qc)
  : list (Z * Z * Z * Z * Qc) :=
  t ← line_nodes horizon; i ← line_nodes n; j ← line_nodes n; [(i, j, t, vol i j t, fare)].

Definition line_scenario (n horizon : nat) (vol : Z → Z → Z → Z) (fare : Qc)
    (reb : gmap Edge TimeTable) : Scenario.t :=
  {| Scenario.G := 0%nat; Scenario.demandTime := line_tables n; Scenario.rebTime := reb;
     Scenario.tf := Z.of_nat horizon; Scenario.tstep := Some 2;
     Scenario.tripAttr := line_trips n horizon vol fare |}.

Definition line_heap (n : nat) (ninit : Z) : Heap :=
  {[ 0%nat := Scenario.complete_graph n ninit ]}.

(** The same with [random.Random(42).shuffle], no price signal and one
    source of acceptance draws for every step. *)
Definition cycle42 (coin : nat → bool) (action : list Z) (hs : Heap * state)
  : option (Heap * state) :=
  cycle shuffle42 no_elasticity (None, coin, action) hs.

Definition cycles42 (coin : nat → bool) (actions : list (list Z)) (hs : Heap * state)
  : option (Heap * state) :=
  cycles shuffle42 no_elasticity ((λ a, (None, coin, a)) <$> actions) hs.

(** Scenario A: two regions, five vehicles each, no demand. *)
Definition quiet (i j t : Z) : Z := 0.

Definition scenario_A : Scenario.t :=
  line_scenario 2 4 quiet (Qc_of_Z 3) (line_tables 2).

Definition env_A : option (Heap * state) :=
  init (line_heap 2 5) scenario_A 0 (Q2Qc (1 # 10)).

(** Scenario A with a rebalancing time on edge (0,1) that drops from two
    steps at time 0 to one step afterwards. *)
Definition faster_later : gmap Edge TimeTable :=
  <[(0, 1) := {| tt_default := Some 1; tt_at := {[0 := 2]} |}]> (line_tables 2).

Definition env_varying : option (Heap * state) :=
  init (line_heap 2 5) (line_scenario 2 4 quiet (Qc_of_Z 3) faster_later) 0 (Q2Qc (1 # 10)).

(** Scenario B: one request from 0 to 1 at time 0 and no vehicle anywhere. *)
Definition one_request (i j t : Z) : Z :=
  if bool_decide (i = 0 ∧ j = 1 ∧ t = 0) then 1 else 0.

Definition env_B : option (Heap * state) :=
  init (line_heap 2 0) (line_scenario 2 13 one_request (Qc_of_Z 3) (line_tables 2))
       0 (Q2Qc (1 # 10)).

(** Four regions, one request from region 0 to each other region at time 0. *)
Definition fan_out (i j t : Z) : Z :=
  if bool_decide (i = 0 ∧ j ≠ 0 ∧ t = 0) then 1 else 0.

Definition env_C : option (Heap * state) :=
  init (line_heap 4 5) (line_scenario 4 2 fan_out (Qc_of_Z 3) (line_tables 4))
       0 (Q2Qc (1 # 10)).

(** Scenario A with one request from 0 to 1 at time 0 that pays nothing. *)
Definition env_free : option (Heap * state) :=
  init (line_heap 2 5) (line_scenario 2 2 one_request 0%Qc (line_tables 2)) 0 (Q2Qc (1 # 10)).

(** The environment after the matching phase of its current step. *)
Definition matched (e : option (Heap * state)) : option (Heap * state) :=
  hs ← e;
  '(s, _) ← match_step_simple shuffle42 no_elasticity hs.1 hs.2 None (λ _, true);
  Some (hs.1, s).

(** The queue that one shuffle of the step's whole incoming batch would
    give: the statement of the specification, for comparison. *)
Definition enqueue_once (shuffle : list Passenger.t → list Passenger.t)
    (q : list Passenger.t) (news : list (list Passenger.t)) : option (list Passenger.t) :=
  '(_, entered) ← enter_all (shuffle (concat news)); Some (q ++ entered).

(** An environment with nothing in it and a graph without nodes: what a
    failed run is read as. *)
Definition blank : state :=
  {| scenario := {| Scenario.G := 0%nat; Scenario.demandTime := ∅; Scenario.rebTime := ∅;
                    Scenario.tf := 0; Scenario.tstep := None; Scenario.tripAttr := [] |};
     mode := 0; G := 0%nat; demandTime := ∅; rebTime := ∅; time := 0; tf := 0; tstep := 0;
     passenger := ∅; queue := ∅; demand := ∅; depDemand := ∅; arrDemand := ∅; region := [];
     price := ∅; arrivals := 0; acc := ∅; dacc := ∅; rebFlow := ∅; paxFlow := ∅; edges := [];
     nregion := 0; nedge := []; beta := 0%Qc; servedDemand := ∅; unservedDemand := ∅;
     Ncells := 0; info := info0; reward := 0%Qc; ext_reward := []; paxAction := [];
     rebAction := []; regionDemand := ∅ |}.

Definition no_graph : Graph := Scenario.complete_graph 0 0.

Definition blank_out : StepOut :=
  {| out_obs := observe blank; out_reward := 0%Qc; out_done := false; out_info := info0;
     out_ext_reward := []; out_ext_done := [] |}.

Definition the_env (e : option (Heap * state)) : Heap * state := default (∅, blank) e.

Definition succeeds {A} (o : option A) : bool := if o is Some _ then true else false.

(** Three regions on a line, five vehicles each, no demand. *)
Definition env_D : option (Heap * state) :=
  init (line_heap 3 5) (line_scenario 3 4 quiet (Qc_of_Z 3) (line_tables 3)) 0 (Q2Qc (1 # 10)).

(** The concrete states the examples start from: scenario A after its first
    matching phase; the same one cycle later, matched, with two vehicles on
    their way from 0 to 1; the three-region scenario one cycle later,
    matched, with two vehicles on their two-step way from 0 to 2; scenario
    B after eleven and after twelve cycles; the four-region scenario at
    its start. *)
Definition at_A : Heap * state := the_env (matched env_A).

Definition at_A1 : Heap * state :=
  the_env (matched (hs ← env_A; cycle42 (λ _, true) [2; 0; 0; 0] hs)).

Definition at_D1 : Heap * state :=
  the_env (matched (hs ← env_D; cycle42 (λ _, true) [0; 0; 0; 0; 0; 0; 2; 0; 0] hs)).

Definition at_B11 : Heap * state :=
  the_env (hs ← env_B; cycles42 (λ _, true) (replicate 11 [0; 0; 0; 0]) hs).

Definition at_B12 : Heap * state :=
  the_env (hs ← env_B; cycles42 (λ _, true) (replicate 12 [0; 0; 0; 0]) hs).

Definition at_C : Heap * state := the_env env_C.

(** A grid of two cells side by side, three steps apart, with five
    vehicles in each and no demand; the environment built on it, with
    [tstep] set to 2, after its first matching phase. *)
Definition grid_blank : GridScenario.t :=
  {| GridScenario.G := no_graph; GridScenario.edges := []; GridScenario.demandTime := ∅;
     GridScenario.rebTime := ∅; GridScenario.tf := 0; GridScenario.tripAttr := [] |}.

Definition grid_2x1 : GridScenario.t :=
  default grid_blank (GridScenario.init 2 1 4 5 3 true (line_trips 2 4 quiet (Qc_of_Z 3))).

Definition env_grid : option (Heap * state) :=
  init {[ 0%nat := GridScenario.G grid_2x1 ]} (GridScenario.to_scenario grid_2x1 0%nat (Some 2))
       0 (Q2Qc (1 # 10)).

Definition at_grid : Heap * state := the_env (matched env_grid).

(** An agent with networks of one weight: the [k]-th critic built has the
    weight [k], an update trains the critics by 2 and by 4 and leaves the
    actor, and a target moves half the way to its critic. *)
Definition toy_steps (a : SAC.agent Z unit) (_ : unit) : option (Z * Z * unit) :=
  Some (SAC.critic1 a + 2, SAC.critic2 a + 4, tt).

Definition toy_avg (t c : Z) : Z := (t + c) / 2.

Definition toy_actor (a : SAC.agent Z unit) (_ : unit) : option (Z * unit) :=
  Some (SAC.actor a, tt).

Definition toy_init : Z → Z → Z → option (SAC.agent Z unit) :=
  SAC.init (λ _, Some 0) (λ _ _ k, Some (Z.of_nat k)) (λ _ _ _, tt).

(** The agent that [toy_init 4 1 2] builds, and what one and two updates
    make of it. *)
Definition toy_fresh : SAC.agent Z unit :=
  {| SAC.actor := 0; SAC.critic1 := 0; SAC.critic2 := 1; SAC.critic1_target := 0;
     SAC.critic2_target := 1; SAC.opt := tt; SAC.lag := 0; SAC.q_lag := 2 |}.

Definition toy_once : SAC.agent Z unit :=
  {| SAC.actor := 0; SAC.critic1 := 2; SAC.critic2 := 5; SAC.critic1_target := 0;
     SAC.critic2_target := 1; SAC.opt := tt; SAC.lag := 1; SAC.q_lag := 2 |}.

Definition toy_twice : SAC.agent Z unit :=
  {| SAC.actor := 0; SAC.critic1 := 4; SAC.critic2 := 9; SAC.critic1_target := 2;
     SAC.critic2_target := 5; SAC.opt := tt; SAC.lag := 0; SAC.q_lag := 2 |}.

(** * Proofs *)

(** ** Dictionaries and loops *)

Section Containers.
Context `{Countable K}.
Implicit Types (m : gmap K PyDict) (k : K) (t v : Z).

Lemma dict_get_set_eq d t v : dict_get (dict_set d t v) t = Some v.
Proof. unfold dict_get, dict_set; simpl. by rewrite lookup_insert_eq. Qed.

Lemma dict_get_set_ne d t t' v : t ≠ t' → dict_get (dict_set d t v) t' = dict_get d t'.
Proof. intros. unfold dict_get, dict_set; simpl. by rewrite lookup_insert_ne. Qed.

Lemma sub_set2_eq m k t v : sub (set2 m k t v) k = dict_set (sub m k) t v.
Proof. unfold sub at 1, set2. by rewrite lookup_insert_eq. Qed.

Lemma sub_set2_ne m k k' t v : k ≠ k' → sub (set2 m k t v) k' = sub m k'.
Proof. intros. unfold sub, set2. by rewrite lookup_insert_ne. Qed.

Lemma get2_set2_eq m k t v : get2 (set2 m k t v) k t = Some v.
Proof. unfold get2. by rewrite sub_set2_eq, dict_get_set_eq. Qed.

Lemma get2_set2_ne_key m k k' t t' v : k ≠ k' → get2 (set2 m k t v) k' t' = get2 m k' t'.
Proof. intros. unfold get2. by rewrite sub_set2_ne. Qed.

Lemma get2_set2_ne_time m k k' t t' v : t ≠ t' → get2 (set2 m k t v) k' t' = get2 m k' t'.
Proof.
  intros. unfold get2. destruct (decide (k = k')) as [->|].
  - by rewrite sub_set2_eq, dict_get_set_ne.
  - by rewrite sub_set2_ne.
Qed.

Lemma add2_Some m k t v m' :
  add2 m k t v = Some m' ↔ ∃ x, get2 m k t = Some x ∧ m' = set2 m k t (x + v).
Proof.
  unfold add2. split.
  - intros Hm. destruct (get2 m k t) as [x|]; simplify_eq/=. eauto.
  - intros (x & -> & ->). done.
Qed.
End Containers.

Lemma for_each_app {A S} (f : S → A → option S) l1 l2 s :
  for_each f (l1 ++ l2) s = for_each f l1 s ≫= for_each f l2.
Proof.
  revert s. induction l1 as [|x l1 IH]; intros s; simpl; [done|].
  destruct (f s x); simpl; [apply IH|done].
Qed.

Lemma enumerate_from_app {A} k (l1 l2 : list A) :
  enumerate_from k (l1 ++ l2) = enumerate_from k l1 ++ enumerate_from (k + length l1) l2.
Proof.
  revert k. induction l1 as [|x l1 IH]; intros k; simpl.
  - by rewrite Nat.add_0_r.
  - rewrite IH. do 3 f_equal. lia.
Qed.

(** ** The rebalancing loop *)

Lemma reb_edge_skip g t s k e :
  has_edge g e = false → reb_edge g t s (k, e) = Some s.
Proof. intros He. destruct e as [i j]. unfold reb_edge. by rewrite He. Qed.

Lemma reb_edge_move g t s k i j s' :
  has_edge g (i, j) = true →
  reb_edge g t s (k, (i, j)) = Some s' →
  ∃ a_i r_k τ x er,
    get2 (acc s) i (t + 1) = Some a_i ∧ rebAction s !! k = Some r_k ∧
    time_of (rebTime s) (i, j) t = Some τ ∧
    get2 (dacc s) j (t + τ) = Some x ∧
    let a := Z.min a_i r_k in
    let cost := (Qc_of_Z τ * beta s * Qc_of_Z a)%Qc in
    np_add (ext_reward s) i (- cost)%Qc = Some er ∧
    s' = set_ext_reward er (set_reward (reward s - cost)%Qc
           (set_info (info_rebalanced cost (info s))
              (set_dacc (set2 (dacc s) j (t + τ) (x + a))
                 (set_acc (set2 (acc s) i (t + 1) (a_i - a))
                    (set_rebFlow (set2 (rebFlow s) (i, j) (t + τ) a)
                       (set_rebAction (<[k := a]> (rebAction s)) s)))))).
Proof.
  intros He Hs. unfold reb_edge in Hs. rewrite He in Hs. simpl in Hs.
  destruct (get2 (acc s) i (t + 1)) as [a_i|] eqn:Ha; simpl in Hs; [|done].
  destruct (rebAction s !! k) as [r_k|] eqn:Hr; simpl in Hs; [|done].
  destruct (time_of (rebTime s) (i, j) t) as [τ|] eqn:Hτ; simpl in Hs; [|done].
  rewrite get2_set2_eq in Hs. simpl in Hs.
  destruct (add2 (dacc s) j (t + τ) (a_i `min` r_k)) as [da|] eqn:Hda; simpl in Hs; [|done].
  apply add2_Some in Hda as (x & Hx & ->).
  destruct (np_add _ _ _) as [er|] eqn:Her; simpl in Hs; [|done].
  exists a_i, r_k, τ, x, er. split_and!; try done. by inversion Hs.
Qed.

Lemma enumerate_from_lookup {A} k0 (l : list A) n :
  enumerate_from k0 l !! n = (λ x, ((k0 + n)%nat, x)) <$> l !! n.
Proof.
  revert k0 n. induction l as [|x l IH]; intros k0 n; simpl; [done|].
  destruct n as [|n]; simpl.
  - by rewrite Nat.add_0_r.
  - rewrite IH. by replace (S k0 + n)%nat with (k0 + S n)%nat by lia.
Qed.

Lemma enumerate_from_length {A} k0 (l : list A) : length (enumerate_from k0 l) = length l.
Proof. revert k0. induction l; intros; simpl; auto. Qed.

Lemma enumerate_split {A} (l : list A) k x :
  l !! k = Some x →
  enumerate l = take k (enumerate l) ++ (k, x) :: enumerate_from (S k) (drop (S k) l).
Proof.
  intros Hk. unfold enumerate.
  rewrite <- (take_drop_middle l k x Hk) at 1.
  rewrite enumerate_from_app. simpl.
  assert (Hlen : length (take k l) = k).
  { rewrite length_take. apply lookup_lt_Some in Hk. lia. }
  rewrite Hlen. simpl. f_equal.
  rewrite <- (take_drop_middle l k x Hk) at 2.
  rewrite enumerate_from_app, take_app_length'; [done|].
  by rewrite enumerate_from_length.
Qed.

(** Frame of one rebalancing iteration. *)
Lemma reb_edge_rebAction g t s k e s' n :
  reb_edge g t s (k, e) = Some s' → n ≠ k → rebAction s' !! n = rebAction s !! n.
Proof.
  intros Hs Hn. destruct e as [i j]. destruct (has_edge g (i, j)) eqn:He.
  - apply reb_edge_move in Hs as (a_i & r_k & τ & x & er & _ & _ & _ & _ & _ & ->); [|done].
    simpl. by rewrite list_lookup_insert_ne.
  - rewrite reb_edge_skip in Hs by done. by simplify_eq.
Qed.

Lemma reb_edges_rebAction g t l k0 s s' n :
  for_each (reb_edge g t) (enumerate_from k0 l) s = Some s' →
  (n < k0 ∨ k0 + length l ≤ n)%nat →
  rebAction s' !! n = rebAction s !! n.
Proof.
  revert k0 s. induction l as [|e l IH]; intros k0 s Hs Hn;
    cbn [for_each enumerate_from length] in *; [by simplify_eq|].
  destruct (reb_edge g t s (k0, e)) as [s1|] eqn:H1; simpl in Hs; [|done].
  rewrite (IH _ _ Hs) by lia. eapply reb_edge_rebAction; [done|lia].
Qed.

Lemma reb_edge_nonneg g t s ke s' :
  reb_edge g t s ke = Some s' → vehicles_nonneg t s → vehicles_nonneg t s'.
Proof.
  destruct ke as [k [i j]]. intros Hs Hnn. destruct (has_edge g (i, j)) eqn:He.
  - apply reb_edge_move in Hs as (a_i & r_k & τ & x & er & Ha & _ & _ & _ & _ & ->); [|done].
    intros n a. simpl. destruct (decide (i = n)) as [->|Hne].
    + rewrite get2_set2_eq. intros [= <-]. specialize (Hnn _ _ Ha). lia.
    + rewrite get2_set2_ne_key by done. apply Hnn.
  - rewrite reb_edge_skip in Hs by done. by simplify_eq.
Qed.

Lemma reb_edges_nonneg g t l s s' :
  for_each (reb_edge g t) l s = Some s' → vehicles_nonneg t s → vehicles_nonneg t s'.
Proof.
  revert s. induction l as [|e l IH]; intros s Hs Hnn; cbn [for_each] in *; [by simplify_eq|].
  destruct (reb_edge g t s e) as [s1|] eqn:H1; simpl in Hs; [|done].
  eauto using reb_edge_nonneg.
Qed.

Lemma reb_loop_clips_flow g t s s' :
  reb_loop g t s = Some s' →
  (∀ k i j, edges s !! k = Some (i, j) → has_edge g (i, j) = true →
     ∃ s_k s_k1 a_i r_k τ,
       for_each (reb_edge g t) (take k (enumerate (edges s))) s = Some s_k ∧
       reb_edge g t s_k (k, (i, j)) = Some s_k1 ∧
       get2 (acc s_k) i (t + 1) = Some a_i ∧
       rebAction s !! k = Some r_k ∧
       time_of (rebTime s_k) (i, j) t = Some τ ∧
       rebAction s' !! k = Some (Z.min a_i r_k) ∧
       get2 (rebFlow s_k1) (i, j) (t + τ) = Some (Z.min a_i r_k) ∧
       get2 (acc s_k1) i (t + 1) = Some (a_i - Z.min a_i r_k) ∧
       Z.min a_i r_k ≤ a_i)
  ∧ (vehicles_nonneg t s →
     ∀ k s_k, for_each (reb_edge g t) (take k (enumerate (edges s))) s = Some s_k →
              vehicles_nonneg t s_k).
Proof.
  intros Hloop. split; [|intros Hnn k s_k Hk; by eapply reb_edges_nonneg].
  intros k i j Hk He. unfold reb_loop in Hloop.
  rewrite (enumerate_split _ _ _ Hk), for_each_app in Hloop.
  destruct (for_each _ (take k _) s) as [s_k|] eqn:Hpre; simpl in Hloop; [|done].
  destruct (reb_edge g t s_k (k, (i, j))) as [s_k1|] eqn:Hmid; simpl in Hloop; [|done].
  pose proof Hmid as Hmv.
  apply reb_edge_move in Hmv as (a_i & r_k & τ & x & er & Ha & Hr & Hτ & _ & _ & ->); [|done].
  exists s_k, (set_ext_reward er
    (set_reward (reward s_k - Qc_of_Z τ * beta s_k * Qc_of_Z (a_i `min` r_k))%Qc
       (set_info (info_rebalanced (Qc_of_Z τ * beta s_k * Qc_of_Z (a_i `min` r_k))%Qc (info s_k))
          (set_dacc (set2 (dacc s_k) j (t + τ) (x + a_i `min` r_k))
             (set_acc (set2 (acc s_k) i (t + 1) (a_i - a_i `min` r_k))
                (set_rebFlow (set2 (rebFlow s_k) (i, j) (t + τ) (a_i `min` r_k))
                   (set_rebAction (<[k:=a_i `min` r_k]> (rebAction s_k)) s_k))))))), a_i, r_k, τ.
  assert (Hreq : rebAction s_k !! k = rebAction s !! k).
  { unfold enumerate in Hpre.
    replace (take k (enumerate_from 0 (edges s))) with (enumerate_from 0 (take k (edges s))) in Hpre.
    - eapply reb_edges_rebAction; [done|]. right. rewrite length_take. simpl. lia.
    - apply list_eq. intros n. rewrite lookup_take, !enumerate_from_lookup, lookup_take.
      by case_decide. }
  split_and!; try done.
  - congruence.
  - rewrite (reb_edges_rebAction _ _ _ _ _ _ k Hloop) by (left; lia).
    simpl. rewrite list_lookup_insert_eq; [done|]. by eapply lookup_lt_Some.
  - simpl. by rewrite get2_set2_eq.
  - simpl. by rewrite get2_set2_eq.
  - lia.
Qed.

(** What a rebalancing iteration leaves alone. *)
Lemma reb_edge_static g t s ke s' :
  reb_edge g t s ke = Some s' →
  rebTime s' = rebTime s ∧ beta s' = beta s ∧ edges s' = edges s ∧ time s' = time s ∧
  tf s' = tf s ∧ G s' = G s ∧ paxFlow s' = paxFlow s ∧ nregion s' = nregion s ∧
  length (rebAction s') = length (rebAction s).
Proof.
  destruct ke as [k [i j]]. intros Hs. destruct (has_edge g (i, j)) eqn:He.
  - apply reb_edge_move in Hs as (a_i & r_k & τ & x & er & _ & _ & _ & _ & _ & ->); [|done].
    simpl. by rewrite length_insert.
  - rewrite reb_edge_skip in Hs by done. by simplify_eq.
Qed.

Lemma reb_edges_static g t l s s' :
  for_each (reb_edge g t) l s = Some s' →
  rebTime s' = rebTime s ∧ beta s' = beta s ∧ edges s' = edges s ∧ time s' = time s ∧
  tf s' = tf s ∧ G s' = G s ∧ paxFlow s' = paxFlow s ∧ nregion s' = nregion s ∧
  length (rebAction s') = length (rebAction s).
Proof.
  revert s. induction l as [|e l IH]; intros s Hs; cbn [for_each] in *; [by simplify_eq|].
  destruct (reb_edge g t s e) as [s1|] eqn:H1; simpl in Hs; [|done].
  apply reb_edge_static in H1. apply IH in Hs. destruct_and!. split_and!; congruence.
Qed.

Lemma reb_cost_cons g tab t b applied ke kes :
  reb_cost g tab t b applied (ke :: kes) =
    (edge_cost g tab t b applied ke + reb_cost g tab t b applied kes)%Qc.
Proof. reflexivity. Qed.

Lemma reb_edges_reward g t l k0 s s' :
  for_each (reb_edge g t) (enumerate_from k0 l) s = Some s' →
  reward s' =
    (reward s - reb_cost g (rebTime s) t (beta s) (rebAction s') (enumerate_from k0 l))%Qc.
Proof.
  revert k0 s. induction l as [|e l IH]; intros k0 s Hs; cbn [for_each enumerate_from] in *.
  - simplify_eq. unfold reb_cost. simpl. ring.
  - destruct (reb_edge g t s (k0, e)) as [s1|] eqn:H1; simpl in Hs; [|done].
    rewrite (IH _ _ Hs), reb_cost_cons.
    pose proof (reb_edge_static _ _ _ _ _ H1) as (-> & -> & _).
    assert (Hk : rebAction s' !! k0 = rebAction s1 !! k0).
    { eapply reb_edges_rebAction; [done|]. left. lia. }
    unfold edge_cost. cbn [fst snd]. rewrite Hk. clear Hk Hs IH.
    destruct e as [i j]. destruct (has_edge g (i, j)) eqn:He.
    + apply reb_edge_move in H1 as (a_i & r_k & τ & x & er & Ha & Hr & Hτ & _ & _ & ->); [|done].
      simpl. rewrite list_lookup_insert_eq by (by eapply lookup_lt_Some).
      rewrite Hτ. simpl. ring.
    + rewrite reb_edge_skip in H1 by done. simplify_eq. ring.
Qed.

(** The arrival loop only touches [acc]. *)
Lemma land_edge_acc t s e s' :
  land_edge t s e = Some s' → ∃ A, s' = set_acc A s.
Proof.
  destruct e as [i j]. unfold land_edge. intros Hs.
  assert (Hid : s = set_acc (acc s) s) by (by destruct s).
  destruct (has2 (rebFlow s) (i, j) t); simpl in Hs.
  - destruct (get2 (rebFlow s) (i, j) t) as [x|]; simpl in Hs; [|done].
    destruct (add2 (acc s) j (t + 1) x) as [A|]; simpl in Hs; [|done].
    destruct (has2 (paxFlow s) (i, j) t); simpl in Hs.
    + destruct (get2 (paxFlow s) (i, j) t) as [y|]; simpl in Hs; [|done].
      destruct (add2 A j (t + 1) y) as [A'|]; simpl in Hs; [|done].
      simplify_eq. by eexists.
    + simplify_eq. by eexists.
  - destruct (has2 (paxFlow s) (i, j) t); simpl in Hs.
    + destruct (get2 (paxFlow s) (i, j) t) as [y|]; simpl in Hs; [|done].
      destruct (add2 (acc s) j (t + 1) y) as [A'|]; simpl in Hs; [|done].
      simplify_eq. by eexists.
    + simplify_eq. by eexists.
Qed.

Lemma land_edges_acc t l s s' :
  for_each (land_edge t) l s = Some s' → ∃ A, s' = set_acc A s.
Proof.
  revert s. induction l as [|e l IH]; intros s Hs; cbn [for_each] in *.
  - simplify_eq. exists (acc s'). by destruct s'.
  - destruct (land_edge t s e) as [s1|] eqn:H1; simpl in Hs; [|done].
    apply land_edge_acc in H1 as [A ->]. apply IH in Hs as [A' ->]. by exists A'.
Qed.

(** ** The arrival loop *)

Lemma has2_true (m : gmap Edge PyDict) e t :
  has2 m e t = true → get2 m e t = Some (landing m t e).
Proof.
  unfold has2, get2, sub, landing, dict_has, dict_get.
  destruct (m !! e) as [d|]; simpl; [|done].
  intros Hd. apply bool_decide_eq_true in Hd as [v Hv]. by rewrite Hv.
Qed.

Lemma has2_false (m : gmap Edge PyDict) e t :
  has2 m e t = false → landing m t e = 0.
Proof.
  unfold has2, landing, dict_has. destruct (m !! e) as [d|]; simpl; [|done].
  intros Hd. apply bool_decide_eq_false in Hd.
  destruct (items d !! t) eqn:Hv; [|done]. exfalso. apply Hd. eauto.
Qed.

Lemma get2_add2 `{Countable K} (m m' : gmap K PyDict) j t v n k :
  add2 m j t v = Some m' →
  get2 m' n k = if decide (n = j ∧ k = t) then (λ a, a + v) <$> get2 m n k else get2 m n k.
Proof.
  intros (x & Hx & ->)%add2_Some. case_decide as Hd.
  - destruct Hd as [-> ->]. by rewrite get2_set2_eq, Hx.
  - destruct (decide (j = n)) as [->|]; [|by rewrite get2_set2_ne_key].
    rewrite get2_set2_ne_time; [done|]. intros ->. by apply Hd.
Qed.

Lemma land_edge_get t s i j s' n k :
  land_edge t s (i, j) = Some s' →
  get2 (acc s') n k =
    if decide (n = j ∧ k = t + 1)
    then (λ a, a + (landing (rebFlow s) t (i, j) + landing (paxFlow s) t (i, j)))
           <$> get2 (acc s) n k
    else get2 (acc s) n k.
Proof.
  unfold land_edge. intros Hs.
  destruct (has2 (rebFlow s) (i, j) t) eqn:Hr; simpl in Hs.
  - rewrite (has2_true _ _ _ Hr) in Hs. simpl in Hs.
    destruct (add2 (acc s) j (t + 1) _) as [A|] eqn:HA; simpl in Hs; [|done].
    destruct (has2 (paxFlow s) (i, j) t) eqn:Hp; simpl in Hs.
    + rewrite (has2_true _ _ _ Hp) in Hs. simpl in Hs.
      destruct (add2 A j (t + 1) _) as [A'|] eqn:HA'; simpl in Hs; [|done].
      injection Hs as <-. simpl. rewrite (get2_add2 _ _ _ _ _ _ _ HA'), (get2_add2 _ _ _ _ _ _ _ HA).
      case_decide; [|done]. destruct (get2 (acc s) n k); simpl; [|done]. f_equal. lia.
    + injection Hs as <-. simpl. rewrite (get2_add2 _ _ _ _ _ _ _ HA), (has2_false _ _ _ Hp).
      case_decide; [|done]. destruct (get2 (acc s) n k); simpl; [|done]. f_equal. lia.
  - rewrite (has2_false _ _ _ Hr).
    destruct (has2 (paxFlow s) (i, j) t) eqn:Hp; simpl in Hs.
    + rewrite (has2_true _ _ _ Hp) in Hs. simpl in Hs.
      destruct (add2 (acc s) j (t + 1) _) as [A'|] eqn:HA'; simpl in Hs; [|done].
      injection Hs as <-. simpl. rewrite (get2_add2 _ _ _ _ _ _ _ HA').
      case_decide; [|done]. destruct (get2 (acc s) n k); simpl; [|done]. f_equal.
    + injection Hs as <-. rewrite (has2_false _ _ _ Hp).
      case_decide; [|done]. destruct (get2 (acc s) n k); simpl; [|done]. f_equal. lia.
Qed.

Lemma land_edges_get t es s s' j :
  for_each (land_edge t) es s = Some s' →
  get2 (acc s') j (t + 1) = (λ a, a + landed s t j es) <$> get2 (acc s) j (t + 1).
Proof.
  revert s. induction es as [|[i j'] es IH]; intros s Hs; cbn [for_each] in *.
  - simplify_eq. simpl. destruct (get2 _ _ _); simpl; [|done]. f_equal. lia.
  - destruct (land_edge t s (i, j')) as [s1|] eqn:H1; simpl in Hs; [|done].
    rewrite (IH _ Hs), (land_edge_get _ _ _ _ _ j (t + 1) H1).
    apply land_edge_acc in H1 as [A ->].
    unfold landed at 2. cbn [foldr snd]. fold (landed s t j es).
    change (landed (set_acc A s) t j es) with (landed s t j es).
    case_bool_decide as Hj; case_decide as Hd.
    + destruct (get2 (acc s) j (t + 1)); simpl; [|done]. f_equal. lia.
    + exfalso. apply Hd. done.
    + exfalso. destruct Hd. done.
    + done.
Qed.

Lemma land_edges_other t es s s' n k :
  for_each (land_edge t) es s = Some s' → k ≠ t + 1 →
  get2 (acc s') n k = get2 (acc s) n k.
Proof.
  revert s. induction es as [|[i j'] es IH]; intros s Hs Hk; cbn [for_each] in *.
  - by simplify_eq.
  - destruct (land_edge t s (i, j')) as [s1|] eqn:H1; simpl in Hs; [|done].
    rewrite (IH _ Hs Hk), (land_edge_get _ _ _ _ _ n k H1).
    case_decide as Hd; [|done]. by destruct Hd.
Qed.

(** Refreshing the edge attribute ['time']. *)
Lemma refresh_edges_get tab now es g g' e :
  for_each (λ g0 e0, τ ← time_of tab e0 now; Some (set_edge_time g0 e0 τ)) es g = Some g' →
  g_nodes g' = g_nodes g ∧ g_accInit g' = g_accInit g ∧ g_adj g' = g_adj g ∧
  g_time g' !! e = if bool_decide (e ∈ es) then time_of tab e now else g_time g !! e.
Proof.
  revert g. induction es as [|e0 es IH]; intros g Hs; cbn [for_each] in *.
  - by simplify_eq.
  - destruct (time_of tab e0 now) as [τ|] eqn:Hτ; simpl in Hs; [|done].
    apply IH in Hs as (-> & -> & -> & ->). simpl. split_and!; try done.
    case_bool_decide as Hin; case_bool_decide as Hin'; try done.
    + exfalso. apply Hin'. by right.
    + apply elem_of_cons in Hin' as [->|]; [|done]. by rewrite lookup_insert_eq.
    + rewrite lookup_insert_ne; [done|]. intros ->. apply Hin'. by left.
Qed.

Lemma refresh_edge_times_get tab now g g' :
  refresh_edge_times tab now g = Some g' →
  g_nodes g' = g_nodes g ∧ g_accInit g' = g_accInit g ∧ g_adj g' = g_adj g ∧
  ∀ e, g_time g' !! e =
       if bool_decide (e ∈ g_edges g) then time_of tab e now else g_time g !! e.
Proof.
  intros Hs. split_and!; try (by eapply (refresh_edges_get _ _ _ _ _ (0, 0)) in Hs as (? & ? & ? & _)).
  intros e. by eapply refresh_edges_get in Hs as (_ & _ & _ & ?).
Qed.

(** [reb_step] taken apart. *)
Lemma reb_step_Some h s action h' s' o :
  reb_step h s action = Some (h', s', o) ↔
  ∃ g s1 s2 g',
    h !! G s = Some g ∧
    reb_loop g (time s) (reb_begin s action) = Some s1 ∧
    land_loop (time s) s1 = Some s2 ∧
    s' = set_time (time s2 + 1) s2 ∧
    refresh_edge_times (rebTime s') (time s') g = Some g' ∧
    h' = <[G s' := g']> h ∧
    o = {| out_obs := observe s'; out_reward := reward s';
           out_done := bool_decide (tf s' = time s + 1); out_info := info s';
           out_ext_reward := ext_reward s';
           out_ext_done := replicate (nregion s') (bool_decide (tf s' = time s + 1)) |}.
Proof.
  unfold reb_step. split.
  - intros Hs.
    destruct (h !! G s) as [g|]; simpl in Hs; [|done].
    destruct (reb_loop g (time s) (reb_begin s action)) as [s1|] eqn:H1; simpl in Hs; [|done].
    destruct (land_loop (time s) s1) as [s2|] eqn:H2; simpl in Hs; [|done].
    destruct (refresh_edge_times _ _ g) as [g'|] eqn:H3; simpl in Hs; [|done].
    simplify_eq. by exists g, s1, s2, g'.
  - intros (g & s1 & s2 & g' & Hg & H1 & H2 & -> & H3 & -> & ->).
    rewrite Hg. simpl. rewrite H1. simpl. rewrite H2. simpl. simpl in H3. by rewrite H3.
Qed.

(** ** Two runs of [reb_step] on actions that differ on self-loops *)

Lemma forget_rebAction_set l s : forget_rebAction (set_rebAction l s) = forget_rebAction s.
Proof. reflexivity. Qed.

Lemma reb_edge_sim g t sa sb k e sa' :
  forget_rebAction sa = forget_rebAction sb →
  (has_edge g e = true → rebAction sa !! k = rebAction sb !! k) →
  reb_edge g t sa (k, e) = Some sa' →
  ∃ sb', reb_edge g t sb (k, e) = Some sb' ∧ forget_rebAction sa' = forget_rebAction sb'.
Proof.
  intros Hf Hk Ha. destruct e as [i j]. destruct (has_edge g (i, j)) eqn:He.
  - apply reb_edge_move in Ha as (a_i & r_k & τ & x & er & Hacc & Hr & Hτ & Hx & Her & ->);
      [|done].
    rewrite (Hk eq_refl) in Hr.
    pose proof (f_equal acc Hf) as E1. pose proof (f_equal rebTime Hf) as E2.
    pose proof (f_equal rebFlow Hf) as E3. pose proof (f_equal dacc Hf) as E4.
    pose proof (f_equal beta Hf) as E5. pose proof (f_equal ext_reward Hf) as E6.
    simpl in E1, E2, E3, E4, E5, E6.
    unfold reb_edge. rewrite He. simpl. rewrite <- E1, <- E2, <- E3, <- E4, <- E5, <- E6.
    rewrite Hacc. simpl. rewrite Hr. simpl. rewrite Hτ. simpl.
    rewrite get2_set2_eq. simpl. unfold add2. rewrite Hx. simpl. rewrite Her. simpl.
    eexists; split; [done|].
    unfold forget_rebAction in *. destruct sa, sb. simpl in *. simplify_eq. reflexivity.
  - rewrite reb_edge_skip in Ha by done. injection Ha as <-.
    exists sb. split; [by apply reb_edge_skip|done].
Qed.

Lemma reb_edges_sim g t l k0 sa sb sa' :
  forget_rebAction sa = forget_rebAction sb →
  (∀ n e, l !! n = Some e → has_edge g e = true →
          rebAction sa !! (k0 + n)%nat = rebAction sb !! (k0 + n)%nat) →
  for_each (reb_edge g t) (enumerate_from k0 l) sa = Some sa' →
  ∃ sb', for_each (reb_edge g t) (enumerate_from k0 l) sb = Some sb' ∧
         forget_rebAction sa' = forget_rebAction sb'.
Proof.
  revert k0 sa sb. induction l as [|e l IH]; intros k0 sa sb Hf Hk Ha;
    cbn [for_each enumerate_from] in *.
  - injection Ha as <-. by exists sb.
  - destruct (reb_edge g t sa (k0, e)) as [sa1|] eqn:H1; simpl in Ha; [|done].
    destruct (reb_edge_sim g t sa sb k0 e sa1 Hf) as (sb1 & H1' & Hf1); [|done|].
    { intros He. specialize (Hk 0%nat e eq_refl He). by rewrite Nat.add_0_r in Hk. }
    rewrite H1'. simpl. apply (IH (S k0) sa1 sb1); [done| |done].
    intros n e' Hn He'.
    rewrite (reb_edge_rebAction _ _ _ _ _ _ (S k0 + n)%nat H1) by lia.
    rewrite (reb_edge_rebAction _ _ _ _ _ _ (S k0 + n)%nat H1') by lia.
    specialize (Hk (S n) e' Hn He'). by replace (S k0 + n)%nat with (k0 + S n)%nat by lia.
Qed.

Lemma land_edges_sim t l sa sb sa' :
  forget_rebAction sa = forget_rebAction sb →
  for_each (land_edge t) l sa = Some sa' →
  ∃ sb', for_each (land_edge t) l sb = Some sb' ∧ forget_rebAction sa' = forget_rebAction sb'.
Proof.
  intros Hf Ha.
  assert (Hsb : sb = set_rebAction (rebAction sb) sa).
  { unfold forget_rebAction in Hf. destruct sa, sb. simpl in *. simplify_eq. reflexivity. }
  rewrite Hsb. clear Hf Hsb. generalize (rebAction sb) as v. intros v.
  revert sa Ha. induction l as [|[i j] l IH]; intros sa Ha; cbn [for_each] in *.
  - simplify_eq. by eexists.
  - destruct (land_edge t sa (i, j)) as [sa1|] eqn:H1; simpl in Ha; [|done].
    assert (H1' : land_edge t (set_rebAction v sa) (i, j) = Some (set_rebAction v sa1)).
    { unfold land_edge in *. simpl.
      destruct (has2 (rebFlow sa) (i, j) t); simpl in *.
      - destruct (get2 (rebFlow sa) (i, j) t); simpl in *; [|done].
        destruct (add2 (acc sa) j (t + 1) z) as [A|]; simpl in *; [|done].
        destruct (has2 (paxFlow sa) (i, j) t); simpl in *.
        + destruct (get2 (paxFlow sa) (i, j) t); simpl in *; [|done].
          destruct (add2 A j (t + 1) z0) as [A'|]; simpl in *; [|done]. by simplify_eq.
        + by simplify_eq.
      - destruct (has2 (paxFlow sa) (i, j) t); simpl in *.
        + destruct (get2 (paxFlow sa) (i, j) t); simpl in *; [|done].
          destruct (add2 (acc sa) j (t + 1) z) as [A'|]; simpl in *; [|done]. by simplify_eq.
        + by simplify_eq. }
    rewrite H1'. simpl. by apply IH.
Qed.

(** ** The set of the edges *)

Section SetOfEdges.
Import PySet.

Lemma stored_insert (tbl : list entry) i hk x :
  tbl !! i = Some None →
  (x = hk ∨ Some x ∈ tbl) → Some x ∈ <[i := Some hk]> tbl.
Proof.
  intros Hi [->|Hx].
  - apply list_elem_of_lookup. exists i. apply list_lookup_insert_eq.
    by eapply lookup_lt_Some.
  - apply list_elem_of_lookup in Hx as [j Hj]. apply list_elem_of_lookup. exists j.
    rewrite list_lookup_insert_ne; [done|]. intros Heq. subst j.
    assert (Hc : @Some entry None = Some (Some x)) by (etrans; [symmetry; exact Hi|exact Hj]).
    discriminate Hc.
Qed.

Lemma stored_app (tbl : list entry) hk x :
  (x = hk ∨ Some x ∈ tbl) → Some x ∈ tbl ++ [Some hk].
Proof.
  intros [->|Hx]; apply elem_of_app; [right; apply list_elem_of_here|by left].
Qed.

Lemma find_null_Some (tbl : list entry) l i :
  find_null tbl l = Some i → tbl !! Z.to_nat i = Some None.
Proof.
  induction l as [|j l IH]; simpl; [done|].
  destruct (tbl !! Z.to_nat j) as [[e|]|] eqn:Hj; try done. by intros [= <-].
Qed.

Lemma find_slot_Some (tbl : list entry) hk l i b :
  find_slot tbl hk l = Some (i, b) →
  tbl !! Z.to_nat i = Some (if b then Some hk else None).
Proof.
  induction l as [|j l IH]; simpl; [done|].
  destruct (tbl !! Z.to_nat j) as [[e|]|] eqn:Hj; try done.
  - case_bool_decide as He; [|done]. intros [= <- <-]. by rewrite Hj, He.
  - by intros [= <- <-].
Qed.

Lemma insert_clean_stored (tbl : list entry) hk x :
  (x = hk ∨ Some x ∈ tbl) → Some x ∈ insert_clean tbl hk.
Proof.
  unfold insert_clean. destruct (find_null _ _) as [i|] eqn:Hf.
  - apply stored_insert. by eapply find_null_Some.
  - apply stored_app.
Qed.

Lemma insert_all_stored l (tbl : list entry) x :
  (x ∈ l ∨ Some x ∈ tbl) → Some x ∈ foldl insert_clean tbl l.
Proof.
  revert tbl. induction l as [|hk l IH]; intros tbl Hx; simpl.
  - destruct Hx as [Hx|Hx]; [by apply elem_of_nil in Hx|done].
  - apply IH. destruct Hx as [Hx|Hx].
    + apply elem_of_cons in Hx as [->|Hx]; [right|by left].
      apply insert_clean_stored. by left.
    + right. apply insert_clean_stored. by right.
Qed.

Lemma table_resize_stored (tbl : list entry) minused x :
  Some x ∈ tbl → Some x ∈ table_resize tbl minused.
Proof.
  intros Hx. unfold table_resize. apply insert_all_stored. left.
  unfold active. apply list_elem_of_omap. by exists (Some x).
Qed.

Lemma add_stored (tbl : list entry) key x :
  (x = (tuplehash key, key) ∨ Some x ∈ tbl) → Some x ∈ add tbl key.
Proof.
  intros Hx. unfold add.
  destruct (find_slot _ _ _) as [[i [|]]|] eqn:Hf.
  - apply find_slot_Some in Hf. destruct Hx as [->|Hx]; [|done].
    apply list_elem_of_lookup. by exists (Z.to_nat i).
  - apply find_slot_Some in Hf. simpl.
    case_bool_decide; [|apply table_resize_stored]; by apply stored_insert.
  - by apply stored_app.
Qed.

(** Every element of a list is in the list of its set. *)
Lemma list_of_set_of l x : x ∈ l → x ∈ list_of (set_of l).
Proof.
  intros Hx. unfold list_of, active.
  assert (Hs : Some (tuplehash x, x) ∈ set_of l).
  { unfold set_of. revert Hx. generalize (replicate 8 (@None (Z * Edge))).
    induction l as [|k l IH]; intros tbl Hx; [by apply elem_of_nil in Hx|]. simpl.
    apply elem_of_cons in Hx as [->|Hx]; [|by apply IH].
    assert (Hk : Some (tuplehash k, k) ∈ add tbl k) by (apply add_stored; by left).
    revert Hk. generalize (add tbl k). clear. induction l as [|k' l IH]; intros tbl Hk; [done|].
    simpl. apply IH. apply add_stored. by right. }
  apply list_elem_of_fmap. exists (tuplehash x, x). split; [done|].
  apply list_elem_of_omap. by exists (Some (tuplehash x, x)).
Qed.

End SetOfEdges.

Lemma build_edges_self g es i :
  build_edges g = Some es → i ∈ g_nodes g → (i, i) ∈ es.
Proof.
  unfold build_edges. intros Hb Hi.
  destruct (for_each _ (g_nodes g) []) as [l|] eqn:Hl; simpl in Hb; [|done].
  simplify_eq. apply list_of_set_of.
  revert Hl. generalize (@nil Edge) as l0. revert Hi.
  induction (g_nodes g) as [|n ns IH]; intros Hi l0 Hl; [by apply elem_of_nil in Hi|].
  cbn [for_each] in Hl.
  destruct (out_edges g n) as [oe|]; simpl in Hl; [|done].
  assert (Hkeep : ∀ ns' l1 l2 x, for_each (λ es i0, oe0 ← out_edges g i0; Some (es ++ (i0, i0) :: oe0)) ns' l1 = Some l2 → x ∈ l1 → x ∈ l2).
  { clear. induction ns' as [|m ns' IH']; intros l1 l2 x Hf Hx; cbn [for_each] in Hf.
    - by simplify_eq.
    - destruct (out_edges g m); simpl in Hf; [|done].
      eapply IH'; [done|]. apply elem_of_app. by left. }
  apply elem_of_cons in Hi as [->|Hi].
  - eapply Hkeep; [done|]. apply elem_of_app. right. by left.
  - by eapply IH.
Qed.

Lemma max0_nonneg x : (0 ≤ max0 x)%Qc.
Proof. unfold max0. case_decide; [by apply Qclt_le_weak|apply Qcle_refl]. Qed.

Lemma refresh_edges_defined tab now es g g' e :
  for_each (λ g0 e0, τ ← time_of tab e0 now; Some (set_edge_time g0 e0 τ)) es g = Some g' →
  e ∈ es → is_Some (time_of tab e now).
Proof.
  revert g. induction es as [|e0 es IH]; intros g Hs He; cbn [for_each] in *.
  - by apply elem_of_nil in He.
  - destruct (time_of tab e0 now) as [τ|] eqn:Hτ; simpl in Hs; [|done].
    apply elem_of_cons in He as [->|He]; [by rewrite Hτ|]. by eapply IH.
Qed.

Lemma match_step_simple_reward shuffle du h s pr coin s' o :
  match_step_simple shuffle du h s pr coin = Some (s', o) →
  out_reward o = max0 (reward s').
Proof.
  unfold match_step_simple. intros Hs.
  destruct (h !! G s) as [g|]; simpl in Hs; [|done].
  destruct (for_each _ (region s) _) as [[s1 d]|]; simpl in Hs; [|done].
  destruct (match_done s1 (time s)) as [dn|]; simpl in Hs; [|done].
  by simplify_eq.
Qed.

Lemma pax_step_reward s action s' o :
  pax_step s action = Some (s', o) → out_reward o = max0 (reward s').
Proof.
  unfold pax_step. intros Hs.
  destruct (for_each (carry_over _) _ _) as [s1|]; simpl in Hs; [|done].
  destruct (for_each (pax_edge _) _ _) as [s2|]; simpl in Hs; [|done].
  by simplify_eq.
Qed.

Lemma reb_step_reward h s action h' s' o g :
  reb_step h s action = Some (h', s', o) → h !! G s = Some g →
  out_reward o = reward s' ∧
  reward s' =
    (- reb_cost g (rebTime s) (time s) (beta s) (rebAction s') (enumerate (edges s)))%Qc.
Proof.
  intros (g0 & sm & sl & g' & Hg0 & Hreb & Hland & -> & Href & -> & ->)%reb_step_Some Hg.
  assert (g0 = g) as -> by congruence. split; [done|].
  apply land_edges_acc in Hland as [A ->]. simpl.
  apply reb_edges_reward in Hreb. rewrite Hreb. unfold reb_begin. simpl. unfold enumerate. ring.
Qed.

(** C4 (amended). In a [reb_step] call at time t, after the edge loop, what
    the rebFlow and paxFlow ledgers of every edge (i,j) of the edge list hold
    under the key t (the current time, not t+1) is added to acc[j][t+1], and
    nothing else changes in acc; the ledgers are left as they are; then time
    is t+1 and the attribute 'time' of every edge of the graph is
    rebTime[i,j][t+1]. *)
Theorem reb_step_lands_current_key h s action h' s' o :
  reb_step h s action = Some (h', s', o) →
  ∃ g s_mid g',
    h !! G s = Some g ∧
    reb_loop g (time s) (reb_begin s action) = Some s_mid ∧
    (∀ j, get2 (acc s') j (time s + 1) =
          (λ a, a + landed s_mid (time s) j (edges s)) <$> get2 (acc s_mid) j (time s + 1)) ∧
    (∀ n k, k ≠ time s + 1 → get2 (acc s') n k = get2 (acc s_mid) n k) ∧
    rebFlow s' = rebFlow s_mid ∧ paxFlow s' = paxFlow s_mid ∧
    time s' = time s + 1 ∧
    h' = <[G s := g']> h ∧
    g_nodes g' = g_nodes g ∧ g_adj g' = g_adj g ∧
    (∀ e, e ∈ g_edges g →
          is_Some (g_time g' !! e) ∧ g_time g' !! e = time_of (rebTime s) e (time s + 1)).
Proof.
  intros (g & sm & sl & g' & Hg & Hreb & Hland & -> & Href & -> & ->)%reb_step_Some.
  exists g, sm, g'.
  pose proof (reb_edges_static _ _ _ _ _ Hreb) as (Hrt & _ & Hed & Htm & _ & HG & _).
  unfold reb_begin in Hrt, Hed, Htm, HG. simpl in Hrt, Hed, Htm, HG.
  unfold land_loop in Hland. rewrite Hed in Hland.
  pose proof (λ j, land_edges_get _ _ _ _ j Hland) as Hget.
  pose proof (λ n k, land_edges_other _ _ _ _ n k Hland) as Hoth.
  pose proof Hland as [A HA]%land_edges_acc. 
  simpl in Href. rewrite HA in Href. simpl in Href. rewrite Hrt, Htm in Href.
  pose proof (refresh_edge_times_get _ _ _ _ Href) as (Hn & _ & Hadj & Ht).
  split_and!; try done.
  - by rewrite HA.
  - by rewrite HA.
  - simpl. rewrite HA. simpl. by rewrite Htm.
  - simpl. rewrite HA. simpl. by rewrite HG.
  - intros e He. specialize (Ht e). rewrite bool_decide_eq_true_2 in Ht by done.
    split; [|done]. rewrite Ht. by eapply refresh_edges_defined.
Qed.

(** ** The walk over a queue *)

Lemma unmatched_update_spec p :
  let p' := (Passenger.unmatched_update p).1 in
  trip p' = trip p ∧ Passenger.request_time p' = Passenger.request_time p ∧
  Passenger.wait_time p' = Passenger.wait_time p + 1 ∧
  (Passenger.unmatched_update p).2 = abandons p p'.
Proof.
  unfold Passenger.unmatched_update, abandons, trip. simpl. split_and!; try done.
  rewrite (bool_decide_eq_true_2 (_ = _)) by done. done.
Qed.

Lemma wait_or_leave_spec t i p d sv sv1 :
  wait_or_leave t i p d sv = Some sv1 →
  ∃ p', sv_seen sv1 = sv_seen sv ++ [p'] ∧ sv_acc sv1 = sv_acc sv ∧ sv_draws sv1 = d ∧
        trip p' = trip p ∧ Passenger.request_time p' = Passenger.request_time p ∧
        Passenger.wait_time p' = Passenger.wait_time p + 1 ∧
        if abandons p p' then
          sv_index sv1 = sv_index sv ++ [i] ∧
          add2 (unservedDemand (sv_env sv)) (trip p') t 1 = Some (unservedDemand (sv_env sv1)) ∧
          unserved_demand (info (sv_env sv1)) = unserved_demand (info (sv_env sv)) + 1
        else
          sv_index sv1 = sv_index sv ∧ sv_env sv1 = sv_env sv.
Proof.
  unfold wait_or_leave. intros Hs.
  pose proof (unmatched_update_spec p) as (Ht & Hr & Hw & Hl). cbv zeta in *.
  destruct (Passenger.unmatched_update p) as [p' leave]. cbn [fst snd] in *. subst leave.
  exists p'. destruct (abandons p p').
  - destruct (add2 _ _ t 1) as [ud|] eqn:Hud; simpl in Hs; [|done].
    injection Hs as <-. simpl. by split_and!.
  - injection Hs as <-. simpl. by split_and!.
Qed.

Lemma serve_pax_spec coin t n sv i p sv1 :
  serve_pax coin t n sv (i, p) = Some sv1 →
  ∃ p', sv_seen sv1 = sv_seen sv ++ [p'] ∧
        trip p' = trip p ∧ Passenger.request_time p' = Passenger.request_time p ∧
        (sv_index sv1 = sv_index sv ∨ sv_index sv1 = sv_index sv ++ [i]) ∧
        if abandons p p' then
          sv_index sv1 = sv_index sv ++ [i] ∧ sv_acc sv1 = sv_acc sv ∧
          add2 (unservedDemand (sv_env sv)) (trip p') t 1 = Some (unservedDemand (sv_env sv1)) ∧
          unserved_demand (info (sv_env sv1)) = unserved_demand (info (sv_env sv)) + 1
        else
          unservedDemand (sv_env sv1) = unservedDemand (sv_env sv) ∧
          unserved_demand (info (sv_env sv1)) = unserved_demand (info (sv_env sv)).
Proof.
  unfold serve_pax. intros Hs. case_bool_decide as Hacc.
  - destruct (Passenger.match_ p t _) as [[pm accept]|] eqn:Hm; simpl in Hs; [|done].
    unfold Passenger.match_ in Hm. destruct (Passenger.matched_flag p) eqn:Hmf; [done|].
    destruct (coin (sv_draws sv)); simplify_eq.
    + simpl in Hs.
      repeat match type of Hs with
             | (?x ≫= _) = Some _ => destruct x eqn:?; simpl in Hs; [|done]
             end.
      injection Hs as <-. eexists. simpl. split; [reflexivity|]. split; [done|]. split; [done|].
      split; [by right|]. unfold abandons. simpl. rewrite bool_decide_eq_false_2 by lia. simpl. done.
    + apply wait_or_leave_spec in Hs as (p' & Hseen & Ha & _ & Ht & Hr & Hw & Hif).
      exists p'. split_and!; try done.
      * destruct (abandons pm p'); [right|left]; by destruct Hif.
      * destruct (abandons pm p').
        -- by destruct Hif as (? & ? & ?).
        -- by destruct Hif as (_ & ->).
  - apply wait_or_leave_spec in Hs as (p' & Hseen & Ha & _ & Ht & Hr & Hw & Hif).
    exists p'. split_and!; try done.
    + destruct (abandons p p'); [right|left]; by destruct Hif.
    + destruct (abandons p p').
      * by destruct Hif as (? & ? & ?).
      * by destruct Hif as (_ & ->).
Qed.

Lemma serve_queue_spec coin t n l k0 sv sv' :
  for_each (serve_pax coin t n) (enumerate_from k0 l) sv = Some sv' →
  ∃ l', sv_seen sv' = sv_seen sv ++ l' ∧ length l' = length l ∧
    (∀ i p p', l !! i = Some p → l' !! i = Some p' →
       trip p' = trip p ∧ Passenger.request_time p' = Passenger.request_time p ∧
       (abandons p p' = true → (k0 + i)%nat ∈ sv_index sv')) ∧
    (∀ j, j ∈ sv_index sv → j ∈ sv_index sv') ∧
    (∀ e k, get2 (unservedDemand (sv_env sv')) e k =
            (λ x, x + (if bool_decide (k = t) then abandoned e l l' else 0))
              <$> get2 (unservedDemand (sv_env sv)) e k) ∧
    unserved_demand (info (sv_env sv')) =
      unserved_demand (info (sv_env sv)) + abandoned_all l l'.
Proof.
  revert k0 sv. induction l as [|p l IH]; intros k0 sv Hs; cbn [for_each enumerate_from] in *.
  - injection Hs as <-. exists []. rewrite app_nil_r. split_and!; try done.
    + intros e k. simpl. destruct (get2 _ e k); simpl; [|done]. f_equal. case_bool_decide; lia.
    + simpl. lia.
  - destruct (serve_pax coin t n sv (k0, p)) as [sv1|] eqn:H1; simpl in Hs; [|done].
    apply serve_pax_spec in H1 as (p' & Hseen & Htrip & Hreq & Hidx & Hif).
    apply IH in Hs as (l' & Hseen' & Hlen & Hall & Hmono & Hud & Hinfo). clear IH.
    assert (Hmono1 : ∀ j, j ∈ sv_index sv → j ∈ sv_index sv1).
    { intros j Hj. destruct Hidx as [->| ->]; [done|]. apply elem_of_app. by left. }
    exists (p' :: l'). split_and!.
    + by rewrite Hseen', Hseen, <- app_assoc.
    + simpl. by rewrite Hlen.
    + intros [|i] q q' Hq Hq'; simpl in Hq, Hq'.
      * injection Hq as <-. injection Hq' as <-. split_and!; try done.
        intros Hab. rewrite Hab in Hif.
        destruct Hif as (Hi & _). apply Hmono. rewrite Hi, Nat.add_0_r.
        apply elem_of_app. right. by left.
      * destruct (Hall i q q' Hq Hq') as (? & ? & Hin). split_and!; try done.
        intros Hab. replace (k0 + S i)%nat with (S k0 + i)%nat by lia. by apply Hin.
    + intros j Hj. by apply Hmono, Hmono1.
    + intros e k. rewrite Hud. cbn [abandoned]. destruct (abandons p p').
      * destruct Hif as (_ & _ & Hadd & _).
        rewrite (get2_add2 _ _ _ _ _ e k Hadd). simpl.
        destruct (decide (k = t)) as [->|Hk].
        -- rewrite (bool_decide_eq_true_2 (t = t)) by done.
           destruct (decide (trip p' = e)) as [<-|He].
           ++ rewrite bool_decide_eq_true_2 by done. rewrite decide_True by done.
              destruct (get2 _ (trip p') t); simpl; [|done]. f_equal. lia.
           ++ rewrite bool_decide_eq_false_2 by done.
              rewrite decide_False by (intros [? _]; by apply He).
              destruct (get2 _ e t); simpl; [|done]. f_equal.
        -- rewrite (bool_decide_eq_false_2 (k = t)) by done.
           rewrite decide_False by (intros [_ ?]; by apply Hk). done.
      * destruct Hif as (-> & _). simpl. done.
    + rewrite Hinfo. cbn [abandoned_all]. destruct (abandons p p').
      * destruct Hif as (_ & _ & _ & ->). lia.
      * destruct Hif as (_ & ->). lia.
Qed.

Lemma keep_unless_lookup {A} (index : list nat) (q : list A) j x :
  keep_unless index q !! j = Some x → ∃ i, q !! i = Some x ∧ i ∉ index.
Proof.
  unfold keep_unless. rewrite list_lookup_fmap. intros Hj.
  destruct (filter _ _ !! j) as [[i y]|] eqn:Hf; simpl in Hj; [|done]. injection Hj as ->.
  assert (Hin : (i, x) ∈ filter (λ ix : nat * A, ix.1 ∉ index) (enumerate q)).
  { apply list_elem_of_lookup. eauto. }
  apply list_elem_of_filter in Hin as [Hni Hin]. simpl in Hni.
  apply list_elem_of_lookup in Hin as [k Hk]. unfold enumerate in Hk.
  rewrite enumerate_from_lookup in Hk.
  destruct (q !! k) eqn:Hq; simpl in Hk; [|done]. injection Hk as <- <-. eauto.
Qed.

(** C5 (amended). In the walk over the queue of a region at step time t,
    every passenger whose wait counter reaches the abandonment threshold is
    dropped from the queue in that call (its position is listed in
    matched_leave_index, and nobody left in the queue has abandoned), and it
    adds exactly one unit to unservedDemand[origin,destination] under the
    key t, the time of the current step; no other key is touched. The
    counter info['unserved_demand'] grows by the same number. *)
Theorem abandonment_recorded coin t a0 s draws n s' draws' :
  serve_region coin t a0 s draws n = Some (s', draws') →
  ∃ seen index,
    length seen = length (default [] (queue s !! n)) ∧
    queue s' !! n = Some (keep_unless index seen) ∧
    (∀ i p p', default [] (queue s !! n) !! i = Some p → seen !! i = Some p' →
       trip p' = trip p ∧ Passenger.request_time p' = Passenger.request_time p ∧
       (abandons p p' = true → i ∈ index)) ∧
    (∀ j x, keep_unless index seen !! j = Some x →
       ∃ i p, default [] (queue s !! n) !! i = Some p ∧ seen !! i = Some x ∧
              abandons p x = false) ∧
    (∀ e k, get2 (unservedDemand s') e k =
            (λ x, x + (if bool_decide (k = t)
                       then abandoned e (default [] (queue s !! n)) seen else 0))
              <$> get2 (unservedDemand s) e k) ∧
    unserved_demand (info s') =
      unserved_demand (info s) + abandoned_all (default [] (queue s !! n)) seen.
Proof.
  unfold serve_region. intros Hs.
  destruct (for_each _ _ _) as [sv|] eqn:Hloop; simpl in Hs; [|done].
  injection Hs as <- <-.
  apply serve_queue_spec in Hloop as (l' & Hseen & Hlen & Hall & _ & Hud & Hinfo).
  simpl in Hseen, Hud, Hinfo. exists (sv_seen sv), (sv_index sv). rewrite Hseen.
  split_and!; try done.
  - simpl. by rewrite lookup_insert_eq.
  - intros j x Hj. apply keep_unless_lookup in Hj as (i & Hi & Hni).
    destruct (default [] (queue s !! n) !! i) as [p|] eqn:Hp.
    + exists i, p. split_and!; try done.
      destruct (Hall i p x Hp Hi) as (_ & _ & Hab).
      destruct (abandons p x); [|done]. exfalso. apply Hni. by apply Hab.
    + apply lookup_ge_None in Hp. apply lookup_lt_Some in Hi. lia.
Qed.

Section Enqueue.
Context (shuffle : list Passenger.t → list Passenger.t).
Context (demand_update : Z → Qc → Qc → Qc → Z).

Lemma arrive_dest_spec pr t n s j s1 :
  arrive_dest shuffle demand_update pr t n s j = Some s1 →
  ∃ byTime d p,
    passenger s !! n = Some byTime ∧
    passenger s1 !! n =
      Some (<[t := shuffle (default [] (byTime !! t)
                            ++ replicate (Z.to_nat d) (Passenger.create n j t p))]> byTime) ∧
    queue s1 = queue s.
Proof.
  unfold arrive_dest. intros Hs.
  destruct (get2 (demand s) (n, j) t) as [d0|]; simpl in Hs; [|done].
  destruct (price s !! (n, j) ≫= _) as [p0|]; simpl in Hs; [|done].
  destruct (match pr with Some _ => _ | None => _ end) as [[d p]|]; simpl in Hs; [|done].
  destruct (passenger s !! n) as [byTime|] eqn:Hb; simpl in Hs; [|done].
  injection Hs as <-. exists byTime, d, p. simpl. by rewrite lookup_insert_eq.
Qed.

Lemma arrive_dests_spec pr t n js s s' byTime :
  for_each (arrive_dest shuffle demand_update pr t n) js s = Some s' →
  passenger s !! n = Some byTime →
  ∃ news byTime',
    Forall2 (λ j np, ∃ d p, np = replicate (Z.to_nat d) (Passenger.create n j t p)) js news ∧
    passenger s' !! n = Some byTime' ∧
    default [] (byTime' !! t) =
      foldl (λ b np, shuffle (b ++ np)) (default [] (byTime !! t)) news ∧
    queue s' = queue s.
Proof.
  revert s byTime. induction js as [|j js IH]; intros s byTime Hs Hb; cbn [for_each] in *.
  - injection Hs as <-. exists [], byTime. by split_and!.
  - destruct (arrive_dest _ _ pr t n s j) as [s1|] eqn:H1; simpl in Hs; [|done].
    apply arrive_dest_spec in H1 as (byTime0 & d & p & Hb0 & Hb1 & Hq1).
    assert (byTime0 = byTime) as -> by congruence.
    destruct (IH _ _ Hs Hb1) as (news & byTime' & Hnews & Hb' & Hfold & Hq').
    exists (replicate (Z.to_nat d) (Passenger.create n j t p) :: news), byTime'.
    split_and!; try done.
    + constructor; [by eauto|done].
    + rewrite Hfold. simpl. by rewrite lookup_insert_eq.
    + congruence.
Qed.

Lemma enter_all_spec batch batch' entered :
  enter_all batch = Some (batch', entered) →
  entered = batch' ∧ Forall2 (λ p p', Passenger.enter p = Some (p', true)) batch batch'.
Proof.
  revert batch' entered. induction batch as [|p batch IH]; intros batch' entered Hs;
    cbn [enter_all] in Hs.
  - injection Hs as <- <-. by split.
  - destruct (Passenger.enter p) as [[p' ok]|] eqn:Hp; simpl in Hs; [|done].
    destruct (enter_all batch) as [[rest ent]|]; simpl in Hs; [|done].
    destruct (IH rest ent eq_refl) as [-> Hall].
    assert (ok = true) as ->.
    { unfold Passenger.enter in Hp. destruct (Passenger.enter_flag p); by simplify_eq. }
    injection Hs as <- <-. split; [done|]. by constructor.
Qed.

(** What the code does: in the matching step of a region, the fixed-seed
    shuffle runs once for every outgoing neighbour of the region, each time on the
    whole batch gathered so far (the batch already there, the requests of
    the neighbours walked before, and the new requests of this neighbour);
    only that batch is shuffled, and the passengers that enter are appended
    after the queue the region had, whose order is kept. *)
Lemma batch_shuffled_per_destination g pr t s n s' :
  enqueue_region shuffle demand_update g pr t s n = Some s' →
  ∃ js byTime news batch entered,
    neighbors g n = Some js ∧
    passenger s !! n = Some byTime ∧
    Forall2 (λ j np, ∃ d p, np = replicate (Z.to_nat d) (Passenger.create n j t p)) js news ∧
    enter_all (foldl (λ b np, shuffle (b ++ np)) (default [] (byTime !! t)) news)
      = Some (batch, entered) ∧
    entered = batch ∧
    queue s' !! n = Some (default [] (queue s !! n) ++ entered).
Proof.
  unfold enqueue_region. intros Hs.
  destruct (neighbors g n) as [js|] eqn:Hjs; simpl in Hs; [|done].
  destruct (for_each _ js s) as [s1|] eqn:Hloop; simpl in Hs; [|done].
  destruct (passenger s1 !! n) as [byTime1|] eqn:Hb1; simpl in Hs; [|done].
  destruct (enter_all _) as [[batch entered]|] eqn:Hent; simpl in Hs; [|done].
  injection Hs as <-.
  assert (∃ byTime, passenger s !! n = Some byTime) as [byTime Hb].
  { destruct js as [|j js]; cbn [for_each] in Hloop.
    - injection Hloop as <-. eauto.
    - destruct (arrive_dest _ _ pr t n s j) as [s2|] eqn:H2; simpl in Hloop; [|done].
      apply arrive_dest_spec in H2 as (b & _ & _ & ? & _). eauto. }
  destruct (arrive_dests_spec _ _ _ _ _ _ _ Hloop Hb) as (news & byTime' & Hnews & Hb' & Hfold & Hq).
  assert (byTime' = byTime1) as -> by congruence.
  exists js, byTime, news, batch, entered. split_and!; try done.
  - by rewrite <- Hfold.
  - by apply enter_all_spec in Hent as [-> _].
  - simpl. by rewrite lookup_insert_eq, Hq.
Qed.

End Enqueue.

(** ** [reset] *)

Lemma fill_zeros_lookup `{Countable K} {V} (keys : gmap K V) (m : gmap K PyDict) k :
  fill_zeros keys m !! k = match keys !! k with Some _ => Some zeros | None => m !! k end.
Proof.
  unfold fill_zeros. revert k.
  apply (map_fold_weak_ind (λ r (ks : gmap K V), ∀ k,
           r !! k = match ks !! k with Some _ => Some zeros | None => m !! k end)).
  - intros k. by rewrite lookup_empty.
  - intros i x ks r Hi IH k. destruct (decide (i = k)) as [->|Hne].
    + by rewrite !lookup_insert_eq.
    + rewrite !lookup_insert_ne by done. apply IH.
Qed.

Lemma foldl_zeros_lookup `{Countable K} (es : list K) (m : gmap K PyDict) k :
  foldl (λ m' e, <[e := zeros]> m') m es !! k =
    if bool_decide (k ∈ es) then Some zeros else m !! k.
Proof.
  revert m. induction es as [|e es IH]; intros m; cbn [foldl].
  - rewrite bool_decide_eq_false_2; [done|]. apply not_elem_of_nil.
  - rewrite IH. case_bool_decide as H1; case_bool_decide as H2; try done.
    + exfalso. apply H2. by right.
    + apply elem_of_cons in H2 as [->|]; [|done]. by rewrite lookup_insert_eq.
    + rewrite lookup_insert_ne; [done|]. intros ->. apply H2. by left.
Qed.

(** The trips loop of [reset] only writes [demand], [price] and
    [regionDemand]. *)
Lemma load_demands_spec trips s :
  ∃ R, foldl load_demand s trips =
       set_regionDemand R
         (set_price (foldl (λ m tr, let '(i, j, t, _, p) := tr in
                                    <[(i, j) := <[t := p]> (default ∅ (m !! (i, j)))]> m)
                       (price s) trips)
            (set_demand (foldl (λ m tr, let '(i, j, t, d, _) := tr in set2 m (i, j) t d)
                           (demand s) trips) s)).
Proof.
  revert s. induction trips as [|[[[[i j] t] d] p] trips IH]; intros s; simpl.
  - exists (regionDemand s). by destruct s.
  - destruct (IH (load_demand s (i, j, t, d, p))) as [R ->].
    unfold load_demand. destruct (items _ !! t); eexists; simpl; reflexivity.
Qed.

(** The seeding loop of [__init__] and [reset]. *)
Lemma seed_regions_spec g ns s s' seen :
  for_each (seed_region g) ns s = Some s' →
  (∀ n, acc s !! n = if bool_decide (n ∈ seen) then seeded <$> g_accInit g !! n else None) →
  (∀ n, n ∈ seen → is_Some (g_accInit g !! n)) →
  (∀ n, dacc s !! n = if bool_decide (n ∈ seen) then Some zeros else None) →
  ∃ A D, s' = set_dacc D (set_acc A s) ∧
    (∀ n, A !! n = if bool_decide (n ∈ seen ++ ns) then seeded <$> g_accInit g !! n else None) ∧
    (∀ n, n ∈ seen ++ ns → is_Some (g_accInit g !! n)) ∧
    (∀ n, D !! n = if bool_decide (n ∈ seen ++ ns) then Some zeros else None).
Proof.
  revert s seen. induction ns as [|m ns IH]; intros s seen Hs HA Hdef HD; cbn [for_each] in *.
  - injection Hs as <-. exists (acc s), (dacc s). rewrite app_nil_r.
    split_and!; try done. destruct s; reflexivity.
  - destruct (seed_region g s m) as [s1|] eqn:H1; simpl in Hs; [|done].
    unfold seed_region in H1.
    destruct (g_accInit g !! m) as [a|] eqn:Ha; simpl in H1; [|done].
    injection H1 as <-.
    destruct (IH _ (seen ++ [m]) Hs) as (A & D & -> & HA' & Hdef' & HD').
    + intros n. simpl. unfold set2. destruct (decide (m = n)) as [->|Hne].
      * rewrite lookup_insert_eq, bool_decide_eq_true_2 by (apply elem_of_app; right; by left).
        rewrite Ha. simpl. f_equal. unfold sub. rewrite HA, Ha.
        case_bool_decide; simpl; unfold seeded, dict_set, plain; simpl; f_equal.
      * rewrite lookup_insert_ne by done. rewrite HA.
        case_bool_decide as H1; case_bool_decide as H2; try done.
        -- exfalso. apply H2, elem_of_app. by left.
        -- exfalso. apply elem_of_app in H2 as [?|H2]; [done|].
           apply list_elem_of_singleton in H2. by subst.
    + intros n [Hn|Hn]%elem_of_app; [by apply Hdef|].
      apply list_elem_of_singleton in Hn as ->. by rewrite Ha.
    + intros n. simpl. destruct (decide (m = n)) as [->|Hne].
      * rewrite lookup_insert_eq, bool_decide_eq_true_2; [done|]. apply elem_of_app; right; by left.
      * rewrite lookup_insert_ne by done. rewrite HD.
        case_bool_decide as H1; case_bool_decide as H2; try done.
        -- exfalso. apply H2, elem_of_app. by left.
        -- exfalso. apply elem_of_app in H2 as [?|H2]; [done|].
           apply list_elem_of_singleton in H2. by subst.
    + exists A, D. rewrite <- app_assoc in HA', Hdef', HD'. simpl in HA', Hdef', HD'.
      split_and!; try done.
Qed.

(** What [reset()] does reinitialise: the edge list is rebuilt, time and
    arrivals are 0, the reward is 0, the queues are empty, every region has
    an empty passenger buffer, demand and price hold exactly the regenerated
    trips, acc holds accInit at time 0 for every region and nothing else,
    dacc, rebFlow and paxFlow are empty ledgers for the regions and edges of
    the graph, servedDemand and unservedDemand are empty for every pair of
    the new demand, and the observation of that state is returned. *)
Lemma reset_reinitialises h s trips s' obs :
  reset h s trips = Some (s', obs) →
  ∃ g,
    h !! G s = Some g ∧
    build_edges g = Some (edges s') ∧
    time s' = 0 ∧ arrivals s' = 0 ∧ reward s' = 0%Qc ∧
    queue s' = ∅ ∧
    passenger s' = list_to_map ((λ i, (i, ∅)) <$> region s) ∧
    demand s' = demand_of_trips trips ∧
    price s' = price_of_trips trips ∧
    (∀ n, acc s' !! n =
          if bool_decide (n ∈ g_nodes g) then seeded <$> g_accInit g !! n else None) ∧
    (∀ n a, n ∈ g_nodes g → g_accInit g !! n = Some a → get2 (acc s') n 0 = Some a) ∧
    (∀ n, n ∈ g_nodes g → is_Some (g_accInit g !! n)) ∧
    (∀ n, dacc s' !! n = if bool_decide (n ∈ g_nodes g) then Some zeros else None) ∧
    (∀ e, rebFlow s' !! e = if bool_decide (e ∈ g_edges g) then Some zeros else None) ∧
    (∀ e, paxFlow s' !! e = if bool_decide (e ∈ g_edges g) then Some zeros else None) ∧
    (∀ e, is_Some (demand s' !! e) →
          servedDemand s' !! e = Some zeros ∧ unservedDemand s' !! e = Some zeros) ∧
    obs = observe s'.
Proof.
  unfold reset. intros Hs.
  destruct (h !! G s) as [g|] eqn:Hg; simpl in Hs; [|done].
  destruct (build_edges g) as [es|] eqn:Hes; simpl in Hs; [|done].
  match type of Hs with
  | context [foldl load_demand ?s0 trips] =>
      destruct (load_demands_spec trips s0) as [R HR]; rewrite HR in Hs; clear HR
  end.
  simpl in Hs.
  match type of Hs with
  | (for_each _ _ ?s1 ≫= _) = _ =>
      destruct (for_each (seed_region g) (g_nodes g) s1) as [s2|] eqn:Hseed; simpl in Hs; [|done];
      apply (seed_regions_spec g (g_nodes g) s1 s2 []) in Hseed
        as (A & D & -> & HA & Hdef & HD)
  end.
  - injection Hs as <- <-. simpl in HA, Hdef, HD. exists g. simpl.
    split_and!; try done.
    + intros n a Hn Ha. unfold get2, sub. rewrite HA, bool_decide_eq_true_2, Ha by done.
      done.
    + intros e. by rewrite foldl_zeros_lookup, lookup_empty.
    + intros e. by rewrite foldl_zeros_lookup, lookup_empty.
    + intros e [d Hd]. rewrite !fill_zeros_lookup.
      unfold demand_of_trips in Hd. by rewrite Hd.
  - intros n. simpl. by rewrite lookup_empty.
  - intros n Hn. by apply elem_of_nil in Hn.
  - intros n. simpl. by rewrite lookup_empty.
Qed.

Lemma complete_graph_no_self_loop n ninit i :
  has_edge (Scenario.complete_graph n ninit) (i, i) = false.
Proof.
  unfold has_edge. apply bool_decide_eq_false. simpl.
  destruct (list_to_map _ !! i) as [l|] eqn:Hl; simpl; [|apply not_elem_of_nil].
  apply elem_of_list_to_map_2 in Hl.
  apply list_elem_of_fmap in Hl as (j & [= -> ->] & _).
  intros Hin. by apply list_elem_of_filter in Hin as [? _].
Qed.

(** ** Reading the result of a concrete run *)

Lemma succeeds_Some {A} (o : option A) (d : A) : succeeds o = true → o = Some (default d o).
Proof. by destruct o. Qed.

Lemma succeeds_is_Some {A} (o : option A) : succeeds o = true → is_Some o.
Proof. destruct o; [eauto|done]. Qed.

Lemma default_of_Some {A} (o : option A) (d x : A) : o = Some x → x = default d o.
Proof. by intros ->. Qed.

(** ** Runs of the concrete scenarios *)

(** C1 (the code loses vehicles). Scenario A with a rebalancing time on
    edge (0,1) of two steps at time 0 and one step afterwards: two vehicles
    sent at time 0 and one sent at time 1 share the arrival key 2 of
    rebFlow[0,1]; the second write replaces the first, although dacc[1][2]
    counts all three. The fleet of ten (parked plus in flight) is ten after
    the first cycle and eight from the second cycle on. *)
Lemma fleet_lost_on_overwrite :
  (hs0 ← env_varying;
   hs1 ← cycle42 (λ _, true) [2; 0; 0; 0] hs0;
   hs2 ← cycle42 (λ _, true) [1; 0; 0; 0] hs1;
   hs3 ← cycle42 (λ _, true) [0; 0; 0; 0] hs2;
   Some (edges hs0.2 !! 0%nat, time_of (rebTime hs0.2) (0, 1) 0, time_of (rebTime hs0.2) (0, 1) 1,
         fleet hs0.2,
         fleet hs1.2, get2 (rebFlow hs1.2) (0, 1) 2,
         fleet hs2.2, get2 (rebFlow hs2.2) (0, 1) 2, get2 (dacc hs2.2) 1 2,
         fleet hs3.2, parked hs3.2))
  = Some (Some (0, 1), Some 2, Some 1, 10, 10, Some 2, 8, Some 1, Some 3, 8, 8).
Proof. vm_compute. reflexivity. Qed.

(** C7 (the code writes into the caller's scenario). The environment built
    from scenario A holds the graph of the caller (location 0), not the one
    of its deep copy (location 1), and the construction has written the
    attribute 'time' of edge (0,1) in the caller's graph. *)
Lemma init_writes_caller_graph :
  (g ← line_heap 2 5 !! Scenario.G scenario_A;
   '(h', s) ← init (line_heap 2 5) scenario_A 0 (Q2Qc (1 # 10));
   g' ← h' !! Scenario.G scenario_A;
   Some (g_time g !! (0, 1), G s, Scenario.G scenario_A, Scenario.G (scenario s),
         g_time g' !! (0, 1)))
  = Some (None, 0%nat, 0%nat, 1%nat, Some 1).
Proof. vm_compute. reflexivity. Qed.



(** C4 as stated fails. Three regions; two vehicles left region 0 for region
    2 at time 0 and are recorded under the arrival key 2. In the [reb_step]
    call at time 1 the ledgers hold 2 for region 2 under the key t+1 = 2 and
    nothing under the key t = 1: acc[2][2] stays 5, it is not 5 + 2. *)
Lemma arrivals_due_next_step_not_landed :
  (let hs := at_D1 in
   let zero := replicate 9 0 in
   g ← hs.1 !! G hs.2;
   s_mid ← reb_loop g (time hs.2) (reb_begin hs.2 zero);
   '(_, s', _) ← reb_step hs.1 hs.2 zero;
   Some (edges hs.2 !! 6%nat, time hs.2,
         get2 (acc s_mid) 2 2,
         landed s_mid 2 2 (edges hs.2), landed s_mid 1 2 (edges hs.2),
         get2 (acc s') 2 2,
         bool_decide (get2 (acc s') 2 2 =
                      (λ a, a + landed s_mid 2 2 (edges hs.2)) <$> get2 (acc s_mid) 2 2)))
  = Some (Some (0, 2), 1, Some 5, 2, 0, Some 5, false).
Proof. vm_compute. reflexivity. Qed.

(** Scenario A, two vehicles recorded under the key 1 on edge (0,1): the
    call at time 1 lands them, acc[1][2] = 5 + 2. *)
Lemma reb_step_lands_current_key_witness :
  ∃ h' s' o,
    reb_step at_A1.1 at_A1.2 [0; 0; 0; 0] = Some (h', s', o) ∧
    time s' = 2 ∧ get2 (acc s') 1 2 = Some 7.
Proof.
  assert (E : reb_step at_A1.1 at_A1.2 [0; 0; 0; 0]
              = Some (default (∅, blank, blank_out) (reb_step at_A1.1 at_A1.2 [0; 0; 0; 0]))).
  { apply succeeds_Some. vm_compute. reflexivity. }
  destruct (default _ (reb_step _ _ _)) as [[h' s'] o].
  exists h', s', o. split; [exact E|].
  destruct (reb_step_lands_current_key _ _ _ _ _ _ E)
    as (g & s_mid & g' & Hg & Hmid & Hland & _ & _ & _ & Htime & _).
  split.
  - rewrite Htime. vm_compute. reflexivity.
  - rewrite (default_of_Some _ no_graph _ Hg) in Hmid.
    replace 2 with (time at_A1.2 + 1) at 1 by (vm_compute; reflexivity).
    rewrite Hland, (default_of_Some _ blank _ Hmid). vm_compute. reflexivity.
Defined.

(** C5 as stated fails. Scenario B: the passenger requested at time 0 has
    waited eleven steps; the matching call at time 11 removes it from the
    queue and counts it in unservedDemand[0,1][11]; the entry at its request
    time, unservedDemand[0,1][0], stays 0. *)
Lemma unserved_demand_keyed_by_current_step :
  (let hs := at_B11 in
   '(s', _) ← match_step_simple shuffle42 no_elasticity hs.1 hs.2 None (λ _, true);
   Some (time hs.2,
         (λ p, (Passenger.request_time p, Passenger.wait_time p))
           <$> default [] (queue hs.2 !! 0),
         get2 (unservedDemand hs.2) (0, 1) 0, get2 (unservedDemand hs.2) (0, 1) 11,
         queue s' !! 0,
         get2 (unservedDemand s') (0, 1) 0, get2 (unservedDemand s') (0, 1) 11))
  = Some (11, [(0, 11)], Some 0, Some 0, Some [], Some 0, Some 1).
Proof. vm_compute. reflexivity. Qed.

(** The same walk, taken alone. *)
Lemma abandonment_recorded_witness :
  ∃ s' draws',
    serve_region (λ _, true) 11 0 at_B11.2 0 0 = Some (s', draws') ∧
    ∃ seen index, length seen = 1%nat ∧ queue s' !! 0 = Some (keep_unless index seen).
Proof.
  assert (E : serve_region (λ _, true) 11 0 at_B11.2 0 0
              = Some (default (blank, 0%nat) (serve_region (λ _, true) 11 0 at_B11.2 0 0))).
  { apply succeeds_Some. vm_compute. reflexivity. }
  destruct (default _ (serve_region _ _ _ _ _ _)) as [s' draws'].
  exists s', draws'. split; [exact E|].
  destruct (abandonment_recorded _ _ _ _ _ _ _ _ E) as (seen & index & Hlen & Hq & _).
  exists seen, index. split; [|exact Hq]. rewrite Hlen. vm_compute. reflexivity.
Defined.

(** C6 (the code undoes its own shuffle). The comment of the shuffle says
    that it is there so that passengers are not served in destination
    order. Region 0 of four, one new request towards each of its neighbours
    1, 2, 3: the code shuffles, with a generator seeded anew, after each
    neighbour, and queues the requests in the order 1, 2, 3, the order of
    the destinations; one shuffle of the whole batch would queue them in
    the order 2, 1, 3. *)
Lemma shuffle_repeated_per_destination :
  (let hs := at_C in
   g ← hs.1 !! G hs.2;
   js ← neighbors g 0;
   s' ← enqueue_region shuffle42 no_elasticity g None 0 hs.2 0;
   let news := (λ j, [Passenger.create 0 j 0 (Qc_of_Z 3)]) <$> js in
   once ← enqueue_once shuffle42 (default [] (queue hs.2 !! 0)) news;
   Some (js, map Passenger.destination (default [] (queue s' !! 0)),
         map Passenger.destination once))
  = Some ([1; 2; 3], [1; 2; 3], [2; 1; 3]).
Proof. vm_compute. reflexivity. Qed.

(** The same step: three neighbours, three shuffles, and the earlier queue
    kept ahead of the batch. *)
Lemma batch_shuffled_per_destination_witness :
  ∃ s',
    enqueue_region shuffle42 no_elasticity
      (default no_graph (at_C.1 !! G at_C.2)) None 0 at_C.2 0 = Some s' ∧
    ∃ js (news : list (list Passenger.t)) entered,
      js = [1; 2; 3] ∧ length news = 3%nat ∧
      queue s' !! 0 = Some (default [] (queue at_C.2 !! 0) ++ entered).
Proof.
  set (g := default no_graph (at_C.1 !! G at_C.2)).
  assert (E : enqueue_region shuffle42 no_elasticity g None 0 at_C.2 0
              = Some (default blank (enqueue_region shuffle42 no_elasticity g None 0 at_C.2 0))).
  { apply succeeds_Some. vm_compute. reflexivity. }
  exists (default blank (enqueue_region shuffle42 no_elasticity g None 0 at_C.2 0)). split; [exact E|].
  destruct (batch_shuffled_per_destination _ _ _ _ _ _ _ _ E)
    as (js & byTime & news & batch & entered & Hjs & _ & Hnews & _ & _ & Hq).
  exists js, news, entered.
  assert (Hjs' : js = [1; 2; 3]).
  { rewrite (default_of_Some _ [] _ Hjs). vm_compute. reflexivity. }
  split; [exact Hjs'|]. split; [|exact Hq].
  apply Forall2_length in Hnews. rewrite <- Hnews, Hjs'. reflexivity.
Defined.

(** C8 (the code forgets three ledgers in [reset]). Scenario B after
    twelve cycles has one abandoned passenger in info['unserved_demand'] and
    its request in depDemand[0][0] and arrDemand[0][1]; after [reset()]
    with a demand without any request all three are still there, where
    [__init__] starts them empty. A second episode on the same demand as
    the first, in which again one passenger abandons, ends with
    info['unserved_demand'] at 2. *)
Lemma reset_keeps_diagnostics :
  (let hs := at_B12 in
   '(s', _) ← reset hs.1 hs.2 (line_trips 2 13 quiet (Qc_of_Z 3));
   '(s2, _) ← reset hs.1 hs.2 (line_trips 2 13 one_request (Qc_of_Z 3));
   hs2 ← cycles42 (λ _, true) (replicate 12 [0; 0; 0; 0]) (hs.1, s2);
   Some (unserved_demand (info hs.2), unserved_demand (info s'),
         get2 (depDemand hs.2) 0 0, get2 (depDemand s') 0 0,
         get2 (arrDemand hs.2) 0 1, get2 (arrDemand s') 0 1,
         get2 (demand s') (0, 1) 0, time s',
         unserved_demand (info s2), unserved_demand (info hs2.2)))
  = Some (1, 1, Some 1, Some 1, Some 1, Some 1, Some 0, 0, 1, 2).
Proof. vm_compute. reflexivity. Qed.

(** Scenario A reset with a new demand: five vehicles in each region at
    time 0. *)
Lemma reset_reinitialises_witness :
  ∃ s' obs,
    reset at_A.1 at_A.2 (line_trips 2 4 one_request (Qc_of_Z 3)) = Some (s', obs) ∧
    time s' = 0 ∧ get2 (acc s') 0 0 = Some 5 ∧ get2 (acc s') 1 0 = Some 5 ∧
    demand s' = demand_of_trips (line_trips 2 4 one_request (Qc_of_Z 3)).
Proof.
  set (trips := line_trips 2 4 one_request (Qc_of_Z 3)).
  assert (E : reset at_A.1 at_A.2 trips
              = Some (default (blank, observe blank) (reset at_A.1 at_A.2 trips))).
  { apply succeeds_Some. vm_compute. reflexivity. }
  destruct (default _ (reset _ _ _)) as [s' obs].
  exists s', obs. split; [exact E|].
  destruct (reset_reinitialises _ _ _ _ _ E)
    as (g & Hg & _ & Htime & _ & _ & _ & _ & Hdem & _ & _ & Hacc & _).
  pose proof (default_of_Some _ no_graph _ Hg) as Hg'.
  split; [exact Htime|]. 
  split. 
  - apply Hacc; rewrite Hg'.
    + apply (bool_decide_eq_true_1 _). vm_compute. reflexivity.
    + vm_compute. reflexivity.
  - split; [|exact Hdem]. apply Hacc; rewrite Hg'.
    + apply (bool_decide_eq_true_1 _). vm_compute. reflexivity.
    + vm_compute. reflexivity.
Defined.

(** ** Construction *)

Lemma load_trips_frame trips s s' :
  for_each load_trip trips s = Some s' →
  G s' = G s ∧ scenario s' = scenario s ∧ rebTime s' = rebTime s ∧ time s' = time s ∧
  region s' = region s ∧ acc s' = acc s ∧ dacc s' = dacc s ∧ edges s' = edges s.
Proof.
  revert s. induction trips as [|[[[[i j] t] d] p] trips IH]; intros s Hs; cbn [for_each] in Hs.
  - by injection Hs as <-.
  - destruct (load_trip s (i, j, t, d, p)) as [s1|] eqn:H1; simpl in Hs; [|done].
    apply IH in Hs as (-> & -> & -> & -> & -> & -> & -> & ->).
    unfold load_trip in H1.
    repeat match type of H1 with
           | (?x ≫= _) = Some _ => destruct x; simpl in H1; [|done]
           end.
    by injection H1 as <-.
Qed.

Lemma seed_regions_frame g ns s s' :
  for_each (seed_region g) ns s = Some s' → ∃ A D, s' = set_dacc D (set_acc A s).
Proof.
  revert s. induction ns as [|n ns IH]; intros s Hs; cbn [for_each] in Hs.
  - injection Hs as <-. exists (acc s), (dacc s). by destruct s.
  - destruct (seed_region g s n) as [s1|] eqn:H1; simpl in Hs; [|done].
    unfold seed_region in H1. destruct (g_accInit g !! n); simpl in H1; [|done].
    injection H1 as <-. apply IH in Hs as (A & D & ->). by exists A, D.
Qed.

Lemma build_edges_ext g g' :
  g_nodes g' = g_nodes g → g_adj g' = g_adj g → build_edges g' = build_edges g.
Proof.
  intros Hn Ha. unfold build_edges, out_edges, neighbors. by rewrite Hn, Ha.
Qed.

Lemma init_spec h sc md b h' s :
  init h sc md b = Some (h', s) →
  ∃ g g',
    h !! Scenario.G sc = Some g ∧
    G s = Scenario.G sc ∧
    Scenario.G (scenario s) = fresh (dom h) ∧
    refresh_edge_times (Scenario.rebTime sc) 0 g = Some g' ∧
    h' = <[Scenario.G sc := g']> (<[fresh (dom h) := g]> h) ∧
    build_edges g' = Some (edges s) ∧
    region s = g_nodes g ∧ time s = 0.
Proof.
  unfold init, Scenario.deepcopy. intros Hs.
  destruct (h !! Scenario.G sc) as [g|] eqn:Hg; simpl in Hs; [|done].
  assert (Hne : fresh (dom h) ≠ Scenario.G sc).
  { intros Heq. apply (is_fresh (dom h)). rewrite Heq. apply elem_of_dom. eauto. }
  rewrite lookup_insert_ne in Hs by done. rewrite Hg in Hs. simpl in Hs.
  destruct (Scenario.tstep sc) as [ts|] eqn:Hts; simpl in Hs; [|done].
  destruct (for_each load_trip _ _) as [s1|] eqn:H1; simpl in Hs; [|done].
  apply load_trips_frame in H1 as (HG & Hsc & Hrt & Htm & Hrg & _ & _ & _). simpl in *.
  destruct (build_edges g) as [es|] eqn:Hes; simpl in Hs; [|done].
  destruct (mapM _ (g_nodes g)) as [ne|]; simpl in Hs; [|done].
  rewrite Hrt, Htm in Hs.
  destruct (refresh_edge_times _ 0 g) as [g'|] eqn:Hr; simpl in Hs; [|done].
  destruct (for_each (seed_region g') _ _) as [s2|] eqn:H2; simpl in Hs; [|done].
  apply seed_regions_frame in H2 as (A & D & ->). injection Hs as <- <-. simpl.
  exists g, g'. rewrite ?Hsc, ?HG, ?Hrg. split_and!; try done.
  pose proof (refresh_edge_times_get _ _ _ _ Hr) as (Hn & _ & Ha & _).
  by rewrite (build_edges_ext g g').
Qed.

(** X3. Whatever the scenario, the constructed environment works on the
    caller's graph, not on the one of its deep copy, and the construction
    writes the attribute 'time' of every edge of the caller's graph. *)
Lemma init_aliases_graph h sc md b h' s :
  init h sc md b = Some (h', s) →
  G s = Scenario.G sc ∧
  Scenario.G (scenario s) ≠ Scenario.G sc ∧
  ∃ g g',
    h !! Scenario.G sc = Some g ∧
    h' !! Scenario.G sc = Some g' ∧
    ∀ e, e ∈ g_edges g →
         is_Some (g_time g' !! e) ∧ g_time g' !! e = time_of (Scenario.rebTime sc) e 0.
Proof.
  intros (g & g' & Hg & HG & Hcopy & Hr & -> & _)%init_spec.
  split; [done|]. split.
  - rewrite Hcopy. intros Heq. apply (is_fresh (dom h)). rewrite Heq.
    apply elem_of_dom. eauto.
  - exists g, g'. split; [done|]. split; [by rewrite lookup_insert_eq|].
    intros e He. pose proof (refresh_edge_times_get _ _ _ _ Hr) as (_ & _ & _ & Ht).
    specialize (Ht e). rewrite bool_decide_eq_true_2 in Ht by done.
    split; [|done]. rewrite Ht. by eapply refresh_edges_defined.
Qed.

(** Scenario A: the environment's graph is the scenario's. *)
Lemma init_aliases_graph_witness :
  ∃ h' s,
    init (line_heap 2 5) scenario_A 0 (Q2Qc (1 # 10)) = Some (h', s) ∧
    G s = Scenario.G scenario_A ∧ Scenario.G (scenario s) ≠ Scenario.G scenario_A.
Proof.
  assert (E : init (line_heap 2 5) scenario_A 0 (Q2Qc (1 # 10)) =
              Some (default (∅, blank) (init (line_heap 2 5) scenario_A 0 (Q2Qc (1 # 10))))).
  { apply succeeds_Some. vm_compute. reflexivity. }
  destruct (default _ (init _ _ _ _)) as [h' s].
  exists h', s. split; [exact E|].
  destruct (init_aliases_graph _ _ _ _ _ _ E) as (H1 & H2 & _).
  split; [exact H1|exact H2].
Defined.

(** ** Sums over lists and dictionaries *)

Lemma lsum_ext {A} (f g : A → Z) l :
  (∀ x, x ∈ l → f x = g x) → lsum f l = lsum g l.
Proof.
  induction l as [|x l IH]; intros Hfg; simpl; [done|].
  rewrite (Hfg x) by apply list_elem_of_here.
  rewrite IH; [done|]. intros y Hy. apply Hfg. by apply list_elem_of_further.
Qed.

Lemma lsum_plus {A} (f g : A → Z) l :
  lsum (λ x, f x + g x) l = lsum f l + lsum g l.
Proof. induction l as [|x l IH]; simpl; [done|]. rewrite IH. lia. Qed.

(** Changing the summand at one place of a duplicate-free list. *)
Lemma lsum_update {A} (f g : A → Z) l x :
  NoDup l → x ∈ l → (∀ y, y ∈ l → y ≠ x → g y = f y) →
  lsum g l = lsum f l + (g x - f x).
Proof.
  induction l as [|y l IH]; intros Hnd Hx Hfg; [by apply elem_of_nil in Hx|].
  apply NoDup_cons in Hnd as [Hy Hnd]. simpl.
  apply elem_of_cons in Hx as [->|Hx].
  - rewrite (lsum_ext g f l); [lia|].
    intros z Hz. apply Hfg; [by apply list_elem_of_further|]. by intros ->.
  - rewrite IH; [| done | done |].
    + rewrite (Hfg y); [lia | apply list_elem_of_here | by intros ->].
    + intros z Hz. apply Hfg. by apply list_elem_of_further.
Qed.

Section msum.
Context `{Countable K} {V : Type}.
Implicit Types (f g : K → V → Z) (m : gmap K V).

Lemma msum_empty f : msum f (∅ : gmap K V) = 0.
Proof. apply map_fold_empty. Qed.

Lemma msum_insert f m k v :
  m !! k = None → msum f (<[k := v]> m) = f k v + msum f m.
Proof.
  intros Hk. unfold msum.
  rewrite map_fold_insert_L; [done | intros; lia | done].
Qed.

Lemma msum_delete f m k v :
  m !! k = Some v → msum f m = f k v + msum f (delete k m).
Proof.
  intros Hk. rewrite <- (insert_delete_id m k v) at 1 by done.
  apply msum_insert, lookup_delete_eq.
Qed.

Lemma msum_insert_any f m k v :
  msum f (<[k := v]> m) =
  msum f m + (f k v - match m !! k with Some v0 => f k v0 | None => 0 end).
Proof.
  destruct (m !! k) as [v0|] eqn:Hk.
  - rewrite (msum_delete f m k v0 Hk).
    rewrite <- insert_delete_eq. rewrite msum_insert by apply lookup_delete_eq. lia.
  - rewrite msum_insert by done. lia.
Qed.

Lemma msum_ext f g m :
  (∀ k v, m !! k = Some v → f k v = g k v) → msum f m = msum g m.
Proof.
  induction m as [|k v m Hk IH] using map_ind; intros Hfg.
  - by rewrite !msum_empty.
  - rewrite !msum_insert by done.
    rewrite (Hfg k v) by apply lookup_insert_eq.
    rewrite IH; [done|]. intros k' v' Hk'. apply Hfg.
    rewrite lookup_insert_ne; [done|]. intros ->. congruence.
Qed.

Lemma msum_plus f g m :
  msum (λ k v, f k v + g k v) m = msum f m + msum g m.
Proof.
  induction m as [|k v m Hk IH] using map_ind.
  - by rewrite !msum_empty.
  - rewrite !msum_insert by done. rewrite IH. lia.
Qed.

(** The sum over a dictionary, read off a duplicate-free list that holds
    all its keys. *)
Lemma msum_list f m l :
  NoDup l → (∀ k, is_Some (m !! k) → k ∈ l) →
  msum f m = lsum (λ k, match m !! k with Some v => f k v | None => 0 end) l.
Proof.
  revert m. induction l as [|k l IH]; intros m Hnd Hdom.
  - assert (m = ∅) as ->.
    { apply map_empty. intros k. destruct (m !! k) eqn:Hk; [|done].
      exfalso. eapply elem_of_nil, Hdom. eauto. }
    apply msum_empty.
  - apply NoDup_cons in Hnd as [Hk Hnd]. simpl.
    destruct (m !! k) as [v|] eqn:Hmk.
    + rewrite (msum_delete f m k v Hmk). f_equal.
      rewrite (IH (delete k m)); [| done |].
      * apply lsum_ext. intros k' Hk'.
        rewrite lookup_delete_ne; [done|]. by intros ->.
      * intros k' [v' Hk'].
        destruct (decide (k' = k)) as [->|Hne]; [by rewrite lookup_delete_eq in Hk'|].
        rewrite lookup_delete_ne in Hk' by done.
        specialize (Hdom k' (ex_intro _ v' Hk')).
        apply elem_of_cons in Hdom as [?|?]; [done|done].
    + rewrite (IH m); [lia | done |].
      intros k' [v' Hk'].
      specialize (Hdom k' (ex_intro _ v' Hk')).
      apply elem_of_cons in Hdom as [->|?]; [congruence|done].
Qed.

End msum.

(** ** Vehicles in flight *)

Lemma row_from_plain t : row_from t plain = 0.
Proof. apply msum_empty. Qed.

Lemma row_from_set t d k v :
  row_from t (dict_set d k v) =
  row_from t d + (if bool_decide (t ≤ k) then v - default 0 (items d !! k) else 0).
Proof.
  unfold row_from, dict_set. simpl. rewrite msum_insert_any.
  destruct (items d !! k); simpl; case_bool_decide; lia.
Qed.

Lemma row_from_succ t d :
  row_from t d = row_from (t + 1) d + default 0 (items d !! t).
Proof.
  unfold row_from. induction (items d) as [|k v m Hk IH] using map_ind.
  - by rewrite !msum_empty, lookup_empty.
  - rewrite !msum_insert by done. rewrite IH.
    destruct (decide (k = t)) as [->|Hne].
    + rewrite lookup_insert_eq, Hk. simpl.
      rewrite bool_decide_eq_true_2, bool_decide_eq_false_2 by lia. lia.
    + rewrite lookup_insert_ne by done.
      repeat case_bool_decide; lia.
Qed.

Lemma landing_sub (m : gmap Edge PyDict) t e :
  landing m t e = default 0 (items (sub m e) !! t).
Proof. unfold landing, sub. by destruct (m !! e). Qed.

Lemma in_flight_set2 (m : gmap Edge PyDict) e k v t :
  in_flight (set2 m e k v) t =
  in_flight m t + (if bool_decide (t ≤ k) then v - landing m k e else 0).
Proof.
  unfold in_flight, set2. rewrite msum_insert_any, row_from_set, landing_sub.
  unfold sub. destruct (m !! e); simpl; [lia|]. rewrite row_from_plain. lia.
Qed.

Lemma in_flight_add2 (m m' : gmap Edge PyDict) e k v t :
  add2 m e k v = Some m' → t ≤ k → in_flight m' t = in_flight m t + v.
Proof.
  intros (x & Hx & ->)%add2_Some Hk. rewrite in_flight_set2.
  rewrite bool_decide_eq_true_2 by done.
  rewrite landing_sub. unfold get2, dict_get in Hx.
  destruct (items (sub m e) !! k) as [y|]; simpl.
  - injection Hx as ->. lia.
  - destruct (dflt (sub m e)); [injection Hx as <-; lia | done].
Qed.

(** The ledger rows stay those of the listed edges. *)
Lemma add2_rows (m m' : gmap Edge PyDict) e k v e' :
  add2 m e k v = Some m' → is_Some (m' !! e') → is_Some (m !! e').
Proof.
  intros (x & Hx & ->)%add2_Some. unfold set2.
  destruct (decide (e = e')) as [<-|Hne]; [|by rewrite lookup_insert_ne].
  intros _. unfold get2, sub in Hx. destruct (m !! e); [eauto|done].
Qed.

(** What is in flight at [t] lands at [t] or is in flight at [t+1]. *)
Lemma in_flight_succ (m : gmap Edge PyDict) t es :
  NoDup es → (∀ e, is_Some (m !! e) → e ∈ es) →
  in_flight m t = in_flight m (t + 1) + lsum (landing m t) es.
Proof.
  intros Hnd Hdom. unfold in_flight.
  rewrite (msum_ext _ (λ e d, row_from (t + 1) d + default 0 (items d !! t)))
    by (intros; apply row_from_succ).
  rewrite (msum_plus (λ _ d, row_from (t + 1) d)). f_equal.
  rewrite (msum_list _ m es Hnd Hdom). apply lsum_ext. intros e _.
  unfold landing. by destruct (m !! e).
Qed.

(** ** The fleet through [reb_step] *)

Lemma land_edge_parked t s i j s' n k :
  land_edge t s (i, j) = Some s' →
  default 0 (get2 (acc s') n k) =
  default 0 (get2 (acc s) n k) +
  (if decide (n = j ∧ k = t + 1)
   then landing (rebFlow s) t (i, j) + landing (paxFlow s) t (i, j) else 0).
Proof.
  intros Hs. unfold land_edge in Hs.
  assert (Hadd : ∀ (A A' : gmap Z PyDict) x,
             add2 A j (t + 1) x = Some A' →
             default 0 (get2 A' n k) =
             default 0 (get2 A n k) + (if decide (n = j ∧ k = t + 1) then x else 0)).
  { intros A A' x HA. rewrite (get2_add2 _ _ _ _ _ n k HA).
    apply add2_Some in HA as (y & Hy & _).
    destruct (decide (n = j ∧ k = t + 1)) as [[-> ->]|_]; [|lia].
    rewrite Hy. simpl. lia. }
  destruct (has2 (rebFlow s) (i, j) t) eqn:H1.
  - rewrite (has2_true _ _ _ H1) in Hs. simpl in Hs.
    destruct (add2 (acc s) j (t + 1) _) as [A1|] eqn:HA1; simpl in Hs; [|done].
    destruct (has2 (paxFlow s) (i, j) t) eqn:H2.
    + rewrite (has2_true _ _ _ H2) in Hs. simpl in Hs.
      destruct (add2 A1 j (t + 1) _) as [A2|] eqn:HA2; simpl in Hs; [|done].
      injection Hs as <-. simpl.
      rewrite (Hadd _ _ _ HA2), (Hadd _ _ _ HA1). destruct (decide _); lia.
    + injection Hs as <-. simpl. rewrite (has2_false _ _ _ H2).
      rewrite (Hadd _ _ _ HA1). destruct (decide _); lia.
  - simpl in Hs. rewrite (has2_false _ _ _ H1).
    destruct (has2 (paxFlow s) (i, j) t) eqn:H2.
    + rewrite (has2_true _ _ _ H2) in Hs. simpl in Hs.
      destruct (add2 (acc s) j (t + 1) _) as [A2|] eqn:HA2; simpl in Hs; [|done].
      injection Hs as <-. simpl.
      rewrite (Hadd _ _ _ HA2). destruct (decide _); lia.
    + injection Hs as <-. rewrite (has2_false _ _ _ H2). destruct (decide _); lia.
Qed.

(** The arrival loop parks what the two ledgers hold under the key [t]. *)
Lemma land_edges_parked t es s s' :
  for_each (land_edge t) es s = Some s' →
  NoDup (region s) → (∀ i j, (i, j) ∈ es → j ∈ region s) →
  parked_at s' (t + 1) =
  parked_at s (t + 1) + lsum (landing (rebFlow s) t) es + lsum (landing (paxFlow s) t) es.
Proof.
  revert s. induction es as [|[i j] es IH]; intros s Hs Hnd Hin; cbn [for_each] in Hs.
  - injection Hs as <-. simpl. lia.
  - destruct (land_edge t s (i, j)) as [s1|] eqn:H1; simpl in Hs; [|done].
    destruct (land_edge_acc _ _ _ _ H1) as [A ->].
    pose proof (λ n k, land_edge_parked t s i j _ n k H1) as Hget. simpl in Hget.
    rewrite (IH _ Hs); simpl; [| done |].
    2:{ intros i' j' H'. apply (Hin i' j'). by apply list_elem_of_further. }
    assert (Hj : j ∈ region s) by (apply (Hin i j), list_elem_of_here).
    unfold parked_at. simpl.
    rewrite (lsum_update (λ n, default 0 (get2 (acc s) n (t + 1)))
                         (λ n, default 0 (get2 A n (t + 1))) (region s) j Hnd Hj).
    + rewrite Hget. rewrite decide_True by done. lia.
    + intros n _ Hn. rewrite Hget. rewrite decide_False; [lia|]. by intros [? _].
Qed.

Lemma landing_set2_ne (m : gmap Edge PyDict) e e' k k' v :
  e ≠ e' → landing (set2 m e k v) k' e' = landing m k' e'.
Proof. intros Hne. unfold landing, set2. by rewrite lookup_insert_ne. Qed.

(** The rebalancing loop moves vehicles from the regions into the ledger,
    one for one, when every write finds its slot free. *)
Lemma reb_edges_fleet g t kes s s' :
  for_each (reb_edge g t) kes s = Some s' →
  NoDup (region s) → NoDup kes.*2 →
  (∀ k i j, (k, (i, j)) ∈ kes → i ∈ region s) →
  times_nonneg (rebTime s) t →
  (∀ k e τ, (k, e) ∈ kes → has_edge g e = true → time_of (rebTime s) e t = Some τ →
            landing (rebFlow s) (t + τ) e = 0) →
  parked_at s' (t + 1) + in_flight (rebFlow s') t =
  parked_at s (t + 1) + in_flight (rebFlow s) t ∧
  region s' = region s ∧
  (∀ e, is_Some (rebFlow s' !! e) → is_Some (rebFlow s !! e) ∨ e ∈ kes.*2).
Proof.
  revert s. induction kes as [|[k [i j]] kes IH]; intros s Hs Hnd Hes Hreg Hτ Hfree;
    cbn [for_each] in Hs.
  - injection Hs as <-. auto.
  - destruct (reb_edge g t s (k, (i, j))) as [s1|] eqn:H1; simpl in Hs; [|done].
    simpl in Hes. apply NoDup_cons in Hes as [Hk Hes].
    assert (Hstep : parked_at s1 (t + 1) + in_flight (rebFlow s1) t =
                    parked_at s (t + 1) + in_flight (rebFlow s) t ∧
                    region s1 = region s ∧ rebTime s1 = rebTime s ∧
                    (∀ e k', e ≠ (i, j) → landing (rebFlow s1) k' e = landing (rebFlow s) k' e) ∧
                    (∀ e, is_Some (rebFlow s1 !! e) → is_Some (rebFlow s !! e) ∨ e = (i, j))).
    { destruct (has_edge g (i, j)) eqn:He.
      - apply reb_edge_move in H1 as (a_i & r_k & τ & x & er & Ha & _ & Ht & _ & _ & ->);
          [|done]. simpl. split_and!; try done.
        + rewrite in_flight_set2.
          rewrite bool_decide_eq_true_2 by (specialize (Hτ _ _ Ht); lia).
          rewrite (Hfree k (i, j) τ); [| apply list_elem_of_here | done | done].
          unfold parked_at. simpl.
          rewrite (lsum_update (λ n, default 0 (get2 (acc s) n (t + 1)))
                     (λ n, default 0 (get2 (set2 (acc s) i (t + 1) (a_i - Z.min a_i r_k)) n (t + 1)))
                     (region s) i Hnd).
          * rewrite get2_set2_eq, Ha. simpl. lia.
          * apply (Hreg k i j), list_elem_of_here.
          * intros n _ Hn. by rewrite get2_set2_ne_key.
        + intros e k' Hne. by apply landing_set2_ne.
        + intros e. unfold set2. destruct (decide (e = (i, j))) as [->|Hne]; [auto|].
          rewrite lookup_insert_ne by done. auto.
      - rewrite reb_edge_skip in H1 by done. injection H1 as <-. split_and!; auto. }
    destruct Hstep as (Hsum & Hr & Hrt & Hland & Hrows).
    destruct (IH s1 Hs) as (Hsum' & Hr' & Hrows').
    + by rewrite Hr.
    + done.
    + intros k' i' j' H'. rewrite Hr. apply (Hreg k' i' j'). by apply list_elem_of_further.
    + by rewrite Hrt.
    + intros k' e τ Hin He Ht. rewrite Hland.
      * apply (Hfree k' e τ); [by apply list_elem_of_further | done | by rewrite <- Hrt].
      * intros ->. apply Hk. apply list_elem_of_fmap. by exists (k', (i, j)).
    + split; [lia|]. split; [congruence|].
      intros e He. simpl. destruct (Hrows' e He) as [H'|H'].
      * destruct (Hrows e H') as [?| ->]; [by left|]. right. apply list_elem_of_here.
      * right. by apply list_elem_of_further.
Qed.

(** ** The fleet through [match_step_simple] *)

Lemma same_setting_refl s : same_setting s s.
Proof. by repeat split. Qed.

Lemma same_setting_trans s1 s2 s3 :
  same_setting s1 s2 → same_setting s2 s3 → same_setting s1 s3.
Proof.
  intros (?&?&?&?&?&?&?) (?&?&?&?&?&?&?). repeat split; congruence.
Qed.

Lemma wait_or_leave_books t i pax d sv sv' :
  wait_or_leave t i pax d sv = Some sv' →
  sv_acc sv' = sv_acc sv ∧ acc (sv_env sv') = acc (sv_env sv) ∧
  paxFlow (sv_env sv') = paxFlow (sv_env sv) ∧ same_setting (sv_env sv) (sv_env sv').
Proof.
  unfold wait_or_leave. destruct (Passenger.unmatched_update pax) as [pax' leave].
  destruct leave.
  - destruct (add2 _ _ _ _); simpl; [|done]. intros [= <-]. simpl.
    split_and!; try done; by repeat split.
  - intros [= <-]. simpl. split_and!; try done; by repeat split.
Qed.

(** A match takes one vehicle from the region's count and puts one in flight. *)
Lemma serve_pax_books coin t n sv ip sv' :
  serve_pax coin t n sv ip = Some sv' →
  times_nonneg (demandTime (sv_env sv)) t →
  sv_acc sv' + in_flight (paxFlow (sv_env sv')) t =
  sv_acc sv + in_flight (paxFlow (sv_env sv)) t ∧
  acc (sv_env sv') = acc (sv_env sv) ∧
  (∀ e, is_Some (paxFlow (sv_env sv') !! e) → is_Some (paxFlow (sv_env sv) !! e)) ∧
  same_setting (sv_env sv) (sv_env sv').
Proof.
  destruct ip as [i pax]. unfold serve_pax. intros Hs Hτ.
  assert (Hw : ∀ p d, wait_or_leave t i p d sv = Some sv' →
            sv_acc sv' + in_flight (paxFlow (sv_env sv')) t =
            sv_acc sv + in_flight (paxFlow (sv_env sv)) t ∧
            acc (sv_env sv') = acc (sv_env sv) ∧
            (∀ e, is_Some (paxFlow (sv_env sv') !! e) → is_Some (paxFlow (sv_env sv) !! e)) ∧
            same_setting (sv_env sv) (sv_env sv')).
  { intros p d (-> & -> & -> & ?)%wait_or_leave_books. done. }
  case_bool_decide; [|by eapply Hw].
  destruct (Passenger.match_ pax t _) as [[pax' accept]|]; simpl in Hs; [|done].
  destruct accept; [|by eapply Hw].
  destruct (time_of _ _ t) as [τ|] eqn:Ht; simpl in Hs; [|done].
  destruct (add2 (paxFlow _) _ _ 1) as [pf|] eqn:Hpf; simpl in Hs; [|done].
  destruct (add2 (dacc _) _ _ 1) as [da|]; simpl in Hs; [|done].
  destruct (add2 (servedDemand _) _ _ 1) as [sd|]; simpl in Hs; [|done].
  destruct (np_add _ _ _) as [er|]; simpl in Hs; [|done].
  injection Hs as <-. simpl. split; [|split; [done|split]].
  - rewrite (in_flight_add2 _ _ _ _ _ t Hpf); [lia|]. specialize (Hτ _ _ Ht). lia.
  - intros e. by eapply add2_rows.
  - by repeat split.
Qed.

Lemma serve_queue_books coin t n l sv sv' :
  for_each (serve_pax coin t n) l sv = Some sv' →
  times_nonneg (demandTime (sv_env sv)) t →
  sv_acc sv' + in_flight (paxFlow (sv_env sv')) t =
  sv_acc sv + in_flight (paxFlow (sv_env sv)) t ∧
  acc (sv_env sv') = acc (sv_env sv) ∧
  (∀ e, is_Some (paxFlow (sv_env sv') !! e) → is_Some (paxFlow (sv_env sv) !! e)) ∧
  same_setting (sv_env sv) (sv_env sv').
Proof.
  revert sv. induction l as [|ip l IH]; intros sv Hs Hτ; cbn [for_each] in Hs.
  - injection Hs as <-. split_and!; try done; apply same_setting_refl.
  - destruct (serve_pax coin t n sv ip) as [sv1|] eqn:H1; simpl in Hs; [|done].
    apply serve_pax_books in H1 as (Hsum & Hacc & Hrows & Hset); [|done].
    destruct (IH sv1 Hs) as (Hsum' & Hacc' & Hrows' & Hset').
    { destruct Hset as (_&_&_&_&->&_). done. }
    split_and!; [lia | congruence | auto | by eapply same_setting_trans].
Qed.

Section Books.
Context (shuffle : list Passenger.t → list Passenger.t).
Context (demand_update : Z → Qc → Qc → Qc → Z).

Lemma arrive_dest_books pr t n s j s' :
  arrive_dest shuffle demand_update pr t n s j = Some s' →
  acc s' = acc s ∧ paxFlow s' = paxFlow s ∧ same_setting s s'.
Proof.
  unfold arrive_dest. intros Hs.
  destruct (get2 (demand s) (n, j) t); simpl in Hs; [|done].
  destruct (price s !! (n, j) ≫= _); simpl in Hs; [|done].
  match type of Hs with
  | (?x ≫= _) = Some _ => destruct x as [[d p]|]; simpl in Hs; [|done]
  end.
  destruct (passenger s !! n); simpl in Hs; [|done].
  injection Hs as <-. simpl. split_and!; try done; by repeat split.
Qed.

Lemma arrive_dests_books pr t n js s s' :
  for_each (arrive_dest shuffle demand_update pr t n) js s = Some s' →
  acc s' = acc s ∧ paxFlow s' = paxFlow s ∧ same_setting s s'.
Proof.
  revert s. induction js as [|j js IH]; intros s Hs; cbn [for_each] in Hs.
  - injection Hs as <-. split_and!; try done; apply same_setting_refl.
  - destruct (arrive_dest _ _ _ _ _ s j) as [s1|] eqn:H1; simpl in Hs; [|done].
    apply arrive_dest_books in H1 as (? & ? & ?).
    apply IH in Hs as (? & ? & ?).
    split_and!; [congruence | congruence | by eapply same_setting_trans].
Qed.

Lemma enqueue_region_books g pr t s n s' :
  enqueue_region shuffle demand_update g pr t s n = Some s' →
  acc s' = acc s ∧ paxFlow s' = paxFlow s ∧ same_setting s s'.
Proof.
  unfold enqueue_region. intros Hs.
  destruct (neighbors g n) as [js|]; simpl in Hs; [|done].
  destruct (for_each _ js s) as [s1|] eqn:H1; simpl in Hs; [|done].
  apply arrive_dests_books in H1 as (Ha & Hp & Hset).
  destruct (passenger s1 !! n); simpl in Hs; [|done].
  destruct (enter_all _) as [[b q]|]; simpl in Hs; [|done].
  injection Hs as <-. simpl. split_and!; try done;
    destruct Hset as (?&?&?&?&?&?&?); by repeat split.
Qed.

(** One region: what remains of its vehicles is booked for [t+1], what left
    is in flight. *)
Lemma match_region_books g pr coin t s d n s' d' :
  match_region shuffle demand_update g pr coin t (s, d) n = Some (s', d') →
  times_nonneg (demandTime s) t →
  ∃ a a',
    get2 (acc s) n t = Some a ∧
    acc s' = set2 (acc s) n (t + 1) a' ∧
    a' + in_flight (paxFlow s') t = a + in_flight (paxFlow s) t ∧
    (∀ e, is_Some (paxFlow s' !! e) → is_Some (paxFlow s !! e)) ∧
    same_setting s s'.
Proof.
  unfold match_region. intros Hs Hτ.
  destruct (get2 (acc s) n t) as [a|]; simpl in Hs; [|done].
  destruct (enqueue_region _ _ g pr t s n) as [s1|] eqn:H1; simpl in Hs; [|done].
  apply enqueue_region_books in H1 as (Ha & Hp & Hset).
  unfold serve_region in Hs.
  destruct (for_each _ _ _) as [sv|] eqn:H2; simpl in Hs; [|done].
  apply serve_queue_books in H2 as (Hsum & Hacc & Hrows & Hset'); simpl in *.
  2:{ destruct Hset as (_&_&_&_&->&_). done. }
  injection Hs as <- <-. simpl. exists a, (sv_acc sv).
  split_and!; [done | congruence | rewrite <- Hp; lia | by rewrite <- Hp | ].
  pose proof (same_setting_trans _ _ _ Hset Hset') as (?&?&?&?&?&?&?).
  by repeat split.
Qed.

(** All regions: what is parked at [t+1] and what the passenger ledger has
    in flight add up to what was there at [t]. *)
Lemma match_regions_books g pr coin t ns s d s' d' :
  for_each (match_region shuffle demand_update g pr coin t) ns (s, d) = Some (s', d') →
  times_nonneg (demandTime s) t → NoDup ns →
  lsum (λ n, default 0 (get2 (acc s') n (t + 1))) ns + in_flight (paxFlow s') t =
  lsum (λ n, default 0 (get2 (acc s) n t)) ns + in_flight (paxFlow s) t ∧
  (∀ n k, n ∉ ns ∨ k ≠ t + 1 → get2 (acc s') n k = get2 (acc s) n k) ∧
  (∀ e, is_Some (paxFlow s' !! e) → is_Some (paxFlow s !! e)) ∧
  same_setting s s'.
Proof.
  revert s d. induction ns as [|n ns IH]; intros s d Hs Hτ Hnd; cbn [for_each] in Hs.
  - injection Hs as <- <-. split_and!; try done; apply same_setting_refl.
  - destruct (match_region _ _ g pr coin t (s, d) n) as [[s1 d1]|] eqn:H1;
      simpl in Hs; [|done].
    apply match_region_books in H1 as (a & a' & Ha & Hacc & Hsum & Hrows & Hset); [|done].
    apply NoDup_cons in Hnd as [Hn Hnd].
    destruct (IH s1 d1 Hs) as (Hsum' & Hframe & Hrows' & Hset'); [|done|].
    { destruct Hset as (_&_&_&_&->&_). done. }
    split_and!; [| | auto | by eapply same_setting_trans].
    + simpl. rewrite (Hframe n (t + 1)) by auto.
      rewrite Hacc, get2_set2_eq, Ha. simpl.
      rewrite (lsum_ext (λ n0, default 0 (get2 (acc s) n0 t))
                        (λ n0, default 0 (get2 (acc s1) n0 t))) by
        (intros; rewrite Hacc, get2_set2_ne_time; [done|lia]).
      lia.
    + intros n' k Hnk. rewrite Hframe.
      * rewrite Hacc. destruct (decide (k = t + 1)) as [->|Hk].
        -- rewrite get2_set2_ne_key; [done|]. intros ->.
           destruct Hnk as [Hnk|Hnk]; [|done]. apply Hnk, list_elem_of_here.
        -- by rewrite get2_set2_ne_time.
      * destruct Hnk as [Hnk|Hnk]; [left|by right].
        intros Hin. apply Hnk. by apply list_elem_of_further.
Qed.

End Books.

Lemma enumerate_from_snd {A} k (l : list A) : (enumerate_from k l).*2 = l.
Proof. revert k. induction l as [|x l IH]; intros k; simpl; [done|]. by rewrite IH. Qed.

Lemma enumerate_elem_of {A} (l : list A) k x : (k, x) ∈ enumerate l → x ∈ l.
Proof.
  intros Hin. rewrite <- (enumerate_from_snd 0 l).
  apply list_elem_of_fmap. by exists (k, x).
Qed.

(** ** A whole cycle *)

Lemma landing_set2_ne_time (m : gmap Edge PyDict) e k k' v :
  k ≠ k' → landing (set2 m e k v) k' e = landing m k' e.
Proof.
  intros Hne. unfold landing, set2, sub. rewrite lookup_insert_eq. simpl.
  rewrite lookup_insert_ne by done. by destruct (m !! e).
Qed.

(** The rebalancing loop writes the ledger only under the keys of the
    departures at [t]. *)
Lemma reb_edge_landing g t s ke s' e k :
  reb_edge g t s ke = Some s' →
  (∀ τ, time_of (rebTime s) e t = Some τ → k ≠ t + τ) →
  landing (rebFlow s') k e = landing (rebFlow s) k e.
Proof.
  destruct ke as [k0 [i j]]. intros Hs Hk.
  destruct (has_edge g (i, j)) eqn:He.
  - apply reb_edge_move in Hs as (a_i & r_k & τ & x & er & _ & _ & Ht & _ & _ & ->); [|done].
    simpl. destruct (decide (e = (i, j))) as [->|Hne].
    + apply landing_set2_ne_time. intros Heq. by apply (Hk τ).
    + by apply landing_set2_ne.
  - rewrite reb_edge_skip in Hs by done. by injection Hs as <-.
Qed.

Lemma reb_edges_landing g t kes s s' e k :
  for_each (reb_edge g t) kes s = Some s' →
  (∀ τ, time_of (rebTime s) e t = Some τ → k ≠ t + τ) →
  landing (rebFlow s') k e = landing (rebFlow s) k e.
Proof.
  revert s. induction kes as [|ke kes IH]; intros s Hs Hk; cbn [for_each] in Hs.
  - by injection Hs as <-.
  - destruct (reb_edge g t s ke) as [s1|] eqn:H1; simpl in Hs; [|done].
    pose proof (reb_edge_static _ _ _ _ _ H1) as (Hrt & _).
    rewrite (IH s1 Hs) by (by rewrite Hrt).
    by eapply reb_edge_landing.
Qed.

Lemma reb_edges_demandTime g t kes s s' :
  for_each (reb_edge g t) kes s = Some s' → demandTime s' = demandTime s.
Proof.
  revert s. induction kes as [|[k [i j]] kes IH]; intros s Hs; cbn [for_each] in Hs.
  - by injection Hs as <-.
  - destruct (reb_edge g t s (k, (i, j))) as [s1|] eqn:H1; simpl in Hs; [|done].
    rewrite (IH s1 Hs). destruct (has_edge g (i, j)) eqn:He.
    + by apply reb_edge_move in H1 as (? & ? & ? & ? & ? & _ & _ & _ & _ & _ & ->).
    + rewrite reb_edge_skip in H1 by done. by injection H1 as <-.
Qed.

(** What a cycle of matching and rebalancing does to the books. *)
Lemma cycle_books shuffle demand_update h g s pr coin s1 o1 action h2 s2 o2 :
  h !! G s = Some g →
  closed_books s →
  times_nonneg (demandTime s) (time s) →
  times_nonneg (rebTime s) (time s) →
  arrival_slots_free g s →
  match_step_simple shuffle demand_update h s pr coin = Some (s1, o1) →
  reb_step h s1 action = Some (h2, s2, o2) →
  fleet s2 = fleet s ∧ time s2 = time s + 1 ∧ closed_books s2 ∧
  rebTime s2 = rebTime s ∧ demandTime s2 = demandTime s ∧ G s2 = G s ∧
  (∀ e k, (∀ τ, time_of (rebTime s) e (time s) = Some τ → k ≠ time s + τ) →
          landing (rebFlow s2) k e = landing (rebFlow s) k e) ∧
  ∃ g', h2 = <[G s := g']> h.
Proof.
  intros Hg [Hreg Hes Hends Hrebrows Hpaxrows] Hdt Hrt Hfree Hm Hr.
  unfold match_step_simple in Hm. rewrite Hg in Hm. simpl in Hm.
  destruct (for_each _ (region s) _) as [[sm d]|] eqn:Hloop; simpl in Hm; [|done].
  destruct (match_done sm (time s)); simpl in Hm; [|done].
  injection Hm as <- _.
  apply match_regions_books in Hloop as (Hsum1 & _ & Hrows1 & Hset1); [| done | done].
  simpl in Hsum1, Hrows1.
  destruct Hset1 as (Hr1 & He1 & Hrf1 & Hrt1 & Hdt1 & Ht1 & HG1). simpl in *.
  apply reb_step_Some in Hr as (g' & sa & sb & g'' & Hg' & Hreb & Hland & -> & _ & Hh2 & _).
  rewrite HG1, Hg in Hg'. injection Hg' as <-.
  unfold reb_loop in Hreb. unfold land_loop in Hland.
  rewrite Ht1 in Hreb, Hland.
  pose proof (reb_edges_static _ _ _ _ _ Hreb) as (Hrta & _ & Hea & Hta & _ & HGa & Hpfa & _).
  simpl in Hrta, Hea, Hta, Hpfa, HGa.
  pose proof (λ e k, reb_edges_landing _ _ _ _ _ e k Hreb) as Hwritten. simpl in Hwritten.
  pose proof (reb_edges_demandTime _ _ _ _ _ Hreb) as Hdta. simpl in Hdta.
  apply reb_edges_fleet in Hreb as (Hsum2 & Hr2 & Hrows2); simpl.
  2:{ by rewrite Hr1. }
  2:{ unfold enumerate. rewrite enumerate_from_snd. by rewrite He1. }
  2:{ intros k i j Hin%enumerate_elem_of. rewrite Hr1. apply (Hends i j). by rewrite <- He1. }
  2:{ by rewrite Hrt1. }
  2:{ intros k e τ Hin%enumerate_elem_of He Hτ. rewrite Hrf1.
      apply Hfree; [by rewrite <- He1 | done | by rewrite <- Hrt1]. }
  simpl in Hsum2, Hr2, Hrows2.
  unfold enumerate in Hrows2. rewrite enumerate_from_snd in Hrows2.
  rewrite Hea in Hland.
  destruct (land_edges_acc _ _ _ _ Hland) as [A ->].
  apply land_edges_parked in Hland as Hsum3.
  2:{ by rewrite Hr2, Hr1. }
  2:{ intros i j Hin. rewrite Hr2, Hr1. apply (Hends i j). by rewrite <- He1. }
  assert (Hrowsa : ∀ e, is_Some (rebFlow sa !! e) → e ∈ edges s).
  { intros e [He| He]%Hrows2; [apply Hrebrows; by rewrite <- Hrf1 | by rewrite <- He1]. }
  assert (Hrowsp : ∀ e, is_Some (paxFlow sa !! e) → e ∈ edges s).
  { intros e He. rewrite Hpfa in He. by apply Hpaxrows, Hrows1. }
  split; [|split; [|split; [|split_and!]]].
  - unfold fleet, parked. simpl. rewrite Hta, Ht1.
    assert (Hsa : in_flight (rebFlow sa) (time s) =
                  in_flight (rebFlow sa) (time s + 1) + lsum (landing (rebFlow sa) (time s)) (edges s))
      by (by apply in_flight_succ).
    assert (Hsp : in_flight (paxFlow sa) (time s) =
                  in_flight (paxFlow sa) (time s + 1) + lsum (landing (paxFlow sa) (time s)) (edges s))
      by (by apply in_flight_succ).
    unfold parked_at, reb_begin in Hsum2, Hsum3 |- *. simpl in Hsum2, Hsum3 |- *.
    rewrite Hr2, Hr1, Hrf1 in Hsum2. rewrite Hr2, Hr1, He1, Hpfa in Hsum3.
    rewrite Hpfa in Hsp. rewrite Hr2, Hr1, Hpfa. lia.
  - simpl. lia.
  - constructor; simpl.
    + by rewrite Hr2, Hr1.
    + by rewrite Hea, He1.
    + intros i j. rewrite Hea, He1, Hr2, Hr1. apply Hends.
    + rewrite Hea, He1. done.
    + rewrite Hea, He1. done.
  - simpl. congruence.
  - simpl. congruence.
  - simpl. congruence.
  - simpl. intros e k Hk. rewrite Hwritten, Hrf1; [done|]. by rewrite Hrt1.
  - simpl in Hh2. exists g''. rewrite Hh2. by rewrite HGa, HG1.
Qed.

(** X1. A cycle of matching and rebalancing keeps the fleet, as long as no
    rebalancing departure is booked under a key its edge already holds. *)
Theorem cycle_conserves_fleet shuffle demand_update h g s pr coin s1 o1 action h2 s2 o2 :
  h !! G s = Some g →
  closed_books s →
  times_nonneg (demandTime s) (time s) →
  times_nonneg (rebTime s) (time s) →
  arrival_slots_free g s →
  match_step_simple shuffle demand_update h s pr coin = Some (s1, o1) →
  reb_step h s1 action = Some (h2, s2, o2) →
  fleet s2 = fleet s.
Proof. intros. by eapply cycle_books. Qed.


(** The hypotheses of the theorem, as checks that can be run. *)
Lemma closed_books_check s :
  bool_decide (NoDup (region s)) = true →
  bool_decide (NoDup (edges s)) = true →
  bool_decide (Forall (λ e, e.1 ∈ region s ∧ e.2 ∈ region s) (edges s)) = true →
  bool_decide (map_Forall (λ e _, e ∈ edges s) (rebFlow s)) = true →
  bool_decide (map_Forall (λ e _, e ∈ edges s) (paxFlow s)) = true →
  closed_books s.
Proof.
  intros H1%bool_decide_eq_true_1 H2%bool_decide_eq_true_1 H3%bool_decide_eq_true_1
         H4%bool_decide_eq_true_1 H5%bool_decide_eq_true_1.
  constructor; [done | done | | |].
  - intros i j Hin. rewrite Forall_forall in H3. apply (H3 (i, j) Hin).
  - intros e [d Hd]. apply (H4 e d Hd).
  - intros e [d Hd]. apply (H5 e d Hd).
Qed.

Lemma times_nonneg_check tab t :
  bool_decide (map_Forall (λ _ tt, 0 ≤ default 0 (tt_get tt t)) tab) = true →
  times_nonneg tab t.
Proof.
  intros Hall%bool_decide_eq_true_1 e τ Hτ. unfold time_of in Hτ.
  destruct (tab !! e) as [tt|] eqn:He; simpl in Hτ; [|done].
  specialize (Hall e tt He). simpl in Hall. by rewrite Hτ in Hall.
Qed.

Lemma arrival_slots_free_check g s :
  bool_decide (Forall (λ e, has_edge g e = true →
                            landing (rebFlow s)
                              (time s + default 0 (time_of (rebTime s) e (time s))) e = 0)
                 (edges s)) = true →
  arrival_slots_free g s.
Proof.
  intros Hall%bool_decide_eq_true_1 e τ Hin He Hτ. rewrite Forall_forall in Hall.
  specialize (Hall e Hin He). by rewrite Hτ in Hall.
Qed.

(** Two regions with five vehicles each and one request from 0 to 1: one
    vehicle leaves with the passenger, two are rebalanced from 0 to 1, and
    seven parked plus three in flight are still ten. *)
Lemma cycle_conserves_fleet_witness :
  ∃ s1 o1 h2 s2 o2,
    match_step_simple shuffle42 no_elasticity (the_env env_free).1 (the_env env_free).2
      None (λ _, true) = Some (s1, o1) ∧
    reb_step (the_env env_free).1 s1 [2; 0; 0; 0] = Some (h2, s2, o2) ∧
    fleet (the_env env_free).2 = 10 ∧ fleet s2 = 10.
Proof.
  set (X := match_step_simple shuffle42 no_elasticity (the_env env_free).1
              (the_env env_free).2 None (λ _, true)).
  assert (E : X = Some (default (blank, blank_out) X)).
  { apply succeeds_Some. vm_compute. reflexivity. }
  assert (E2 : reb_step (the_env env_free).1 (default (blank, blank_out) X).1 [2; 0; 0; 0] =
               Some (default (∅, blank, blank_out)
                       (reb_step (the_env env_free).1 (default (blank, blank_out) X).1
                          [2; 0; 0; 0]))).
  { apply succeeds_Some. vm_compute. reflexivity. }
  assert (F : fleet (the_env env_free).2 = 10) by (vm_compute; reflexivity).
  assert (Hg : (the_env env_free).1 !! G (the_env env_free).2 =
               Some (default no_graph ((the_env env_free).1 !! G (the_env env_free).2))).
  { apply succeeds_Some. vm_compute. reflexivity. }
  assert (Hcb : closed_books (the_env env_free).2).
  { apply closed_books_check; vm_compute; reflexivity. }
  assert (Hdt : times_nonneg (demandTime (the_env env_free).2) (time (the_env env_free).2)).
  { apply times_nonneg_check. vm_compute. reflexivity. }
  assert (Hrt : times_nonneg (rebTime (the_env env_free).2) (time (the_env env_free).2)).
  { apply times_nonneg_check. vm_compute. reflexivity. }
  assert (Hfree : arrival_slots_free
                    (default no_graph ((the_env env_free).1 !! G (the_env env_free).2))
                    (the_env env_free).2).
  { apply arrival_slots_free_check. vm_compute. reflexivity. }
  destruct (default (blank, blank_out) X) as [s1 o1]. simpl in E2.
  destruct (default (∅, blank, blank_out) (reb_step _ s1 _)) as [[h2 s2] o2].
  exists s1, o1, h2, s2, o2.
  split; [exact E|]. split; [exact E2|]. split; [exact F|].
  rewrite <- F.
  exact (cycle_conserves_fleet _ _ _ _ _ _ _ _ _ _ _ _ _ Hg Hcb Hdt Hrt Hfree E E2).
Defined.

(** ** Episodes with steady rebalancing times *)

Section Episodes.

Context (shuffle : list Passenger.t → list Passenger.t).
Context (demand_update : Z → Qc → Qc → Qc → Z).



End Episodes.





(** ** The tally of a matching step *)

Lemma filter_ext_in {A} (P Q : A → Prop) `{!∀ x, Decision (P x), !∀ x, Decision (Q x)}
    (l : list A) :
  (∀ x, x ∈ l → P x ↔ Q x) → filter P l = filter Q l.
Proof.
  induction l as [|a l IH]; intros Hext; [done|].
  assert (Hl : filter P l = filter Q l).
  { apply IH. intros x Hx. apply Hext. by apply list_elem_of_further. }
  destruct (decide (P a)) as [Ha|Ha].
  - rewrite !filter_cons_True; [by rewrite Hl | | done].
    apply Hext; [apply list_elem_of_here|done].
  - rewrite !filter_cons_False; [done | | done].
    intros Hq. apply Ha, Hext; [apply list_elem_of_here|done].
Qed.

(** Dropping the positions of a duplicate-free selection. *)
Lemma filter_not_in_length (l1 l2 : list nat) :
  sublist l1 l2 → NoDup l2 →
  length (filter (λ x, x ∉ l1) l2) = (length l2 - length l1)%nat.
Proof.
  induction 1 as [|x l1 l2 Hsub IH|x l1 l2 Hsub IH]; intros Hnd.
  - done.
  - apply NoDup_cons in Hnd as [Hx Hnd].
    rewrite filter_cons_False by (intros Hn; apply Hn, list_elem_of_here).
    rewrite (filter_ext_in _ (λ y, y ∉ l1)).
    + by rewrite IH.
    + intros y Hy. split.
      * intros Hn Hin. apply Hn. by apply list_elem_of_further.
      * intros Hn [->|Hin]%elem_of_cons; done.
  - apply NoDup_cons in Hnd as [Hx Hnd].
    pose proof (sublist_length _ _ Hsub).
    rewrite filter_cons_True.
    + simpl. rewrite IH by done. lia.
    + intros Hin. apply Hx. by eapply elem_of_sublist.
Qed.

Lemma enumerate_from_filter_length {A} (P : nat → Prop) `{!∀ x, Decision (P x)}
    k (q : list A) :
  length (filter (λ ix : nat * A, P ix.1) (enumerate_from k q)) =
  length (filter P (seq k (length q))).
Proof.
  revert k. induction q as [|x q IH]; intros k; [done|].
  simpl. destruct (decide (P k)) as [Hk|Hk].
  - rewrite !filter_cons_True by done. simpl. by rewrite IH.
  - rewrite !filter_cons_False by done. by rewrite IH.
Qed.

(** The pruned queue is shorter by the number of pruned positions. *)
Lemma keep_unless_length {A} (index : list nat) (q : list A) :
  sublist index (seq 0 (length q)) →
  length (keep_unless index q) = (length q - length index)%nat.
Proof.
  intros Hsub. unfold keep_unless, enumerate. rewrite length_fmap.
  etrans; [exact (enumerate_from_filter_length (λ i : nat, i ∉ index) 0 q)|].
  rewrite filter_not_in_length; [by rewrite length_seq | done | apply NoDup_seq].
Qed.

(** What one passenger of the walk changes in the tally. *)
Lemma serve_pax_tally coin t n sv i p sv' :
  serve_pax coin t n sv (i, p) = Some sv' →
  let served s := served_demand (info (sv_env s)) in
  let unserved s := unserved_demand (info (sv_env s)) in
  (served sv' = served sv ∨ served sv' = served sv + 1) ∧
  (unserved sv' = unserved sv ∨ unserved sv' = unserved sv + 1) ∧
  sv_acc sv - sv_acc sv' = served sv' - served sv ∧
  (0 ≤ sv_acc sv → 0 ≤ sv_acc sv') ∧
  length (sv_seen sv') = S (length (sv_seen sv)) ∧
  (sv_index sv' = sv_index sv ∧ served sv' = served sv ∧ unserved sv' = unserved sv ∨
   sv_index sv' = sv_index sv ++ [i] ∧
   served sv' - served sv + (unserved sv' - unserved sv) = 1) ∧
  queue (sv_env sv') = queue (sv_env sv) ∧
  passenger (sv_env sv') = passenger (sv_env sv) ∧
  acc (sv_env sv') = acc (sv_env sv) ∧
  region (sv_env sv') = region (sv_env sv).
Proof.
  unfold serve_pax. intros Hs.
  assert (Hw : ∀ p0 d, wait_or_leave t i p0 d sv = Some sv' →
    let served s := served_demand (info (sv_env s)) in
    let unserved s := unserved_demand (info (sv_env s)) in
    (served sv' = served sv ∨ served sv' = served sv + 1) ∧
    (unserved sv' = unserved sv ∨ unserved sv' = unserved sv + 1) ∧
    sv_acc sv - sv_acc sv' = served sv' - served sv ∧
    (0 ≤ sv_acc sv → 0 ≤ sv_acc sv') ∧
    length (sv_seen sv') = S (length (sv_seen sv)) ∧
    (sv_index sv' = sv_index sv ∧ served sv' = served sv ∧ unserved sv' = unserved sv ∨
     sv_index sv' = sv_index sv ++ [i] ∧
     served sv' - served sv + (unserved sv' - unserved sv) = 1) ∧
    queue (sv_env sv') = queue (sv_env sv) ∧
    passenger (sv_env sv') = passenger (sv_env sv) ∧
    acc (sv_env sv') = acc (sv_env sv) ∧
    region (sv_env sv') = region (sv_env sv)).
  { intros p0 d. unfold wait_or_leave.
    destruct (Passenger.unmatched_update p0) as [p1 leave]. destruct leave.
    - destruct (add2 _ _ _ _); simpl; [|done]. intros [= <-]. simpl.
      rewrite length_app. simpl.
      split_and!; try done; try lia; auto. right. split; [done|lia].
    - intros [= <-]. simpl. rewrite length_app. simpl.
      split_and!; try done; try lia; auto. }
  case_bool_decide as Hacc; [|by eapply Hw].
  destruct (Passenger.match_ p t _) as [[p' accept]|]; simpl in Hs; [|done].
  destruct accept; [|by eapply Hw].
  destruct (time_of _ _ t) as [τ|]; simpl in Hs; [|done].
  destruct (add2 (paxFlow _) _ _ 1) as [pf|]; simpl in Hs; [|done].
  destruct (add2 (dacc _) _ _ 1) as [da|]; simpl in Hs; [|done].
  destruct (add2 (servedDemand _) _ _ 1) as [sd|]; simpl in Hs; [|done].
  destruct (np_add _ _ _) as [er|]; simpl in Hs; [|done].
  injection Hs as <-. simpl. rewrite length_app. simpl.
  split_and!; try done; try lia; auto. right. split; [done|lia].
Qed.

(** The walk over a queue: the positions it prunes are distinct positions
    of the queue, one for every passenger served or gone; every passenger
    served took one vehicle; and the count of vehicles stays within its
    bounds. *)
Lemma serve_queue_tally coin t n l sv sv' :
  for_each (serve_pax coin t n) (enumerate_from (length (sv_seen sv)) l) sv = Some sv' →
  sublist (sv_index sv) (seq 0 (length (sv_seen sv))) →
  let served s := served_demand (info (sv_env s)) in
  let unserved s := unserved_demand (info (sv_env s)) in
  served sv ≤ served sv' ∧ unserved sv ≤ unserved sv' ∧
  sv_acc sv - sv_acc sv' = served sv' - served sv ∧
  (0 ≤ sv_acc sv → 0 ≤ sv_acc sv') ∧
  length (sv_seen sv') = (length (sv_seen sv) + length l)%nat ∧
  sublist (sv_index sv') (seq 0 (length (sv_seen sv'))) ∧
  Z.of_nat (length (sv_index sv')) =
    Z.of_nat (length (sv_index sv)) + (served sv' - served sv) + (unserved sv' - unserved sv) ∧
  queue (sv_env sv') = queue (sv_env sv) ∧
  passenger (sv_env sv') = passenger (sv_env sv) ∧
  acc (sv_env sv') = acc (sv_env sv) ∧
  region (sv_env sv') = region (sv_env sv).
Proof.
  revert sv. induction l as [|p l IH]; intros sv Hs Hsub; cbn [for_each enumerate_from] in Hs.
  - injection Hs as <-. simpl. rewrite Nat.add_0_r. split_and!; try done; lia.
  - destruct (serve_pax coin t n sv _) as [sv1|] eqn:H1; simpl in Hs; [|done].
    apply serve_pax_tally in H1
      as (Hsv & Hun & Hacc & Hpos & Hseen & Hidx & Hq & Hp & Ha & Hr). simpl in *.
    rewrite <- Hseen in Hs.
    assert (Hsub1 : sublist (sv_index sv1) (seq 0 (length (sv_seen sv1)))).
    { rewrite Hseen, seq_S. simpl.
      destruct Hidx as [(-> & _)|(-> & _)].
      - by apply sublist_inserts_r.
      - by apply sublist_app. }
    destruct (IH sv1 Hs Hsub1)
      as (Hsv' & Hun' & Hacc' & Hpos' & Hseen' & Hsub' & Hlen' & Hq' & Hp' & Ha' & Hr').
    simpl in *.
    split_and!; try lia; try congruence; auto.
    rewrite Hlen'. destruct Hidx as [(-> & ? & ?)|(-> & ?)]; [lia|].
    rewrite length_app. simpl. lia.
Qed.

Section Tally.
Context (shuffle : list Passenger.t → list Passenger.t).
Context (demand_update : Z → Qc → Qc → Qc → Z).

Lemma arrive_dest_others pr t n s j s' :
  arrive_dest shuffle demand_update pr t n s j = Some s' →
  info s' = info s ∧ queue s' = queue s ∧ acc s' = acc s ∧ region s' = region s ∧
  ∀ m, m ≠ n → passenger s' !! m = passenger s !! m.
Proof.
  unfold arrive_dest. intros Hs.
  destruct (get2 (demand s) (n, j) t); simpl in Hs; [|done].
  destruct (price s !! (n, j) ≫= _); simpl in Hs; [|done].
  match type of Hs with
  | (?x ≫= _) = Some _ => destruct x as [[d p]|]; simpl in Hs; [|done]
  end.
  destruct (passenger s !! n); simpl in Hs; [|done].
  injection Hs as <-. simpl. split_and!; try done.
  intros m Hm. by rewrite lookup_insert_ne.
Qed.

Lemma arrive_dests_others pr t n js s s' :
  for_each (arrive_dest shuffle demand_update pr t n) js s = Some s' →
  info s' = info s ∧ queue s' = queue s ∧ acc s' = acc s ∧ region s' = region s ∧
  ∀ m, m ≠ n → passenger s' !! m = passenger s !! m.
Proof.
  revert s. induction js as [|j js IH]; intros s Hs; cbn [for_each] in Hs.
  - by injection Hs as <-.
  - destruct (arrive_dest _ _ _ _ _ s j) as [s1|] eqn:H1; simpl in Hs; [|done].
    apply arrive_dest_others in H1 as (Hi & Hq & Ha & Hr & Hp).
    apply IH in Hs as (Hi' & Hq' & Ha' & Hr' & Hp').
    split_and!; [congruence | congruence | congruence | congruence |].
    intros m Hm. rewrite Hp', Hp; done.
Qed.

(** The step's batch of region [n] after the call, and the entry into the
    queue: the queue grows by the batch. *)
Lemma enqueue_region_tally g pr t s n s' :
  enqueue_region shuffle demand_update g pr t s n = Some s' →
  info s' = info s ∧ acc s' = acc s ∧ region s' = region s ∧
  ∃ byTime batch,
    passenger s' !! n = Some byTime ∧ byTime !! t = Some batch ∧
    queue s' = <[n := default [] (queue s !! n) ++ batch]> (queue s) ∧
    ∀ m, m ≠ n → passenger s' !! m = passenger s !! m.
Proof.
  unfold enqueue_region. intros Hs.
  destruct (neighbors g n) as [js|]; simpl in Hs; [|done].
  destruct (for_each _ js s) as [s1|] eqn:H1; simpl in Hs; [|done].
  apply arrive_dests_others in H1 as (Hi & Hq & Ha & Hr & Hp).
  destruct (passenger s1 !! n) as [byTime|]; simpl in Hs; [|done].
  destruct (enter_all _) as [[b q]|] eqn:He; simpl in Hs; [|done].
  apply enter_all_spec in He as [-> _].
  injection Hs as <-. simpl. split; [done|]. split; [done|]. split; [done|].
  exists (<[t := b]> byTime), b. rewrite !lookup_insert_eq, Hq.
  split_and!; try done.
  intros m Hm. rewrite lookup_insert_ne by done. by apply Hp.
Qed.

(** One region of the matching step. *)
Lemma match_region_tally g pr coin t s d n s' d' :
  match_region shuffle demand_update g pr coin t (s, d) n = Some (s', d') →
  let served s := served_demand (info s) in
  let unserved s := unserved_demand (info s) in
  ∃ a a' byTime batch q',
    get2 (acc s) n t = Some a ∧ acc s' = set2 (acc s) n (t + 1) a' ∧
    region s' = region s ∧
    a - a' = served s' - served s ∧ (0 ≤ a → 0 ≤ a') ∧
    served s ≤ served s' ∧ unserved s ≤ unserved s' ∧
    passenger s' !! n = Some byTime ∧ byTime !! t = Some batch ∧
    queue s' !! n = Some q' ∧
    Z.of_nat (length q') + (served s' - served s) + (unserved s' - unserved s) =
      Z.of_nat (length (default [] (queue s !! n))) + Z.of_nat (length batch) ∧
    (∀ m, m ≠ n → passenger s' !! m = passenger s !! m ∧ queue s' !! m = queue s !! m).
Proof.
  unfold match_region. intros Hs.
  destruct (get2 (acc s) n t) as [a|]; simpl in Hs; [|done].
  destruct (enqueue_region _ _ g pr t s n) as [s1|] eqn:H1; simpl in Hs; [|done].
  apply enqueue_region_tally in H1 as (Hi & Ha & Hr & byTime & batch & Hp & Hb & Hq & Hpo).
  unfold serve_region in Hs.
  destruct (for_each _ _ _) as [sv|] eqn:H2; simpl in Hs; [|done].
  unfold enumerate in H2.
  apply (serve_queue_tally coin t n _
           {| sv_env := s1; sv_acc := a; sv_index := []; sv_seen := []; sv_draws := d |})
    in H2 as (Hsv & Hun & Hacc & Hpos & Hseen & Hsub & Hlen & Hq' & Hp' & Ha' & Hr');
    [|apply sublist_nil_l].
  simpl in *. injection Hs as <- <-. simpl.
  exists a, (sv_acc sv), byTime, batch, (keep_unless (sv_index sv) (sv_seen sv)).
  rewrite lookup_insert_eq, Hp', Hq', Ha', Ha, Hr', Hr, <- Hi.
  split_and!; try done; try lia.
  - rewrite keep_unless_length by done.
    pose proof (sublist_length _ _ Hsub) as Hle. rewrite length_seq in Hle.
    rewrite Hq, lookup_insert_eq in Hseen. simpl in Hseen.
    rewrite Hseen in Hle |- *. rewrite length_app in Hle |- *. lia.
  - intros m Hm. split; [by apply Hpo|].
    rewrite lookup_insert_ne by done. rewrite Hq. by rewrite lookup_insert_ne.
Qed.

End Tally.

Section TallyStep.
Context (shuffle : list Passenger.t → list Passenger.t).
Context (demand_update : Z → Qc → Qc → Qc → Z).

(** All regions of the matching step. *)
Lemma match_regions_tally g pr coin t ns s d s' d' :
  for_each (match_region shuffle demand_update g pr coin t) ns (s, d) = Some (s', d') →
  NoDup ns →
  let served s := served_demand (info s) in
  let unserved s := unserved_demand (info s) in
  served s ≤ served s' ∧ unserved s ≤ unserved s' ∧
  lsum (λ n, default 0 (get2 (acc s) n t)) ns -
    lsum (λ n, default 0 (get2 (acc s') n (t + 1))) ns = served s' - served s ∧
  (∀ n a, n ∈ ns → get2 (acc s) n t = Some a →
          ∃ a', get2 (acc s') n (t + 1) = Some a' ∧ a' ≤ a ∧ (0 ≤ a → 0 ≤ a')) ∧
  lsum (queue_len s') ns + (served s' - served s) + (unserved s' - unserved s) =
    lsum (queue_len s) ns + lsum (batch_len s' t) ns ∧
  (∀ n k, n ∉ ns ∨ k ≠ t + 1 → get2 (acc s') n k = get2 (acc s) n k) ∧
  region s' = region s ∧
  (∀ m, m ∉ ns → passenger s' !! m = passenger s !! m ∧ queue s' !! m = queue s !! m).
Proof.
  revert s d. induction ns as [|n ns IH]; intros s d Hs Hnd; cbn [for_each] in Hs.
  - injection Hs as <- <-. simpl. split_and!; try done; try lia.
    intros n a Hn. by apply elem_of_nil in Hn.
  - destruct (match_region _ _ g pr coin t (s, d) n) as [[s1 d1]|] eqn:H1;
      simpl in Hs; [|done].
    apply match_region_tally in H1
      as (a & a' & byTime & batch & q' & Ha & Hacc & Hreg & Hda & Hpos & Hsv & Hun &
          Hp & Hb & Hq & Hlen & Hoth).
    apply NoDup_cons in Hnd as [Hn Hnd].
    destruct (IH s1 d1 Hs Hnd)
      as (Hsv' & Hun' & Hsum' & Hsafe' & Hlen' & Hframe' & Hreg' & Hoth').
    simpl in *.
    assert (Hkeep : ∀ m, get2 (acc s1) m t = get2 (acc s) m t).
    { intros m. rewrite Hacc. apply get2_set2_ne_time. lia. }
    assert (Hn1 : get2 (acc s') n (t + 1) = Some a').
    { rewrite Hframe' by auto. rewrite Hacc. apply get2_set2_eq. }
    destruct (Hoth' n Hn) as [Hpn Hqn].
    split_and!; try lia; try congruence.
    + rewrite Hn1, Ha. simpl.
      rewrite <- (lsum_ext (λ m, default 0 (get2 (acc s1) m t))) by (intros; by rewrite Hkeep).
      lia.
    + intros m b [->|Hm]%elem_of_cons Hb'.
      * exists a'. rewrite Ha in Hb'. injection Hb' as <-. split; [done|]. split; [lia|done].
      * rewrite <- Hkeep in Hb'. destruct (Hsafe' m b Hm Hb') as (b' & ? & ? & ?). eauto.
    + assert (Hql : queue_len s' n = Z.of_nat (length q')).
      { unfold queue_len. by rewrite Hqn, Hq. }
      assert (Hbl : batch_len s' t n = Z.of_nat (length batch)).
      { unfold batch_len. rewrite Hpn, Hp. simpl. by rewrite Hb. }
      assert (Hqs : lsum (queue_len s1) ns = lsum (queue_len s) ns).
      { apply lsum_ext. intros m Hm. unfold queue_len.
        destruct (Hoth m) as [_ ->]; [by intros -> | done]. }
      rewrite Hql, Hbl. unfold queue_len at 2. lia.
    + intros m k Hmk. rewrite Hframe'.
      * rewrite Hacc. destruct (decide (k = t + 1)) as [->|Hk].
        -- rewrite get2_set2_ne_key; [done|]. intros ->.
           destruct Hmk as [Hmk|Hmk]; [|done]. apply Hmk, list_elem_of_here.
        -- by rewrite get2_set2_ne_time.
      * destruct Hmk as [Hmk|Hmk]; [left|by right].
        intros Hin. apply Hmk. by apply list_elem_of_further.
    + intros m Hm. destruct (Hoth' m) as [-> ->].
      * intros Hin. apply Hm. by apply list_elem_of_further.
      * apply Hoth. intros ->. apply Hm, list_elem_of_here.
Qed.

Lemma match_step_simple_Some h s pr coin s' o :
  match_step_simple shuffle demand_update h s pr coin = Some (s', o) →
  ∃ g d b,
    h !! G s = Some g ∧
    for_each (match_region shuffle demand_update g pr coin (time s)) (region s)
      (set_ext_reward (replicate (nregion s) 0%Qc) (set_reward 0%Qc s), 0%nat) = Some (s', d) ∧
    match_done s' (time s) = Some b ∧ out_done o = b ∧ out_info o = info s'.
Proof.
  unfold match_step_simple. intros Hm.
  destruct (h !! G s) as [g|]; simpl in Hm; [|done].
  destruct (for_each _ (region s) _) as [[sm d]|] eqn:Hloop; simpl in Hm; [|done].
  destruct (match_done sm (time s)) as [b|] eqn:Hd; simpl in Hm; [|done].
  injection Hm as <- <-. by exists g, d, b.
Qed.

(** X4. In a matching step every served passenger takes exactly one vehicle
    of a region: the vehicles booked for the next step are those of this
    step less the passengers served, no region gains a vehicle, and a
    region that holds a non-negative number of vehicles is never matched
    below zero. *)
Theorem match_step_simple_vehicles h s pr coin s' o :
  match_step_simple shuffle demand_update h s pr coin = Some (s', o) →
  NoDup (region s) →
  parked_at s (time s) - parked_at s' (time s + 1) =
    served_demand (info s') - served_demand (info s) ∧
  ∀ n a, n ∈ region s → get2 (acc s) n (time s) = Some a →
         ∃ a', get2 (acc s') n (time s + 1) = Some a' ∧ a' ≤ a ∧ (0 ≤ a → 0 ≤ a').
Proof.
  intros (g & d & b & Hg & Hloop & _)%match_step_simple_Some Hnd.
  apply match_regions_tally in Hloop as (_ & _ & Hsum & Hsafe & _ & _ & Hr & _); [|done].
  simpl in *. split; [|done].
  unfold parked_at. rewrite Hr. done.
Qed.

(** With every passenger of a batch entering the queue, as [Passenger.enter]
    is modelled, a matching step loses no passenger: over the regions,
    those left in the queues, those served and those gone unserved add up
    to those that were queued before plus the step's batches. *)
Lemma match_step_simple_passengers h s pr coin s' o :
  match_step_simple shuffle demand_update h s pr coin = Some (s', o) →
  NoDup (region s) →
  lsum (queue_len s') (region s)
    + (served_demand (info s') - served_demand (info s))
    + (unserved_demand (info s') - unserved_demand (info s)) =
  lsum (queue_len s) (region s) + lsum (batch_len s' (time s)) (region s).
Proof.
  intros (g & d & b & Hg & Hloop & _)%match_step_simple_Some Hnd.
  apply match_regions_tally in Hloop as (_ & _ & _ & _ & Hlen & _); [|done].
  exact Hlen.
Qed.

End TallyStep.

(** Two regions with five vehicles each and one request from 0 to 1 that is
    served: nine vehicles are booked for the next step. *)
Lemma match_step_simple_vehicles_witness :
  ∃ s' o,
    match_step_simple shuffle42 no_elasticity (the_env env_free).1 (the_env env_free).2
      None (λ _, true) = Some (s', o) ∧
    served_demand (info s') = 1 ∧ parked_at s' 1 = 9.
Proof.
  set (X := match_step_simple shuffle42 no_elasticity (the_env env_free).1
              (the_env env_free).2 None (λ _, true)).
  assert (E : X = Some (default (blank, blank_out) X)).
  { apply succeeds_Some. vm_compute. reflexivity. }
  assert (S1 : served_demand (info (default (blank, blank_out) X).1) = 1)
    by (vm_compute; reflexivity).
  assert (S0 : served_demand (info (the_env env_free).2) = 0) by (vm_compute; reflexivity).
  assert (P0 : parked_at (the_env env_free).2 (time (the_env env_free).2) = 10)
    by (vm_compute; reflexivity).
  assert (T0 : time (the_env env_free).2 + 1 = 1) by (vm_compute; reflexivity).
  assert (Hnd : NoDup (region (the_env env_free).2)).
  { apply (bool_decide_eq_true_1 _). vm_compute. reflexivity. }
  destruct (default (blank, blank_out) X) as [s' o]. simpl in S1.
  exists s', o. split; [exact E|]. split; [exact S1|].
  destruct (match_step_simple_vehicles _ _ _ _ _ _ _ _ E Hnd) as [Hsum _].
  rewrite P0, T0, S1, S0 in Hsum. lia.
Defined.

(** X5. The walk over the queue of a region (the queue as extended by the
    step's batch) loses no passenger and invents none: those still queued,
    those served and those gone unserved are the passengers it walked; each
    served passenger took one of the [accCurrent] vehicles, and the other
    queues are left alone. *)
Theorem serve_region_tally coin t accCurrent s draws n s' draws' :
  serve_region coin t accCurrent s draws n = Some (s', draws') →
  let served := served_demand (info s') - served_demand (info s) in
  let unserved := unserved_demand (info s') - unserved_demand (info s) in
  0 ≤ served ∧ 0 ≤ unserved ∧
  queue_len s' n + served + unserved = queue_len s n ∧
  get2 (acc s') n (t + 1) = Some (accCurrent - served) ∧
  ∀ m, m ≠ n → queue s' !! m = queue s !! m.
Proof.
  unfold serve_region. intros Hs.
  destruct (for_each _ _ _) as [sv|] eqn:H2; simpl in Hs; [|done].
  unfold enumerate in H2.
  apply (serve_queue_tally coin t n _
           {| sv_env := s; sv_acc := accCurrent; sv_index := []; sv_seen := [];
              sv_draws := draws |})
    in H2 as (Hsv & Hun & Hacc & Hpos & Hseen & Hsub & Hlen & Hq' & Hp' & Ha' & Hr');
    [|apply sublist_nil_l].
  simpl in *. injection Hs as <- <-. simpl.
  split_and!; try lia.
  - unfold queue_len. simpl. rewrite lookup_insert_eq. simpl.
    rewrite keep_unless_length by done.
    pose proof (sublist_length _ _ Hsub) as Hle. rewrite length_seq in Hle. lia.
  - rewrite get2_set2_eq. f_equal. lia.
  - intros m Hm. rewrite lookup_insert_ne by done. by rewrite Hq'.
Qed.

(** Scenario B after eleven cycles: the one passenger of region 0 is still
    queued and no vehicle is there; the walk accounts for the passenger. *)
Lemma serve_region_tally_witness :
  ∃ s' d,
    serve_region (λ _, true) 11 0 at_B11.2 0%nat 0 = Some (s', d) ∧
    queue_len s' 0
      + (served_demand (info s') - served_demand (info at_B11.2))
      + (unserved_demand (info s') - unserved_demand (info at_B11.2)) = 1.
Proof.
  assert (E : serve_region (λ _, true) 11 0 at_B11.2 0%nat 0
              = Some (default (blank, 0%nat)
                        (serve_region (λ _, true) 11 0 at_B11.2 0%nat 0))).
  { apply succeeds_Some. vm_compute. reflexivity. }
  assert (Q : queue_len at_B11.2 0 = 1) by (vm_compute; reflexivity).
  destruct (default _ (serve_region _ _ _ _ _ _)) as [s' d].
  exists s', d. split; [exact E|].
  destruct (serve_region_tally _ _ _ _ _ _ _ _ E) as (_ & _ & H & _).
  rewrite <- Q. exact H.
Defined.

(** ** What [reb_step] reads of its action vector *)

(** Two action vectors that agree at the positions of the graph's edges. *)
Lemma reb_step_sim h s g a1 a2 h1 s1 o1 :
  h !! G s = Some g →
  (∀ k e, edges s !! k = Some e → has_edge g e = true → a1 !! k = a2 !! k) →
  reb_step h s a1 = Some (h1, s1, o1) →
  ∃ s2, reb_step h s a2 = Some (h1, s2, o1) ∧ forget_rebAction s2 = forget_rebAction s1.
Proof.
  intros Hg Hagree Hstep.
  apply reb_step_Some in Hstep as (g0 & sm & sl & g' & Hg0 & Hreb & Hland & -> & Href & -> & ->).
  assert (g0 = g) as -> by congruence.
  unfold reb_loop in Hreb.
  destruct (reb_edges_sim g (time s) (edges s) 0 (reb_begin s a1) (reb_begin s a2) sm)
    as (sm2 & Hreb2 & Hf); [done| |done|].
  { intros n e Hn He. simpl. by eapply Hagree. }
  destruct (land_edges_sim (time s) (edges sm) sm sm2 sl Hf Hland) as (sl2 & Hland2 & Hf2).
  exists (set_time (time sl2 + 1) sl2).
  assert (Hedges : edges sm2 = edges sm) by (by pose proof (f_equal edges Hf) as E; simpl in E).
  assert (Hfin : forget_rebAction (set_time (time sl2 + 1) sl2)
                 = forget_rebAction (set_time (time sl + 1) sl)).
  { unfold forget_rebAction in *. destruct sl, sl2. simpl in *. simplify_eq. reflexivity. }
  pose proof (f_equal rebTime Hfin) as E1. pose proof (f_equal time Hfin) as E2.
  pose proof (f_equal G Hfin) as E3. pose proof (f_equal reward Hfin) as E4.
  pose proof (f_equal info Hfin) as E5. pose proof (f_equal ext_reward Hfin) as E6.
  pose proof (f_equal nregion Hfin) as E7. pose proof (f_equal tf Hfin) as E8.
  pose proof (f_equal acc Hfin) as E9. pose proof (f_equal dacc Hfin) as E10.
  pose proof (f_equal demand Hfin) as E11.
  simpl in E1, E2, E3, E4, E5, E6, E7, E8, E9, E10, E11.
  split; [|done].
  apply reb_step_Some. exists g, sm2, sl2, g'. split_and!; try done.
  - unfold land_loop. by rewrite Hedges.
  - simpl. simpl in Href. by rewrite E1, E2.
  - simpl. by rewrite E3.
  - unfold observe. simpl. by rewrite E2, E4, E5, E6, E7, E8, E9, E10, E11.
Qed.

(** X6. [reb_step] reads its action vector at the positions of the graph's
    edges and nowhere else: a call that returns had an entry at each of
    these positions (a shorter vector raises), and any vector with the same
    entries there returns the same results and leaves the same environment
    but for the stored vector; entries past the edge list are never read. *)
Theorem reb_step_action_width h s g a :
  h !! G s = Some g →
  (is_Some (reb_step h s a) →
   ∀ k e, edges s !! k = Some e → has_edge g e = true → (k < length a)%nat) ∧
  (∀ a' h1 s1 o1,
     (∀ k e, edges s !! k = Some e → has_edge g e = true → a !! k = a' !! k) →
     reb_step h s a = Some (h1, s1, o1) →
     ∃ s2, reb_step h s a' = Some (h1, s2, o1) ∧ forget_rebAction s2 = forget_rebAction s1) ∧
  (∀ surplus h1 s1 o1,
     reb_step h s a = Some (h1, s1, o1) →
     ∃ s2, reb_step h s (a ++ surplus) = Some (h1, s2, o1) ∧
           forget_rebAction s2 = forget_rebAction s1).
Proof.
  intros Hg.
  assert (Hwidth : is_Some (reb_step h s a) →
            ∀ k e, edges s !! k = Some e → has_edge g e = true → (k < length a)%nat).
  { intros [[[h1 s1] o1] Hstep] k [i j] Hk He.
    apply reb_step_Some in Hstep as (g0 & sm & _ & _ & Hg0 & Hreb & _).
    assert (g0 = g) as -> by congruence.
    apply reb_loop_clips_flow in Hreb as [Hclip _].
    destruct (Hclip k i j Hk He) as (_ & _ & _ & r_k & _ & _ & _ & _ & Hr & _).
    simpl in Hr. by apply lookup_lt_Some in Hr. }
  split; [done|]. split.
  - intros a' h1 s1 o1 Hagree Hstep. by eapply reb_step_sim.
  - intros surplus h1 s1 o1 Hstep. eapply reb_step_sim; [done| |done].
    intros k e Hk He. rewrite lookup_app_l; [done|].
    apply (Hwidth (ex_intro _ _ Hstep) k e Hk He).
Qed.

(** Scenario A after matching: the vector of four entries is wide enough
    for the edges (0,1) and (1,0) at the positions 1 and 3. *)
Lemma reb_step_action_width_witness :
  is_Some (reb_step at_A.1 at_A.2 [2; 0; 0; 0]) ∧
  ∀ k e, edges at_A.2 !! k = Some e →
         has_edge (default no_graph (at_A.1 !! G at_A.2)) e = true → (k < 4)%nat.
Proof.
  assert (E : is_Some (reb_step at_A.1 at_A.2 [2; 0; 0; 0])).
  { apply succeeds_is_Some. vm_compute. reflexivity. }
  assert (Hg : at_A.1 !! G at_A.2 = Some (default no_graph (at_A.1 !! G at_A.2))).
  { apply succeeds_Some. vm_compute. reflexivity. }
  split; [exact E|].
  exact (proj1 (reb_step_action_width _ _ _ [2; 0; 0; 0] Hg) E).
Defined.

(** ** What the phases leave alone *)

Lemma match_keeps_refl s : match_keeps s s.
Proof. by repeat split. Qed.

Lemma match_keeps_trans s1 s2 s3 : match_keeps s1 s2 → match_keeps s2 s3 → match_keeps s1 s3.
Proof.
  intros (Hsa & ? & ? & ? & ? & ? & ? & ? & ?) (Hsb & ? & ? & ? & ? & ? & ? & ? & ?).
  split; [by eapply same_setting_trans|]. repeat split; congruence.
Qed.

Lemma serve_pax_keeps coin t n sv ip sv' :
  serve_pax coin t n sv ip = Some sv' → match_keeps (sv_env sv) (sv_env sv').
Proof.
  destruct ip as [i pax]. unfold serve_pax. intros Hs.
  assert (Hw : ∀ p d, wait_or_leave t i p d sv = Some sv' →
                      match_keeps (sv_env sv) (sv_env sv')).
  { intros p d. unfold wait_or_leave.
    destruct (Passenger.unmatched_update p) as [p' leave]. destruct leave.
    - destruct (add2 _ _ _ _); simpl; [|done]. intros [= <-]. by repeat split.
    - intros [= <-]. by repeat split. }
  case_bool_decide; [|by eapply Hw].
  destruct (Passenger.match_ pax t _) as [[pax' accept]|]; simpl in Hs; [|done].
  destruct accept; [|by eapply Hw].
  destruct (time_of _ _ t) as [τ|]; simpl in Hs; [|done].
  destruct (add2 (paxFlow _) _ _ 1) as [pf|]; simpl in Hs; [|done].
  destruct (add2 (dacc _) _ _ 1) as [da|]; simpl in Hs; [|done].
  destruct (add2 (servedDemand _) _ _ 1) as [sd|]; simpl in Hs; [|done].
  destruct (np_add _ _ _) as [er|]; simpl in Hs; [|done].
  injection Hs as <-. by repeat split.
Qed.

Lemma serve_queue_keeps coin t n l sv sv' :
  for_each (serve_pax coin t n) l sv = Some sv' → match_keeps (sv_env sv) (sv_env sv').
Proof.
  revert sv. induction l as [|ip l IH]; intros sv Hs; cbn [for_each] in Hs.
  - injection Hs as <-. apply match_keeps_refl.
  - destruct (serve_pax coin t n sv ip) as [sv1|] eqn:H1; simpl in Hs; [|done].
    eapply match_keeps_trans; [by eapply serve_pax_keeps|by apply IH].
Qed.

Section Keeps.
Context (shuffle : list Passenger.t → list Passenger.t).
Context (demand_update : Z → Qc → Qc → Qc → Z).

Lemma arrive_dests_keeps pr t n js s s' :
  for_each (arrive_dest shuffle demand_update pr t n) js s = Some s' → match_keeps s s'.
Proof.
  revert s. induction js as [|j js IH]; intros s Hs; cbn [for_each] in Hs.
  - injection Hs as <-. apply match_keeps_refl.
  - destruct (arrive_dest _ _ _ _ _ s j) as [s1|] eqn:H1; simpl in Hs; [|done].
    eapply match_keeps_trans; [|by apply IH].
    clear Hs IH. unfold arrive_dest in H1.
    destruct (get2 (demand s) (n, j) t); simpl in H1; [|done].
    destruct (price s !! (n, j) ≫= _); simpl in H1; [|done].
    match type of H1 with
    | (?x ≫= _) = Some _ => destruct x as [[d p]|]; simpl in H1; [|done]
    end.
    destruct (passenger s !! n); simpl in H1; [|done].
    injection H1 as <-. by repeat split.
Qed.

Lemma match_regions_keeps g pr coin t ns s d s' d' :
  for_each (match_region shuffle demand_update g pr coin t) ns (s, d) = Some (s', d') →
  match_keeps s s'.
Proof.
  revert s d. induction ns as [|n ns IH]; intros s d Hs; cbn [for_each] in Hs.
  - injection Hs as <- <-. apply match_keeps_refl.
  - destruct (match_region _ _ g pr coin t (s, d) n) as [[s1 d1]|] eqn:H1;
      simpl in Hs; [|done].
    eapply match_keeps_trans; [|by eapply IH].
    clear Hs IH. unfold match_region in H1.
    destruct (get2 (acc s) n t) as [a|]; simpl in H1; [|done].
    destruct (enqueue_region _ _ g pr t s n) as [s2|] eqn:H2; simpl in H1; [|done].
    unfold enqueue_region in H2.
    destruct (neighbors g n) as [js|]; simpl in H2; [|done].
    destruct (for_each _ js s) as [s3|] eqn:H3; simpl in H2; [|done].
    apply arrive_dests_keeps in H3.
    destruct (passenger s3 !! n); simpl in H2; [|done].
    destruct (enter_all _) as [[b q]|]; simpl in H2; [|done].
    injection H2 as <-.
    unfold serve_region in H1.
    destruct (for_each _ _ _) as [sv|] eqn:H4; simpl in H1; [|done].
    apply serve_queue_keeps in H4. simpl in H4. injection H1 as <- <-.
    eapply match_keeps_trans; [exact H3|].
    eapply match_keeps_trans; [|eapply match_keeps_trans; [exact H4|]]; by repeat split.
Qed.

Lemma match_regions_history g pr coin t ns s d s' d' n k :
  for_each (match_region shuffle demand_update g pr coin t) ns (s, d) = Some (s', d') →
  k ≠ t + 1 → get2 (acc s') n k = get2 (acc s) n k.
Proof.
  revert s d. induction ns as [|m ns IH]; intros s d Hs Hk; cbn [for_each] in Hs.
  - by injection Hs as <- <-.
  - destruct (match_region _ _ g pr coin t (s, d) m) as [[s1 d1]|] eqn:H1;
      simpl in Hs; [|done].
    rewrite (IH s1 d1 Hs Hk).
    apply match_region_tally in H1 as (a & a' & ? & ? & ? & _ & -> & _).
    apply get2_set2_ne_time. congruence.
Qed.

(** X7. The matching phase writes one inventory per region, the one of the
    next step: the clock, the regions and edges, the travel-time, demand
    and price tables, the rebalancing ledger and every inventory of this
    and of earlier steps are as they were; and a mode other than 0, 1 or 2
    makes the call fail, since nothing sets its [done]. *)
Theorem match_step_simple_frame h s pr coin s' o :
  match_step_simple shuffle demand_update h s pr coin = Some (s', o) →
  match_keeps s s' ∧
  (∀ n k, k ≠ time s + 1 → get2 (acc s') n k = get2 (acc s) n k) ∧
  (mode s = 0 ∨ mode s = 1 ∨ mode s = 2) ∧
  out_done o = bool_decide (mode s = 1 ∧ tf s = time s + 1).
Proof.
  intros (g & d & b & Hg & Hloop & Hdone & Hb & _)%match_step_simple_Some.
  pose proof (match_regions_keeps _ _ _ _ _ _ _ _ _ Hloop) as Hk.
  assert (Hk' : match_keeps s s').
  { eapply match_keeps_trans; [|exact Hk]. by repeat split. }
  pose proof Hk' as (_ & _ & _ & Hmode & Htf & _).
  split; [exact Hk'|]. split.
  - intros n k Hne. by rewrite (match_regions_history _ _ _ _ _ _ _ _ _ n k Hloop Hne).
  - unfold match_done in Hdone. rewrite Hmode, Htf in Hdone. rewrite Hb.
    destruct (decide (mode s = 0)) as [H0|H0].
    { rewrite (bool_decide_eq_true_2 _ H0) in Hdone. simpl in Hdone. injection Hdone as <-.
      split; [auto|]. rewrite bool_decide_eq_false_2; [done|]. intros [? _]. lia. }
    rewrite (bool_decide_eq_false_2 _ H0) in Hdone.
    destruct (decide (mode s = 2)) as [H2|H2].
    { rewrite (bool_decide_eq_true_2 _ H2) in Hdone. simpl in Hdone. injection Hdone as <-.
      split; [auto|]. rewrite bool_decide_eq_false_2; [done|]. intros [? _]. lia. }
    rewrite (bool_decide_eq_false_2 _ H2) in Hdone. simpl in Hdone.
    destruct (decide (mode s = 1)) as [H1|H1].
    + rewrite (bool_decide_eq_true_2 _ H1) in Hdone. injection Hdone as <-.
      split; [auto|]. apply bool_decide_ext. tauto.
    + by rewrite (bool_decide_eq_false_2 _ H1) in Hdone.
Qed.

End Keeps.

(** Two regions with five vehicles each and one request, mode 0: the clock
    stays at 0 and the step is not the last. *)
Lemma match_step_simple_frame_witness :
  ∃ s' o,
    match_step_simple shuffle42 no_elasticity (the_env env_free).1 (the_env env_free).2
      None (λ _, true) = Some (s', o) ∧
    time s' = 0 ∧ out_done o = false.
Proof.
  set (X := match_step_simple shuffle42 no_elasticity (the_env env_free).1
              (the_env env_free).2 None (λ _, true)).
  assert (E : X = Some (default (blank, blank_out) X)).
  { apply succeeds_Some. vm_compute. reflexivity. }
  assert (T0 : time (the_env env_free).2 = 0) by (vm_compute; reflexivity).
  assert (M0 : mode (the_env env_free).2 = 0) by (vm_compute; reflexivity).
  destruct (default (blank, blank_out) X) as [s' o].
  exists s', o. split; [exact E|].
  destruct (match_step_simple_frame _ _ _ _ _ _ _ _ E)
    as (((_ & _ & _ & _ & _ & Ht & _) & _) & _ & _ & Hd).
  split; [by rewrite Ht|].
  rewrite Hd. apply bool_decide_eq_false_2. rewrite M0. intros [? _]. lia.
Defined.

(** The rebalancing loop sets these fields and no other. *)
Lemma reb_edges_shape g t kes s s' :
  for_each (reb_edge g t) kes s = Some s' →
  ∃ ra rf A D I r er,
    s' = set_ext_reward er (set_reward r (set_info I (set_dacc D (set_acc A
           (set_rebFlow rf (set_rebAction ra s)))))).
Proof.
  revert s. induction kes as [|[k [i j]] kes IH]; intros s Hs; cbn [for_each] in Hs.
  - injection Hs as <-.
    exists (rebAction s), (rebFlow s), (acc s), (dacc s), (info s), (reward s), (ext_reward s).
    by destruct s.
  - destruct (reb_edge g t s (k, (i, j))) as [s1|] eqn:H1; simpl in Hs; [|done].
    apply IH in Hs as (ra & rf & A & D & I & r & er & ->).
    destruct (has_edge g (i, j)) eqn:He.
    + apply reb_edge_move in H1 as (? & ? & ? & ? & ? & _ & _ & _ & _ & _ & ->); [|done].
      by exists ra, rf, A, D, I, r, er.
    + rewrite reb_edge_skip in H1 by done. injection H1 as <-.
      by exists ra, rf, A, D, I, r, er.
Qed.

Lemma reb_edges_history g t kes s s' n k :
  for_each (reb_edge g t) kes s = Some s' →
  k ≠ t + 1 → get2 (acc s') n k = get2 (acc s) n k.
Proof.
  revert s. induction kes as [|[k0 [i j]] kes IH]; intros s Hs Hk; cbn [for_each] in Hs.
  - by injection Hs as <-.
  - destruct (reb_edge g t s (k0, (i, j))) as [s1|] eqn:H1; simpl in Hs; [|done].
    rewrite (IH s1 Hs Hk). destruct (has_edge g (i, j)) eqn:He.
    + apply reb_edge_move in H1 as (? & ? & ? & ? & ? & _ & _ & _ & _ & _ & ->); [|done].
      simpl. apply get2_set2_ne_time. congruence.
    + rewrite reb_edge_skip in H1 by done. by injection H1 as <-.
Qed.

(** X8. [reb_step] advances the clock by one and rewrites no inventory but
    the one of the next step; it leaves the passengers, the queues, the
    demand and price tables, the passenger ledger and the served and
    unserved counts alone, and of the heap it writes the environment's own
    graph only. *)
Theorem reb_step_frame h s action h' s' o :
  reb_step h s action = Some (h', s', o) →
  time s' = time s + 1 ∧
  out_done o = bool_decide (tf s = time s + 1) ∧
  (∀ n k, k ≠ time s + 1 → get2 (acc s') n k = get2 (acc s) n k) ∧
  (∀ l, l ≠ G s → h' !! l = h !! l) ∧
  region s' = region s ∧ edges s' = edges s ∧
  passenger s' = passenger s ∧ queue s' = queue s ∧ arrivals s' = arrivals s ∧
  demand s' = demand s ∧ price s' = price s ∧ paxFlow s' = paxFlow s ∧
  servedDemand s' = servedDemand s ∧ unservedDemand s' = unservedDemand s ∧
  demandTime s' = demandTime s ∧ rebTime s' = rebTime s.
Proof.
  intros (g & s1 & s2 & g' & Hg & Hreb & Hland & -> & _ & -> & ->)%reb_step_Some.
  unfold reb_loop in Hreb. unfold land_loop in Hland.
  pose proof (λ n k, reb_edges_history _ _ _ _ _ n k Hreb) as Hacc1.
  pose proof (λ n k, land_edges_other _ _ _ _ n k Hland) as Hacc2.
  apply reb_edges_shape in Hreb as (ra & rf & A & D & I & r & er & ->).
  apply land_edges_acc in Hland as (A' & ->).
  simpl in *. split_and!; try done.
  - intros n k Hk. rewrite Hacc2, Hacc1; done.
  - intros l Hl. by rewrite lookup_insert_ne.
Qed.

(** Scenario A after its first matching phase: the rebalancing step moves
    the clock from 0 to 1 and keeps the inventories of step 0. *)
Lemma reb_step_frame_witness :
  ∃ h' s' o,
    reb_step at_A.1 at_A.2 [2; 0; 0; 0] = Some (h', s', o) ∧
    time s' = 1 ∧ get2 (acc s') 0 0 = Some 5.
Proof.
  assert (E : reb_step at_A.1 at_A.2 [2; 0; 0; 0]
              = Some (default (∅, blank, blank_out) (reb_step at_A.1 at_A.2 [2; 0; 0; 0]))).
  { apply succeeds_Some. vm_compute. reflexivity. }
  assert (T0 : time at_A.2 = 0) by (vm_compute; reflexivity).
  assert (A0 : get2 (acc at_A.2) 0 0 = Some 5) by (vm_compute; reflexivity).
  destruct (default _ (reb_step _ _ _)) as [[h' s'] o].
  exists h', s', o. split; [exact E|].
  destruct (reb_step_frame _ _ _ _ _ _ E) as (Ht & _ & Hacc & _).
  split; [by rewrite Ht, T0|].
  rewrite Hacc; [exact A0|]. rewrite T0. lia.
Defined.

(** ** When the construction succeeds *)

(** A loop returns when every iteration does, under an invariant that
    decides which iterations do. *)
Lemma for_each_is_Some {A S} (f : S → A → option S) (P : A → Prop) (Inv : S → Prop) l s :
  Inv s →
  (∀ s x, Inv s → x ∈ l → is_Some (f s x) ↔ P x) →
  (∀ s x s', Inv s → f s x = Some s' → Inv s') →
  is_Some (for_each f l s) ↔ Forall P l.
Proof.
  intros HI Hiff Hpres. revert s HI. induction l as [|x l IH]; intros s HI; cbn [for_each].
  - split; [constructor|eauto].
  - assert (IH' : ∀ s, Inv s → is_Some (for_each f l s) ↔ Forall P l).
    { apply IH. intros s0 y H0 Hy. apply Hiff; [done|by apply list_elem_of_further]. }
    rewrite Forall_cons. destruct (f s x) as [s1|] eqn:H1; simpl.
    + rewrite (IH' s1 (Hpres _ _ _ HI H1)).
      assert (P x) by (apply (Hiff s x HI); [apply list_elem_of_here|by rewrite H1]).
      tauto.
    + split; [by intros [? ?]|].
      intros [Hx _]. apply (Hiff s x HI) in Hx; [|apply list_elem_of_here].
      rewrite H1 in Hx. by destruct Hx.
Qed.

Lemma region_rows_init nodes : region_rows nodes (list_to_map ((λ i, (i, zeros)) <$> nodes)).
Proof.
  intros i. destruct (list_to_map _ !! i) as [d|] eqn:Hd.
  - apply elem_of_list_to_map_2 in Hd. apply list_elem_of_fmap in Hd as (j & [= -> ->] & Hj).
    done.
  - apply not_elem_of_list_to_map_2 in Hd. intros Hi. apply Hd.
    rewrite <- list_fmap_compose. apply list_elem_of_fmap. by exists i.
Qed.

Lemma add2_strict_rows nodes m k t v :
  region_rows nodes m →
  (is_Some (add2_strict m k t v) ↔ k ∈ nodes) ∧
  ∀ m', add2_strict m k t v = Some m' → region_rows nodes m'.
Proof.
  intros Hrows. unfold add2_strict. pose proof (Hrows k) as Hk.
  destruct (m !! k) as [d|] eqn:Hd; simpl.
  - destruct Hk as [Hk Hdf]. unfold dict_get. rewrite Hdf.
    destruct (items d !! t) as [x|]; simpl.
    + split; [split; eauto|]. intros m' [= <-] i.
      destruct (decide (i = k)) as [->|Hne]; [by rewrite lookup_insert_eq|].
      rewrite lookup_insert_ne by done. apply Hrows.
    + split; [split; eauto|]. intros m' [= <-] i.
      destruct (decide (i = k)) as [->|Hne]; [by rewrite lookup_insert_eq|].
      rewrite lookup_insert_ne by done. apply Hrows.
  - split; [|done]. split; [by intros [? ?]|done].
Qed.

Lemma load_trip_is_Some g tab s tr :
  region_rows (g_nodes g) (depDemand s) → region_rows (g_nodes g) (arrDemand s) →
  demandTime s = tab →
  (is_Some (load_trip s tr) ↔ trip_loadable g tab tr) ∧
  ∀ s', load_trip s tr = Some s' →
        region_rows (g_nodes g) (depDemand s') ∧ region_rows (g_nodes g) (arrDemand s') ∧
        demandTime s' = tab.
Proof.
  intros Hdep Harr Htab. destruct tr as [[[[i j] t] d] p].
  unfold load_trip, trip_loadable. simpl. rewrite Htab.
  destruct (add2_strict_rows _ _ i t d Hdep) as [Hd1 Hd2].
  destruct (add2_strict (depDemand s) i t d) as [dep|] eqn:Edep; simpl.
  - assert (Hi : i ∈ g_nodes g) by (apply Hd1; eauto).
    destruct (time_of tab (i, j) t) as [τ|] eqn:Eτ; simpl.
    + destruct (add2_strict_rows _ _ i (t + τ) d Harr) as [Ha1 Ha2].
      destruct (add2_strict (arrDemand s) i (t + τ) d) as [arr|] eqn:Earr; simpl.
      * split; [split; eauto|]. intros s' [= <-]. simpl. split_and!; eauto.
      * exfalso. apply Ha1 in Hi. by destruct Hi.
    + split; [|done]. split; [by intros [? ?]|]. intros [_ [? ?]]. done.
  - split; [|done]. split; [by intros [? ?]|].
    intros [Hi _]. apply Hd1 in Hi. by destruct Hi.
Qed.

Lemma load_trips_is_Some g tab trips s :
  region_rows (g_nodes g) (depDemand s) → region_rows (g_nodes g) (arrDemand s) →
  demandTime s = tab →
  is_Some (for_each load_trip trips s) ↔ Forall (trip_loadable g tab) trips.
Proof.
  intros Hdep Harr Htab.
  apply (for_each_is_Some load_trip (trip_loadable g tab)
           (λ s, region_rows (g_nodes g) (depDemand s) ∧
                 region_rows (g_nodes g) (arrDemand s) ∧ demandTime s = tab)).
  - done.
  - intros s0 tr (? & ? & ?) _. by apply load_trip_is_Some.
  - intros s0 tr s' (? & ? & ?) Hs. by eapply load_trip_is_Some.
Qed.

Lemma build_edges_is_Some g :
  is_Some (build_edges g) ↔ Forall (λ n, is_Some (g_adj g !! n)) (g_nodes g).
Proof.
  unfold build_edges.
  rewrite <- (for_each_is_Some (λ es i, oe ← out_edges g i; Some (es ++ (i, i) :: oe))
                (λ n, is_Some (g_adj g !! n)) (λ _, True) (g_nodes g) []); [| done | | done].
  - destruct (for_each _ _ _); simpl; split; intros [? ?]; simplify_eq/=; eauto.
  - intros es i _ _. unfold out_edges, neighbors.
    destruct (g_adj g !! i); simpl; split; intros [? ?]; simplify_eq/=; eauto.
Qed.

Lemma nedge_is_Some g :
  is_Some (mapM (λ n, oe ← out_edges g n; Some (S (length oe))) (g_nodes g)) ↔
  Forall (λ n, is_Some (g_adj g !! n)) (g_nodes g).
Proof.
  rewrite mapM_is_Some. apply Forall_iff. intros n. simpl.
  unfold out_edges, neighbors. destruct (g_adj g !! n); simpl; split; intros [? ?]; simplify_eq/=; eauto.
Qed.

Lemma refresh_edge_times_is_Some tab now g :
  is_Some (refresh_edge_times tab now g) ↔
  Forall (λ e, is_Some (time_of tab e now)) (g_edges g).
Proof.
  unfold refresh_edge_times.
  apply (for_each_is_Some _ (λ e, is_Some (time_of tab e now)) (λ _, True)); [done| |done].
  intros g0 e _ _. destruct (time_of tab e now); simpl; split; intros [? ?]; simplify_eq/=; eauto.
Qed.

Lemma seed_regions_is_Some g ns s :
  is_Some (for_each (seed_region g) ns s) ↔ Forall (λ n, is_Some (g_accInit g !! n)) ns.
Proof.
  apply (for_each_is_Some _ (λ n, is_Some (g_accInit g !! n)) (λ _, True)); [done| |done].
  intros s0 n _ _. unfold seed_region.
  destruct (g_accInit g !! n); simpl; split; intros [? ?]; simplify_eq/=; eauto.
Qed.

(** X9. The construction returns exactly when the scenario has its
    attribute [tstep], its graph is there with an adjacency row and an
    'accInit' for every node, every edge of the graph has a rebalancing time
    at time 0, and every trip starts in a region and has a travel time at
    its request time; anything else raises. *)
Theorem init_succeeds_iff h sc md b :
  is_Some (init h sc md b) ↔
  is_Some (Scenario.tstep sc) ∧
  ∃ g, h !! Scenario.G sc = Some g ∧ nodes_complete g ∧
       (∀ e, e ∈ g_edges g → is_Some (time_of (Scenario.rebTime sc) e 0)) ∧
       Forall (trip_loadable g (Scenario.demandTime sc)) (Scenario.tripAttr sc).
Proof.
  unfold init, Scenario.deepcopy.
  destruct (h !! Scenario.G sc) as [g|] eqn:Hg; simpl.
  2:{ split; [by intros [? ?]|]. by intros (_ & g & ? & _). }
  assert (Hne : fresh (dom h) ≠ Scenario.G sc).
  { intros Heq. apply (is_fresh (dom h)). rewrite Heq. apply elem_of_dom. eauto. }
  rewrite lookup_insert_ne by done. rewrite Hg. simpl.
  destruct (Scenario.tstep sc) as [ts|]; simpl.
  2:{ split; [by intros [? ?]|]. by intros [[? ?] _]. }
  match goal with
  | |- context [for_each load_trip _ ?s0] =>
      pose proof (load_trips_is_Some g (Scenario.demandTime sc) (Scenario.tripAttr sc) s0
                    (region_rows_init _) (region_rows_init _) eq_refl) as HL;
      destruct (for_each load_trip (Scenario.tripAttr sc) s0) as [s1|] eqn:H1
  end; simpl.
  2:{ split; [by intros [? ?]|]. intros (_ & g0 & [= <-] & _ & _ & Htr).
      apply HL in Htr. by destruct Htr. }
  apply load_trips_frame in H1 as (_ & _ & Hrt & Htm & _). simpl in Hrt, Htm.
  pose proof (build_edges_is_Some g) as HB.
  pose proof (nedge_is_Some g) as HM.
  destruct (build_edges g) as [es|]; simpl.
  2:{ split; [by intros [? ?]|]. intros (_ & g0 & [= <-] & Hnodes & _).
      assert (Hadj : Forall (λ n, is_Some (g_adj g !! n)) (g_nodes g)).
      { apply Forall_forall. intros n Hn. by apply Hnodes. }
      apply HB in Hadj. by destruct Hadj. }
  destruct (mapM _ (g_nodes g)) as [ne|]; simpl.
  2:{ split; [by intros [? ?]|]. intros (_ & g0 & [= <-] & Hnodes & _).
      assert (Hadj : Forall (λ n, is_Some (g_adj g !! n)) (g_nodes g)).
      { apply Forall_forall. intros n Hn. by apply Hnodes. }
      apply HM in Hadj. by destruct Hadj. }
  rewrite Hrt, Htm.
  pose proof (refresh_edge_times_is_Some (Scenario.rebTime sc) 0 g) as HR.
  destruct (refresh_edge_times (Scenario.rebTime sc) 0 g) as [g'|] eqn:Hg'; simpl.
  2:{ split; [by intros [? ?]|]. intros (_ & g0 & [= <-] & _ & Hed & _).
      assert (Hall : Forall (λ e, is_Some (time_of (Scenario.rebTime sc) e 0)) (g_edges g))
        by (by apply Forall_forall).
      apply HR in Hall. by destruct Hall. }
  apply refresh_edge_times_get in Hg' as (Hn' & Hacc' & _).
  match goal with
  | |- context [for_each (seed_region g') _ ?s2] =>
      pose proof (seed_regions_is_Some g' (g_nodes g) s2) as HS;
      destruct (for_each (seed_region g') (g_nodes g) s2) as [s3|]
  end; simpl.
  2:{ split; [by intros [? ?]|]. intros (_ & g0 & [= <-] & Hnodes & _).
      assert (Hall : Forall (λ n, is_Some (g_accInit g' !! n)) (g_nodes g)).
      { apply Forall_forall. intros n Hn. rewrite Hacc'. by apply Hnodes. }
      apply HS in Hall. by destruct Hall. }
  split; [|eauto]. intros _. split; [eauto|]. exists g. split; [done|].
  assert (HB' : Forall (λ n, is_Some (g_adj g !! n)) (g_nodes g)) by (apply HB; eauto).
  assert (HS' : Forall (λ n, is_Some (g_accInit g' !! n)) (g_nodes g)) by (apply HS; eauto).
  assert (HR' : Forall (λ e, is_Some (time_of (Scenario.rebTime sc) e 0)) (g_edges g))
    by (apply HR; eauto).
  rewrite Forall_forall in HB'. rewrite Forall_forall in HS'. rewrite Forall_forall in HR'.
  rewrite Hacc' in HS'.
  split_and!.
  - intros n Hn. split; [by apply HB'|by apply HS'].
  - done.
  - apply HL. eauto.
Qed.

(** The scenario of a grid as its constructor leaves it has no [tstep]:
    the construction of an environment on it raises. *)
Lemma init_needs_tstep h sc l md b :
  init h (GridScenario.to_scenario sc l None) md b = None.
Proof.
  unfold init, Scenario.deepcopy. simpl.
  destruct (h !! l) as [g|] eqn:Hg; simpl; [|done].
  assert (Hne : fresh (dom h) ≠ l).
  { intros Heq. apply (is_fresh (dom h)). rewrite Heq. apply elem_of_dom. eauto. }
  rewrite lookup_insert_ne by done. by rewrite Hg.
Qed.

(** Without rebalancing times the construction of scenario A raises. *)
Lemma init_needs_rebalancing_times :
  init (line_heap 2 5) (line_scenario 2 4 quiet (Qc_of_Z 3) ∅) 0 (Q2Qc (1 # 10)) = None.
Proof. vm_compute. reflexivity. Qed.

(** ** What the construction builds *)

Lemma load_trips_tables trips s s' :
  for_each load_trip trips s = Some s' →
  demand s' = foldl (λ m tr, let '(i, j, t, d, _) := tr in set2 m (i, j) t d) (demand s) trips ∧
  price s' = foldl (λ m tr, let '(i, j, t, _, p) := tr in
                            <[(i, j) := <[t := p]> (default ∅ (m !! (i, j)))]> m)
               (price s) trips ∧
  rebFlow s' = rebFlow s ∧ paxFlow s' = paxFlow s ∧
  servedDemand s' = servedDemand s ∧ unservedDemand s' = unservedDemand s.
Proof.
  revert s. induction trips as [|[[[[i j] t] d] p] trips IH]; intros s Hs; cbn [for_each] in Hs.
  - by injection Hs as <-.
  - destruct (load_trip s (i, j, t, d, p)) as [s1|] eqn:H1; simpl in Hs; [|done].
    apply IH in Hs as (-> & -> & -> & -> & -> & ->).
    unfold load_trip in H1.
    repeat match type of H1 with
           | (?x ≫= _) = Some _ => destruct x; simpl in H1; [|done]
           end.
    by injection H1 as <-.
Qed.

Lemma init_state h sc md b h' s :
  init h sc md b = Some (h', s) →
  ∃ g,
    h !! Scenario.G sc = Some g ∧ region s = g_nodes g ∧ time s = 0 ∧
    demand s = demand_of_trips (Scenario.tripAttr sc) ∧
    price s = price_of_trips (Scenario.tripAttr sc) ∧
    (∀ n, acc s !! n =
          if bool_decide (n ∈ g_nodes g) then seeded <$> g_accInit g !! n else None) ∧
    (∀ n, n ∈ g_nodes g → is_Some (g_accInit g !! n)) ∧
    (∀ n, dacc s !! n = if bool_decide (n ∈ g_nodes g) then Some zeros else None) ∧
    (∀ e, rebFlow s !! e = if bool_decide (e ∈ g_edges g) then Some zeros else None) ∧
    (∀ e, paxFlow s !! e = match demand s !! e with Some _ => Some zeros | None => None end).
Proof.
  unfold init, Scenario.deepcopy. intros Hs.
  destruct (h !! Scenario.G sc) as [g|] eqn:Hg; simpl in Hs; [|done].
  assert (Hne : fresh (dom h) ≠ Scenario.G sc).
  { intros Heq. apply (is_fresh (dom h)). rewrite Heq. apply elem_of_dom. eauto. }
  rewrite lookup_insert_ne in Hs by done. rewrite Hg in Hs. simpl in Hs.
  destruct (Scenario.tstep sc) as [ts|] eqn:Hts; simpl in Hs; [|done].
  destruct (for_each load_trip _ _) as [s1|] eqn:H1; simpl in Hs; [|done].
  pose proof (load_trips_tables _ _ _ H1) as (Hdm & Hpr & Hrf & Hpf & _).
  apply load_trips_frame in H1 as (_ & _ & Hrt & Htm & Hrg & Hacc & Hdacc & _). simpl in *.
  destruct (build_edges g) as [es|]; simpl in Hs; [|done].
  destruct (mapM _ (g_nodes g)) as [ne|]; simpl in Hs; [|done].
  rewrite Hrt, Htm in Hs.
  destruct (refresh_edge_times _ 0 g) as [g'|] eqn:Hr; simpl in Hs; [|done].
  apply refresh_edge_times_get in Hr as (Hn' & Hai' & _).
  match type of Hs with
  | (for_each _ _ ?s2 ≫= _) = _ =>
      destruct (for_each (seed_region g') (g_nodes g) s2) as [s3|] eqn:Hseed;
        simpl in Hs; [|done];
      apply (seed_regions_spec g' (g_nodes g) s2 s3 []) in Hseed
        as (A & D & -> & HA & Hdef & HD)
  end.
  - injection Hs as <- <-. simpl in HA, Hdef, HD. exists g. simpl.
    rewrite Hai' in HA, Hdef.
    split_and!; try done.
    + intros e. by rewrite foldl_zeros_lookup, Hrf, lookup_empty.
    + intros e. rewrite fill_zeros_lookup, Hpf, lookup_empty. done.
  - intros n. simpl. by rewrite Hacc, lookup_empty.
  - intros n Hn. by apply elem_of_nil in Hn.
  - intros n. simpl. by rewrite Hdacc, lookup_empty.
Qed.

Lemma reset_state h s trips s' obs :
  reset h s trips = Some (s', obs) →
  ∃ g,
    h !! G s = Some g ∧ time s' = 0 ∧ region s' = region s ∧
    demand s' = demand_of_trips trips ∧
    (∀ n, acc s' !! n =
          if bool_decide (n ∈ g_nodes g) then seeded <$> g_accInit g !! n else None) ∧
    (∀ n, n ∈ g_nodes g → is_Some (g_accInit g !! n)) ∧
    (∀ n, dacc s' !! n = if bool_decide (n ∈ g_nodes g) then Some zeros else None) ∧
    (∀ e, rebFlow s' !! e = if bool_decide (e ∈ g_edges g) then Some zeros else None) ∧
    (∀ e, paxFlow s' !! e = if bool_decide (e ∈ g_edges g) then Some zeros else None) ∧
    obs = observe s'.
Proof.
  unfold reset. intros Hs.
  destruct (h !! G s) as [g|] eqn:Hg; simpl in Hs; [|done].
  destruct (build_edges g) as [es|] eqn:Hes; simpl in Hs; [|done].
  match type of Hs with
  | context [foldl load_demand ?s0 trips] =>
      destruct (load_demands_spec trips s0) as [R HR]; rewrite HR in Hs; clear HR
  end.
  simpl in Hs.
  match type of Hs with
  | (for_each _ _ ?s1 ≫= _) = _ =>
      destruct (for_each (seed_region g) (g_nodes g) s1) as [s2|] eqn:Hseed; simpl in Hs; [|done];
      apply (seed_regions_spec g (g_nodes g) s1 s2 []) in Hseed
        as (A & D & -> & HA & Hdef & HD)
  end.
  - injection Hs as <- <-. simpl in HA, Hdef, HD. exists g. simpl.
    split_and!; try done.
    + intros e. by rewrite foldl_zeros_lookup, lookup_empty.
    + intros e. by rewrite foldl_zeros_lookup, lookup_empty.
  - intros n. simpl. by rewrite lookup_empty.
  - intros n Hn. by apply elem_of_nil in Hn.
  - intros n. simpl. by rewrite lookup_empty.
Qed.

Lemma msum_zero `{Countable K} {V} (f : K → V → Z) (m : gmap K V) :
  (∀ k v, m !! k = Some v → f k v = 0) → msum f m = 0.
Proof.
  intros Hz. rewrite (msum_ext f (λ _ _, 0)) by done.
  induction m as [|k v m Hk IH] using map_ind; [apply msum_empty|].
  rewrite msum_insert by done. rewrite IH; [done|].
  intros k' v' Hk'. apply Hz. rewrite lookup_insert_ne; [done|]. intros ->. congruence.
Qed.

(** A ledger with empty rows has nothing in flight. *)
Lemma in_flight_fresh (m : gmap Edge PyDict) t :
  (∀ e d, m !! e = Some d → d = zeros) → in_flight m t = 0.
Proof.
  intros Hrows. apply msum_zero. intros e d Hd. rewrite (Hrows e d Hd). apply msum_empty.
Qed.

Lemma parked_seeded s g :
  region s = g_nodes g →
  (∀ n, acc s !! n =
        if bool_decide (n ∈ g_nodes g) then seeded <$> g_accInit g !! n else None) →
  parked_at s 0 = lsum (λ n, default 0 (g_accInit g !! n)) (g_nodes g).
Proof.
  intros Hr HA. unfold parked_at. rewrite Hr. apply lsum_ext. intros n Hn.
  unfold get2, sub. rewrite HA, bool_decide_eq_true_2 by done.
  destruct (g_accInit g !! n) as [a|]; simpl; [|done].
  unfold dict_get, seeded. simpl. by rewrite lookup_singleton_eq.
Qed.

Lemma rows_fresh (m : gmap Edge PyDict) (P : Edge → Prop) `{!∀ e, Decision (P e)} :
  (∀ e, m !! e = if bool_decide (P e) then Some zeros else None) →
  ∀ e d, m !! e = Some d → d = zeros.
Proof. intros Hm e d Hd. rewrite Hm in Hd. case_bool_decide; congruence. Qed.

(** X10. A constructed environment holds the vehicles its graph was seeded
    with, all parked and none in flight. *)
Theorem init_seeds_fleet h sc md b h' s :
  init h sc md b = Some (h', s) →
  ∃ g, h !! Scenario.G sc = Some g ∧
       fleet s = lsum (λ n, default 0 (g_accInit g !! n)) (g_nodes g) ∧
       parked s = fleet s.
Proof.
  intros (g & Hg & Hr & Ht & _ & _ & HA & _ & _ & Hrf & Hpf)%init_state.
  exists g. split; [done|].
  assert (H1 : in_flight (rebFlow s) (time s) = 0).
  { apply in_flight_fresh. exact (rows_fresh _ (λ e, e ∈ g_edges g) Hrf). }
  assert (H2 : in_flight (paxFlow s) (time s) = 0).
  { apply in_flight_fresh. intros e d Hd. rewrite Hpf in Hd.
    destruct (demand s !! e); congruence. }
  unfold fleet, parked. rewrite H1, H2, Ht.
  rewrite (parked_seeded s g Hr HA). split; lia.
Qed.

(** Scenario A: ten vehicles. *)
Lemma init_seeds_fleet_witness :
  ∃ h' s, init (line_heap 2 5) scenario_A 0 (Q2Qc (1 # 10)) = Some (h', s) ∧ fleet s = 10.
Proof.
  assert (E : init (line_heap 2 5) scenario_A 0 (Q2Qc (1 # 10)) =
              Some (default (∅, blank) (init (line_heap 2 5) scenario_A 0 (Q2Qc (1 # 10))))).
  { apply succeeds_Some. vm_compute. reflexivity. }
  destruct (default _ (init _ _ _ _)) as [h' s].
  exists h', s. split; [exact E|].
  destruct (init_seeds_fleet _ _ _ _ _ _ E) as (g & Hg & -> & _).
  injection Hg as <-. vm_compute. reflexivity.
Defined.

(** X11. Whatever the episode did, [reset()] puts the seeded vehicles back,
    all parked and none in flight; and with the trips the environment was
    constructed on it returns the observation the constructor left, as long
    as the graph has kept its nodes and their 'accInit'. *)
Theorem reset_restores_start h s trips s' obs g :
  reset h s trips = Some (s', obs) →
  h !! G s = Some g → region s = g_nodes g →
  fleet s' = lsum (λ n, default 0 (g_accInit g !! n)) (g_nodes g) ∧
  parked s' = fleet s' ∧
  ∀ h0 sc md b h1 s0 g0,
    init h0 sc md b = Some (h1, s0) → h0 !! Scenario.G sc = Some g0 →
    g_nodes g = g_nodes g0 → g_accInit g = g_accInit g0 →
    trips = Scenario.tripAttr sc →
    obs = observe s0.
Proof.
  intros (g1 & Hg1 & Ht & Hr & Hdm & HA & _ & HD & Hrf & Hpf & ->)%reset_state Hg Hreg.
  assert (g1 = g) as -> by congruence.
  assert (H1 : in_flight (rebFlow s') (time s') = 0).
  { apply in_flight_fresh. exact (rows_fresh _ (λ e, e ∈ g_edges g) Hrf). }
  assert (H2 : in_flight (paxFlow s') (time s') = 0).
  { apply in_flight_fresh. exact (rows_fresh _ (λ e, e ∈ g_edges g) Hpf). }
  assert (Hp : parked_at s' 0 = lsum (λ n, default 0 (g_accInit g !! n)) (g_nodes g)).
  { apply parked_seeded; [congruence|done]. }
  split_and!.
  - unfold fleet, parked. rewrite H1, H2, Ht, Hp. lia.
  - unfold fleet. lia.
  - intros h0 sc md b h1 s0 g0 Hinit Hg0 Hn Hai ->.
    apply init_state in Hinit as (g2 & Hg2 & _ & Ht0 & Hdm0 & _ & HA0 & _ & HD0 & _).
    assert (g2 = g0) as -> by congruence.
    unfold observe. f_equal.
    + apply map_eq. intros n. by rewrite HA, HA0, Hn, Hai.
    + congruence.
    + apply map_eq. intros n. by rewrite HD, HD0, Hn.
    + congruence.
Qed.

(** Scenario A one cycle on, with two vehicles on their way: [reset()] on
    the scenario's trips gives ten parked vehicles and the observation of
    the constructor. *)
Lemma reset_restores_start_witness :
  ∃ s' obs,
    reset at_A1.1 at_A1.2 (Scenario.tripAttr scenario_A) = Some (s', obs) ∧
    fleet s' = 10 ∧ obs = observe (the_env env_A).2.
Proof.
  set (g := default no_graph (at_A1.1 !! G at_A1.2)).
  set (g0 := default no_graph (line_heap 2 5 !! Scenario.G scenario_A)).
  assert (E : reset at_A1.1 at_A1.2 (Scenario.tripAttr scenario_A) =
              Some (default (blank, observe blank)
                      (reset at_A1.1 at_A1.2 (Scenario.tripAttr scenario_A)))).
  { apply succeeds_Some. vm_compute. reflexivity. }
  assert (Hg : at_A1.1 !! G at_A1.2 = Some g).
  { apply succeeds_Some. vm_compute. reflexivity. }
  assert (Hg0 : line_heap 2 5 !! Scenario.G scenario_A = Some g0).
  { apply succeeds_Some. vm_compute. reflexivity. }
  assert (Hr : region at_A1.2 = g_nodes g) by (vm_compute; reflexivity).
  assert (Hn : g_nodes g = g_nodes g0) by (vm_compute; reflexivity).
  assert (Hai : g_accInit g = g_accInit g0).
  { apply (bool_decide_eq_true_1 _). vm_compute. reflexivity. }
  assert (F : lsum (λ n, default 0 (g_accInit g !! n)) (g_nodes g) = 10)
    by (vm_compute; reflexivity).
  assert (I : init (line_heap 2 5) scenario_A 0 (Q2Qc (1 # 10)) =
              Some ((the_env env_A).1, (the_env env_A).2)).
  { transitivity (Some (the_env env_A)); [|by destruct (the_env env_A)].
    apply succeeds_Some. vm_compute. reflexivity. }
  clearbody g g0.
  destruct (default _ (reset _ _ _)) as [s' obs].
  exists s', obs. split; [exact E|].
  destruct (reset_restores_start _ _ _ _ _ _ E Hg Hr) as (Hf & _ & Hobs).
  split; [by rewrite Hf|].
  exact (Hobs _ _ _ _ _ _ _ I Hg0 Hn Hai eq_refl).
Defined.

(** ** [pax_step] *)

(** One iteration of the serving loop: skipped, or a flow of at least one
    vehicle clipped to what the origin holds. *)
Lemma pax_edge_move t s k i j s' :
  pax_edge t s (k, (i, j)) = Some s' →
  s' = s ∨
  ∃ p_k a_i τ,
    paxAction s !! k = Some p_k ∧ 1 ≤ p_k ∧
    get2 (acc s) i (t + 1) = Some a_i ∧
    time_of (demandTime s) (i, j) t = Some τ ∧
    acc s' = set2 (acc s) i (t + 1) (a_i - Z.min a_i p_k) ∧
    paxFlow s' = set2 (paxFlow s) (i, j) (t + τ) (Z.min a_i p_k) ∧
    paxAction s' = <[k := Z.min a_i p_k]> (paxAction s) ∧
    rebFlow s' = rebFlow s ∧ demand s' = demand s ∧ same_setting s s'.
Proof.
  unfold pax_edge. intros Hs.
  destruct (bool_decide (is_Some (demand s !! (i, j)))); simpl in Hs;
    [|injection Hs as <-; by left].
  destruct (dict_has (sub (demand s) (i, j)) t); simpl in Hs; [|injection Hs as <-; by left].
  destruct (paxAction s !! k) as [p_k|] eqn:Hp; simpl in Hs; [|done].
  case_bool_decide as Hlt; [injection Hs as <-; by left|].
  destruct (get2 (acc s) i (t + 1)) as [a_i|] eqn:Ha; simpl in Hs; [|done].
  case_bool_decide as Hle; simpl in Hs; [|done].
  destruct (time_of (demandTime s) (i, j) t) as [τ|] eqn:Hτ; simpl in Hs; [|done].
  rewrite get2_set2_eq in Hs. simpl in Hs.
  rewrite get2_set2_eq in Hs. simpl in Hs.
  destruct (add2 (dacc s) j (t + τ) _) as [D|]; simpl in Hs; [|done].
  destruct (price s !! (i, j) ≫= _) as [p|]; simpl in Hs; [|done].
  destruct (np_add _ _ _) as [er|]; simpl in Hs; [|done].
  injection Hs as <-. right.
  exists p_k, a_i, τ.
  split; [reflexivity|]. split; [lia|]. split; [reflexivity|]. split; [reflexivity|].
  repeat (split; [reflexivity|]). repeat split.
Qed.

(** ** Nothing goes negative *)

Lemma landing_get2 (m : gmap Edge PyDict) e k x : get2 m e k = Some x → landing m k e = x.
Proof.
  unfold get2, dict_get. rewrite landing_sub.
  destruct (items (sub m e) !! k); simpl; [congruence|].
  destruct (dflt (sub m e)); congruence.
Qed.

Lemma landing_set2_eq (m : gmap Edge PyDict) e k v : landing (set2 m e k v) k e = v.
Proof. unfold landing, set2. rewrite lookup_insert_eq. simpl. by rewrite lookup_insert_eq. Qed.

Lemma landing_set2_nonneg (m : gmap Edge PyDict) e k v :
  (∀ e' k', 0 ≤ landing m k' e') → 0 ≤ v → ∀ e' k', 0 ≤ landing (set2 m e k v) k' e'.
Proof.
  intros Hm Hv e' k'. destruct (decide (e = e')) as [<-|Hne].
  - destruct (decide (k = k')) as [<-|Hk].
    + by rewrite landing_set2_eq.
    + by rewrite landing_set2_ne_time.
  - by rewrite landing_set2_ne.
Qed.

Lemma get2_set2_nonneg (A : gmap Z PyDict) n k v :
  (∀ n' k' a, get2 A n' k' = Some a → 0 ≤ a) → 0 ≤ v →
  ∀ n' k' a, get2 (set2 A n k v) n' k' = Some a → 0 ≤ a.
Proof.
  intros HA Hv n' k' a. destruct (decide (n = n')) as [<-|Hne].
  - destruct (decide (k = k')) as [<-|Hk].
    + rewrite get2_set2_eq. by intros [= <-].
    + rewrite get2_set2_ne_time by done. apply HA.
  - rewrite get2_set2_ne_key by done. apply HA.
Qed.

Lemma serve_pax_nonneg coin t n sv ip sv' :
  serve_pax coin t n sv ip = Some sv' →
  books_nonneg (sv_env sv) → books_nonneg (sv_env sv').
Proof.
  destruct ip as [i pax]. unfold serve_pax. intros Hs Hb.
  assert (Hw : ∀ p d, wait_or_leave t i p d sv = Some sv' → books_nonneg (sv_env sv')).
  { intros p d. unfold wait_or_leave.
    destruct (Passenger.unmatched_update p) as [p' leave]. destruct leave.
    - destruct (add2 _ _ _ _); simpl; [|done]. by intros [= <-].
    - by intros [= <-]. }
  case_bool_decide; [|by eapply Hw].
  destruct (Passenger.match_ pax t _) as [[pax' accept]|]; simpl in Hs; [|done].
  destruct accept; [|by eapply Hw].
  destruct (time_of _ _ t) as [τ|]; simpl in Hs; [|done].
  destruct (add2 (paxFlow _) _ _ 1) as [pf|] eqn:Hpf; simpl in Hs; [|done].
  destruct (add2 (dacc _) _ _ 1) as [da|]; simpl in Hs; [|done].
  destruct (add2 (servedDemand _) _ _ 1) as [sd|]; simpl in Hs; [|done].
  destruct (np_add _ _ _) as [er|]; simpl in Hs; [|done].
  injection Hs as <-. destruct Hb as (Ha & Hr & Hp). split_and!; simpl; try done.
  apply add2_Some in Hpf as (x & Hx & ->). apply landing_set2_nonneg; [done|].
  apply landing_get2 in Hx. specialize (Hp (Passenger.origin pax', Passenger.destination pax')
                                          (t + τ)). lia.
Qed.

Lemma serve_queue_nonneg coin t n l sv sv' :
  for_each (serve_pax coin t n) l sv = Some sv' →
  books_nonneg (sv_env sv) → books_nonneg (sv_env sv').
Proof.
  revert sv. induction l as [|ip l IH]; intros sv Hs Hb; cbn [for_each] in Hs.
  - by injection Hs as <-.
  - destruct (serve_pax coin t n sv ip) as [sv1|] eqn:H1; simpl in Hs; [|done].
    eapply IH; [done|]. by eapply serve_pax_nonneg.
Qed.

Section Nonneg.
Context (shuffle : list Passenger.t → list Passenger.t).
Context (demand_update : Z → Qc → Qc → Qc → Z).

Lemma match_regions_nonneg g pr coin t ns s d s' d' :
  for_each (match_region shuffle demand_update g pr coin t) ns (s, d) = Some (s', d') →
  books_nonneg s → books_nonneg s'.
Proof.
  revert s d. induction ns as [|n ns IH]; intros s d Hs Hb; cbn [for_each] in Hs.
  - by injection Hs as <- <-.
  - destruct (match_region _ _ g pr coin t (s, d) n) as [[s1 d1]|] eqn:H1;
      simpl in Hs; [|done].
    eapply IH; [done|]. clear Hs IH. unfold match_region in H1.
    destruct (get2 (acc s) n t) as [a|] eqn:Ha; simpl in H1; [|done].
    destruct (enqueue_region _ _ g pr t s n) as [s2|] eqn:H2; simpl in H1; [|done].
    apply enqueue_region_books in H2 as (Hacc & Hpf & (_ & _ & Hrf & _)).
    unfold serve_region in H1.
    destruct (for_each _ _ _) as [sv|] eqn:H3; simpl in H1; [|done].
    pose proof (serve_queue_nonneg _ _ _ _ _ _ H3) as Hnn.
    unfold enumerate in H3.
    apply (serve_queue_tally coin t n _
             {| sv_env := s2; sv_acc := a; sv_index := []; sv_seen := []; sv_draws := d |})
      in H3 as (_ & _ & _ & Hpos & _); [|apply sublist_nil_l].
    simpl in *. injection H1 as <- <-.
    destruct Hb as (HA & HR & HP).
    destruct Hnn as (HA' & HR' & HP'); [unfold books_nonneg; by rewrite Hacc, Hpf, Hrf|].
    split_and!; simpl; try done.
    apply get2_set2_nonneg; [done|]. apply Hpos. by eapply HA.
Qed.

End Nonneg.

Lemma carry_overs_nonneg t ns s s' :
  for_each (carry_over t) ns s = Some s' →
  books_nonneg s → books_nonneg s' ∧ paxAction s' = paxAction s.
Proof.
  revert s. induction ns as [|n ns IH]; intros s Hs Hb; cbn [for_each] in Hs.
  - by injection Hs as <-.
  - destruct (carry_over t s n) as [s1|] eqn:H1; simpl in Hs; [|done].
    unfold carry_over in H1. destruct (get2 (acc s) n t) as [a|] eqn:Ha; simpl in H1; [|done].
    injection H1 as <-. destruct Hb as (HA & HR & HP).
    destruct (IH _ Hs) as [Hb' Hpa]; [|by split].
    split_and!; simpl; try done. apply get2_set2_nonneg; [done|]. by eapply HA.
Qed.

Lemma pax_edges_nonneg t kes s s' :
  for_each (pax_edge t) kes s = Some s' → books_nonneg s → books_nonneg s'.
Proof.
  revert s. induction kes as [|[k [i j]] kes IH]; intros s Hs Hb; cbn [for_each] in Hs.
  - by injection Hs as <-.
  - destruct (pax_edge t s (k, (i, j))) as [s1|] eqn:H1; simpl in Hs; [|done].
    eapply IH; [done|]. clear Hs IH.
    apply pax_edge_move in H1
      as [->|(p_k & a_i & τ & _ & Hp & Ha & _ & HA1 & HP1 & _ & HR1 & _)]; [done|].
    destruct Hb as (HA & HR & HP). pose proof (HA _ _ _ Ha).
    unfold books_nonneg. rewrite HA1, HP1, HR1. split_and!.
    + apply get2_set2_nonneg; [done|lia].
    + done.
    + apply landing_set2_nonneg; [done|lia].
Qed.

Lemma reb_edges_nonneg_books g t l k0 s s' :
  for_each (reb_edge g t) (enumerate_from k0 l) s = Some s' →
  (∀ n e r, l !! n = Some e → has_edge g e = true →
            rebAction s !! (k0 + n)%nat = Some r → 0 ≤ r) →
  books_nonneg s → books_nonneg s'.
Proof.
  revert k0 s. induction l as [|[i j] l IH]; intros k0 s Hs Hact Hb;
    cbn [for_each enumerate_from] in Hs.
  - by injection Hs as <-.
  - destruct (reb_edge g t s (k0, (i, j))) as [s1|] eqn:H1; simpl in Hs; [|done].
    eapply (IH (S k0)); [done| |].
    + intros n e r Hn He Hr.
      rewrite (reb_edge_rebAction _ _ _ _ _ _ (S k0 + n)%nat H1) in Hr by lia.
      apply (Hact (S n) e r Hn He). by replace (k0 + S n)%nat with (S k0 + n)%nat by lia.
    + destruct (has_edge g (i, j)) eqn:He.
      * apply reb_edge_move in H1 as (a_i & r_k & τ & x & er & Ha & Hr & _ & _ & _ & ->);
          [|done].
        destruct Hb as (HA & HR & HP). pose proof (HA _ _ _ Ha).
        assert (0 ≤ r_k).
        { apply (Hact 0%nat (i, j) r_k eq_refl He). by rewrite Nat.add_0_r. }
        split_and!; simpl; try done.
        -- apply get2_set2_nonneg; [done|lia].
        -- apply landing_set2_nonneg; [done|lia].
      * rewrite reb_edge_skip in H1 by done. by injection H1 as <-.
Qed.

Lemma land_edges_nonneg t es s s' :
  for_each (land_edge t) es s = Some s' → books_nonneg s → books_nonneg s'.
Proof.
  revert s. induction es as [|[i j] es IH]; intros s Hs Hb; cbn [for_each] in Hs.
  - by injection Hs as <-.
  - destruct (land_edge t s (i, j)) as [s1|] eqn:H1; simpl in Hs; [|done].
    eapply IH; [done|]. clear Hs IH.
    destruct (land_edge_acc _ _ _ _ H1) as [A ->].
    pose proof (λ n k, land_edge_get t s i j _ n k H1) as Hget. simpl in Hget.
    destruct Hb as (HA & HR & HP). split_and!; simpl; try done.
    intros n k a Ha. rewrite Hget in Ha.
    destruct (decide (n = j ∧ k = t + 1)) as [[-> ->]|_]; [|by eapply HA].
    destruct (get2 (acc s) j (t + 1)) as [a0|] eqn:Ha0; simpl in Ha; [|done].
    injection Ha as <-. pose proof (HA _ _ _ Ha0).
    pose proof (HR (i, j) t). pose proof (HP (i, j) t). lia.
Qed.

Lemma pax_step_Some s action s' o :
  pax_step s action = Some (s', o) →
  ∃ s1,
    for_each (carry_over (time s)) (region s)
      (set_ext_reward (replicate (nregion s) 0%Qc) (set_reward 0%Qc s)) = Some s1 ∧
    for_each (pax_edge (time s)) (enumerate (edges s1))
      (set_paxAction action (set_info (info_cleared (info s1)) s1)) = Some s'.
Proof.
  unfold pax_step. intros Hs.
  apply bind_Some in Hs as (s1 & H1 & Hs).
  apply bind_Some in Hs as (s2 & H2 & Hs).
  injection Hs as <- _. exists s1. split; [exact H1|exact H2].
Qed.

Section Safety.
Context (shuffle : list Passenger.t → list Passenger.t).
Context (demand_update : Z → Qc → Qc → Qc → Z).

(** X12. No phase drives an inventory or a ledger entry below zero: the
    matching walk stops at zero vehicles, [pax_step] drops flows below one
    and clips the others to what the origin holds, and [reb_step] clips
    likewise, for requests that are not negative on the graph's edges. *)
Theorem books_stay_nonneg h s g :
  h !! G s = Some g → books_nonneg s →
  (∀ pr coin s' o,
     match_step_simple shuffle demand_update h s pr coin = Some (s', o) → books_nonneg s') ∧
  (∀ action s' o, pax_step s action = Some (s', o) → books_nonneg s') ∧
  (∀ action h' s' o,
     (∀ k e r, edges s !! k = Some e → has_edge g e = true → action !! k = Some r → 0 ≤ r) →
     reb_step h s action = Some (h', s', o) → books_nonneg s').
Proof.
  intros Hg Hb. split_and!.
  - intros pr coin s' o (g0 & d & b & _ & Hloop & _)%match_step_simple_Some.
    by eapply match_regions_nonneg.
  - intros action s' o (s1 & H1 & H2)%pax_step_Some.
    apply carry_overs_nonneg in H1 as [Hb1 _]; [|done].
    by eapply pax_edges_nonneg.
  - intros action h' s' o Hact (g0 & s1 & s2 & g' & Hg0 & Hreb & Hland & -> & _)%reb_step_Some.
    assert (g0 = g) as -> by congruence.
    unfold reb_loop in Hreb. unfold land_loop in Hland.
    apply reb_edges_nonneg_books in Hreb; [| |done].
    + apply land_edges_nonneg in Hland; [|done].
      destruct Hland as (? & ? & ?). by split_and!.
    + intros n e r Hn He Hr. simpl in Hr. by eapply Hact.
Qed.

End Safety.

Lemma books_nonneg_check s :
  bool_decide (map_Forall (λ _ d, map_Forall (λ _ v, 0 ≤ v) (items d) ∧ dflt d = false)
                 (acc s)) = true →
  bool_decide (map_Forall (λ _ d, map_Forall (λ _ v, 0 ≤ v) (items d)) (rebFlow s)) = true →
  bool_decide (map_Forall (λ _ d, map_Forall (λ _ v, 0 ≤ v) (items d)) (paxFlow s)) = true →
  books_nonneg s.
Proof.
  intros HA%bool_decide_eq_true_1 HR%bool_decide_eq_true_1 HP%bool_decide_eq_true_1.
  split_and!.
  - intros n k a Ha. unfold get2, sub, dict_get in Ha.
    destruct (acc s !! n) as [d|] eqn:Hd; simpl in Ha; [|done].
    destruct (HA n d Hd) as [Hv Hdf].
    destruct (items d !! k) as [v|] eqn:Hk; [|by rewrite Hdf in Ha].
    injection Ha as <-. by apply (Hv k v).
  - intros e k. unfold landing.
    destruct (rebFlow s !! e) as [d|] eqn:Hd; [|done].
    destruct (items d !! k) as [v|] eqn:Hk; [|done]. simpl. by apply (HR e d Hd k v).
  - intros e k. unfold landing.
    destruct (paxFlow s !! e) as [d|] eqn:Hd; [|done].
    destruct (items d !! k) as [v|] eqn:Hk; [|done]. simpl. by apply (HP e d Hd k v).
Qed.

(** Scenario A after its first matching phase, seven vehicles asked of a
    region that holds five: no inventory of the next state is negative. *)
Lemma books_stay_nonneg_witness :
  ∃ h' s' o,
    reb_step at_A.1 at_A.2 [7; 3; 0; 0] = Some (h', s', o) ∧
    get2 (acc s') 0 1 = Some 0 ∧ books_nonneg s'.
Proof.
  set (g := default no_graph (at_A.1 !! G at_A.2)).
  assert (E : reb_step at_A.1 at_A.2 [7; 3; 0; 0]
              = Some (default (∅, blank, blank_out) (reb_step at_A.1 at_A.2 [7; 3; 0; 0]))).
  { apply succeeds_Some. vm_compute. reflexivity. }
  assert (A1 : get2 (acc (default (∅, blank, blank_out)
                            (reb_step at_A.1 at_A.2 [7; 3; 0; 0])).1.2) 0 1 = Some 0)
    by (vm_compute; reflexivity).
  assert (Hg : at_A.1 !! G at_A.2 = Some g).
  { apply succeeds_Some. vm_compute. reflexivity. }
  assert (Hb : books_nonneg at_A.2).
  { split_and!.
    - intros n k a Ha.
      assert (Hall : map_Forall (λ _ d, map_Forall (λ _ v, 0 ≤ v) (items d) ∧ dflt d = false)
                       (acc at_A.2)).
      { apply (bool_decide_eq_true_1 _). vm_compute. reflexivity. }
      clear -Ha Hall. unfold get2, sub, dict_get in Ha.
      destruct (acc at_A.2 !! n) as [d|] eqn:Hd; simpl in Ha; [|done].
      destruct (Hall n d Hd) as [Hv Hdf].
      destruct (items d !! k) as [v|] eqn:Hk; [|by rewrite Hdf in Ha].
      injection Ha as <-. by apply (Hv k v).
    - intros e k.
      assert (Hall : map_Forall (λ _ d, map_Forall (λ _ v, 0 ≤ v) (items d)) (rebFlow at_A.2)).
      { apply (bool_decide_eq_true_1 _). vm_compute. reflexivity. }
      clear -Hall. unfold landing.
      destruct (rebFlow at_A.2 !! e) as [d|] eqn:Hd; [|done].
      destruct (items d !! k) as [v|] eqn:Hk; [|done]. simpl. by apply (Hall e d Hd k v).
    - intros e k.
      assert (Hall : map_Forall (λ _ d, map_Forall (λ _ v, 0 ≤ v) (items d)) (paxFlow at_A.2)).
      { apply (bool_decide_eq_true_1 _). vm_compute. reflexivity. }
      clear -Hall. unfold landing.
      destruct (paxFlow at_A.2 !! e) as [d|] eqn:Hd; [|done].
      destruct (items d !! k) as [v|] eqn:Hk; [|done]. simpl. by apply (Hall e d Hd k v). }
  assert (Hact : ∀ k e r, edges at_A.2 !! k = Some e → has_edge g e = true →
                          [7; 3; 0; 0] !! k = Some r → 0 ≤ r).
  { clear. intros k e r _ _ Hr.
    destruct k as [|[|[|[|k]]]]; simpl in Hr; try (injection Hr as <-; lia). done. }
  clearbody g.
  destruct (default _ (reb_step _ _ _)) as [[h' s'] o]. cbn [fst snd] in A1.
  exists h', s', o. split; [exact E|]. split; [exact A1|].
  destruct (books_stay_nonneg shuffle42 no_elasticity _ _ _ Hg Hb) as (_ & _ & Hreb).
  exact (Hreb _ _ _ _ Hact E).
Defined.

(** ** The fleet through [pax_step] *)

(** The carry-over loop books for [t+1] what every region holds at [t]. *)
Lemma carry_overs_get t ns s s' :
  for_each (carry_over t) ns s = Some s' →
  (∃ A, s' = set_acc A s) ∧
  ∀ n k, get2 (acc s') n k =
         if bool_decide (n ∈ ns ∧ k = t + 1) then get2 (acc s) n t else get2 (acc s) n k.
Proof.
  revert s. induction ns as [|m ns IH]; intros s Hs; cbn [for_each] in Hs.
  - injection Hs as <-. split; [exists (acc s); by destruct s|].
    intros n k. rewrite bool_decide_eq_false_2; [done|]. intros [Hn _]. by apply elem_of_nil in Hn.
  - destruct (carry_over t s m) as [s1|] eqn:H1; simpl in Hs; [|done].
    unfold carry_over in H1. destruct (get2 (acc s) m t) as [a|] eqn:Ha; simpl in H1; [|done].
    injection H1 as <-. destruct (IH _ Hs) as [[A ->] Hget]. simpl in Hget.
    split; [by exists A|]. intros n k. simpl. rewrite Hget.
    assert (Hkeep : ∀ n', get2 (set2 (acc s) m (t + 1) a) n' t = get2 (acc s) n' t).
    { intros n'. apply get2_set2_ne_time. lia. }
    destruct (decide (n ∈ ns ∧ k = t + 1)) as [[Hn ->]|Hno].
    + rewrite !bool_decide_eq_true_2; [apply Hkeep| |done].
      split; [by apply list_elem_of_further|done].
    + rewrite (bool_decide_eq_false_2 _ Hno).
      destruct (decide (n = m ∧ k = t + 1)) as [[-> ->]|Hno'].
      * rewrite bool_decide_eq_true_2 by (split; [apply list_elem_of_here|done]).
        by rewrite get2_set2_eq, Ha.
      * rewrite bool_decide_eq_false_2.
        -- destruct (decide (k = t + 1)) as [->|Hk].
           ++ apply get2_set2_ne_key. intros ->. by apply Hno'.
           ++ by apply get2_set2_ne_time.
        -- intros [[->|Hn]%elem_of_cons ->]; [by apply Hno'|by apply Hno].
Qed.

(** The serving loop moves vehicles from the regions into the passenger
    ledger, one for one, when every write finds its slot free. *)
Lemma pax_edges_fleet t kes s s' :
  for_each (pax_edge t) kes s = Some s' →
  NoDup (region s) → NoDup kes.*2 →
  (∀ k i j, (k, (i, j)) ∈ kes → i ∈ region s) →
  times_nonneg (demandTime s) t →
  (∀ k e τ, (k, e) ∈ kes → time_of (demandTime s) e t = Some τ →
            landing (paxFlow s) (t + τ) e = 0) →
  parked_at s' (t + 1) + in_flight (paxFlow s') t =
  parked_at s (t + 1) + in_flight (paxFlow s) t ∧
  rebFlow s' = rebFlow s ∧ same_setting s s' ∧
  (∀ e, is_Some (paxFlow s' !! e) → is_Some (paxFlow s !! e) ∨ e ∈ kes.*2).
Proof.
  revert s. induction kes as [|[k [i j]] kes IH]; intros s Hs Hnd Hes Hreg Hτ Hfree;
    cbn [for_each] in Hs.
  - injection Hs as <-. split_and!; auto. apply same_setting_refl.
  - destruct (pax_edge t s (k, (i, j))) as [s1|] eqn:H1; simpl in Hs; [|done].
    simpl in Hes. apply NoDup_cons in Hes as [Hk Hes].
    assert (Hstep : parked_at s1 (t + 1) + in_flight (paxFlow s1) t =
                    parked_at s (t + 1) + in_flight (paxFlow s) t ∧
                    rebFlow s1 = rebFlow s ∧ same_setting s s1 ∧
                    (∀ e k', e ≠ (i, j) → landing (paxFlow s1) k' e = landing (paxFlow s) k' e) ∧
                    (∀ e, is_Some (paxFlow s1 !! e) → is_Some (paxFlow s !! e) ∨ e = (i, j))).
    { apply pax_edge_move in H1
        as [->|(p_k & a_i & τ & _ & _ & Ha & Ht & HA1 & HP1 & _ & HR1 & _ & Hset)].
      - split_and!; auto. apply same_setting_refl.
      - split_and!; try done.
        + rewrite HP1, in_flight_set2.
          rewrite bool_decide_eq_true_2 by (specialize (Hτ _ _ Ht); lia).
          rewrite (Hfree k (i, j) τ); [| apply list_elem_of_here | done].
          unfold parked_at. destruct Hset as (-> & _).
          rewrite (lsum_update (λ n, default 0 (get2 (acc s) n (t + 1)))
                     (λ n, default 0 (get2 (acc s1) n (t + 1))) (region s) i Hnd).
          * rewrite HA1, get2_set2_eq, Ha. simpl. lia.
          * apply (Hreg k i j), list_elem_of_here.
          * intros n _ Hn. by rewrite HA1, get2_set2_ne_key.
        + intros e k' Hne. rewrite HP1. by apply landing_set2_ne.
        + intros e. rewrite HP1. unfold set2.
          destruct (decide (e = (i, j))) as [->|Hne]; [auto|].
          rewrite lookup_insert_ne by done. auto. }
    destruct Hstep as (Hsum & Hrf & Hset & Hland & Hrows).
    pose proof Hset as (Hr & _ & _ & _ & Hdt & _).
    destruct (IH s1 Hs) as (Hsum' & Hrf' & Hset' & Hrows').
    + by rewrite Hr.
    + done.
    + intros k' i' j' H'. rewrite Hr. apply (Hreg k' i' j'). by apply list_elem_of_further.
    + by rewrite Hdt.
    + intros k' e τ Hin Ht. rewrite Hland.
      * apply (Hfree k' e τ); [by apply list_elem_of_further | by rewrite <- Hdt].
      * intros ->. apply Hk. apply list_elem_of_fmap. by exists (k', (i, j)).
    + split_and!; [lia | congruence | by eapply same_setting_trans |].
      intros e He. simpl. destruct (Hrows' e He) as [H'|H'].
      * destruct (Hrows e H') as [?| ->]; [by left|]. right. apply list_elem_of_here.
      * right. by apply list_elem_of_further.
Qed.

(** X13. [pax_step] takes the vehicles of the flows it applies out of the
    regions and books them in the passenger ledger, one for one: what is
    parked for the next step plus what that ledger has in flight is what
    was parked plus in flight before, as long as no flow is written under
    a ledger key that already holds vehicles. *)
Theorem pax_step_conserves s action s' o :
  pax_step s action = Some (s', o) →
  closed_books s →
  times_nonneg (demandTime s) (time s) →
  pax_slots_free s →
  parked_at s' (time s + 1) + in_flight (paxFlow s') (time s) =
    parked_at s (time s) + in_flight (paxFlow s) (time s) ∧
  rebFlow s' = rebFlow s ∧ time s' = time s ∧ closed_books s'.
Proof.
  intros (s1 & H1 & H2)%pax_step_Some [Hreg Hes Hends Hrebrows Hpaxrows] Hdt Hfree.
  apply carry_overs_get in H1 as [[A ->] Hget]. simpl in *.
  apply pax_edges_fleet in H2 as (Hsum & Hrf & Hset & Hrows); simpl.
  - simpl in *. destruct Hset as (Hr & He & _ & _ & _ & Ht & _). simpl in *.
    unfold enumerate in Hrows. rewrite enumerate_from_snd in Hrows.
    split_and!; [| done | done |].
    + rewrite Hsum. f_equal. unfold parked_at. simpl. apply lsum_ext. intros n Hn.
      rewrite Hget. by rewrite bool_decide_eq_true_2.
    + constructor.
      * rewrite Hr. exact Hreg.
      * rewrite He. exact Hes.
      * rewrite Hr, He. exact Hends.
      * rewrite Hrf, He. exact Hrebrows.
      * rewrite He. intros e [?|?]%Hrows; [by apply Hpaxrows|done].
  - done.
  - unfold enumerate. by rewrite enumerate_from_snd.
  - intros k i j Hin%enumerate_elem_of. by apply (Hends i j).
  - done.
  - intros k e τ Hin%enumerate_elem_of Ht. by apply Hfree.
Qed.

Lemma pax_slots_free_check s :
  bool_decide (Forall (λ e, landing (paxFlow s)
                              (time s + default 0 (time_of (demandTime s) e (time s))) e = 0)
                 (edges s)) = true →
  pax_slots_free s.
Proof.
  intros Hall%bool_decide_eq_true_1 e τ Hin Hτ. rewrite Forall_forall in Hall.
  specialize (Hall e Hin). by rewrite Hτ in Hall.
Qed.

(** Two regions with five vehicles each and a flow of one vehicle asked on
    the edge (0,1): nine vehicles are parked for step 1 and one is booked
    in the passenger ledger. *)
Lemma pax_step_conserves_witness :
  ∃ s' o,
    pax_step (the_env env_free).2 [1; 0; 0; 0] = Some (s', o) ∧
    in_flight (paxFlow s') 0 = 1 ∧ parked_at s' 1 = 9.
Proof.
  set (X := pax_step (the_env env_free).2 [1; 0; 0; 0]).
  assert (E : X = Some (default (blank, blank_out) X)).
  { apply succeeds_Some. vm_compute. reflexivity. }
  assert (F1 : in_flight (paxFlow (default (blank, blank_out) X).1) 0 = 1)
    by (vm_compute; reflexivity).
  assert (P0 : parked_at (the_env env_free).2 (time (the_env env_free).2) = 10)
    by (vm_compute; reflexivity).
  assert (F0 : in_flight (paxFlow (the_env env_free).2) (time (the_env env_free).2) = 0)
    by (vm_compute; reflexivity).
  assert (T0 : time (the_env env_free).2 = 0) by (vm_compute; reflexivity).
  assert (Hcb : closed_books (the_env env_free).2).
  { apply closed_books_check; vm_compute; reflexivity. }
  assert (Hdt : times_nonneg (demandTime (the_env env_free).2) (time (the_env env_free).2)).
  { apply times_nonneg_check. vm_compute. reflexivity. }
  assert (Hfree : pax_slots_free (the_env env_free).2).
  { apply pax_slots_free_check. vm_compute. reflexivity. }
  destruct (default (blank, blank_out) X) as [s' o]. cbn [fst] in F1.
  exists s', o. split; [exact E|]. split; [exact F1|].
  destruct (pax_step_conserves _ _ _ _ E Hcb Hdt Hfree) as (Hsum & _).
  rewrite P0, F0, T0 in Hsum. change (0 + 1) with 1 in Hsum. rewrite F1 in Hsum. lia.
Defined.

(** * The scenario of a grid *)

Module GridFacts.
Import GridScenario.

Lemma distance_self N1 gtt i : distance N1 gtt (i, i) = 0.
Proof. unfold distance. simpl. rewrite !Z.sub_diag. done. Qed.

Lemma new_tables_eq w e :
  new_tables w e = Some {| cells := Some e; demandItems := <[e := ∅]> (demandItems w);
                          rebItems := <[e := ∅]> (rebItems w) |}.
Proof. reflexivity. Qed.

Lemma ratio_edge_eq w e :
  ratio_edge w e = Some {| cells := Some e; demandItems := demandItems w;
                          rebItems := rebItems w |}.
Proof. reflexivity. Qed.

(** The first loop: an empty table of either kind for every edge. *)
Lemma new_tables_spec es w :
  ∃ w', for_each new_tables es w = Some w' ∧
    (∀ e, demandItems w' !! e = if bool_decide (e ∈ es) then Some ∅ else demandItems w !! e) ∧
    (∀ e, rebItems w' !! e = if bool_decide (e ∈ es) then Some ∅ else rebItems w !! e).
Proof.
  revert w. induction es as [|e0 es IH]; intros w; cbn [for_each].
  - exists w. split; [done|]. split; intros e; by rewrite bool_decide_eq_false_2 by apply not_elem_of_nil.
  - rewrite new_tables_eq. simpl.
    destruct (IH {| cells := Some e0; demandItems := <[e0 := ∅]> (demandItems w);
                    rebItems := <[e0 := ∅]> (rebItems w) |}) as (w' & -> & Hd & Hr).
    exists w'. split; [done|]. simpl in Hd, Hr.
    split; intros e; [rewrite Hd|rewrite Hr];
      (destruct (decide (e ∈ es)) as [Hin|Hin];
       [ rewrite !bool_decide_eq_true_2; [done | by apply list_elem_of_further | done]
       | rewrite (bool_decide_eq_false_2 _ Hin);
         destruct (decide (e = e0)) as [->|Hne];
         [ rewrite lookup_insert_eq, bool_decide_eq_true_2; [done|apply list_elem_of_here]
         | rewrite lookup_insert_ne by done; rewrite bool_decide_eq_false_2; [done|];
           intros [?|?]%elem_of_cons; done ] ]).
Qed.

Lemma ratio_edges_spec es w :
  ∃ w', for_each ratio_edge es w = Some w' ∧
        demandItems w' = demandItems w ∧ rebItems w' = rebItems w.
Proof.
  revert w. induction es as [|e0 es IH]; intros w; cbn [for_each].
  - by exists w.
  - rewrite ratio_edge_eq. simpl.
    destruct (IH {| cells := Some e0; demandItems := demandItems w; rebItems := rebItems w |})
      as (w' & -> & Hd & Hr).
    by exists w'.
Qed.

Lemma read0_idem v row : read0 v (read0 v row) = read0 v row.
Proof.
  unfold read0. destruct (row !! 0) as [x|] eqn:Hx; [by rewrite Hx|].
  by rewrite lookup_insert_eq.
Qed.

Lemma price_edge_spec N1 gtt w e row :
  N1 ≠ 0 → demandItems w !! e = Some row →
  ∃ w1, price_edge N1 gtt w e = Some w1 ∧ cells w1 = Some e ∧ rebItems w1 = rebItems w ∧
        ∀ e', demandItems w1 !! e' =
              if decide (e' = e) then Some (read0 (distance N1 gtt e) row)
              else demandItems w !! e'.
Proof.
  intros HN Hrow. unfold price_edge, factory, read0. simpl. rewrite Hrow. simpl.
  destruct (row !! 0) as [x|] eqn:Hx.
  - eexists. split; [done|]. simpl. split_and!; try done.
    intros e'. destruct (decide (e' = e)) as [->|]; done.
  - rewrite bool_decide_eq_false_2 by done. simpl.
    eexists. split; [done|]. simpl. split_and!; try done.
    intros e'. destruct (decide (e' = e)) as [->|].
    + by rewrite lookup_insert_eq.
    + by rewrite lookup_insert_ne.
Qed.

Lemma price_edges_spec N1 gtt es w :
  N1 ≠ 0 → (∀ e, e ∈ es → is_Some (demandItems w !! e)) →
  ∃ w', for_each (price_edge N1 gtt) es w = Some w' ∧ rebItems w' = rebItems w ∧
        ∀ e, demandItems w' !! e =
             (λ row, if bool_decide (e ∈ es) then read0 (distance N1 gtt e) row else row)
               <$> demandItems w !! e.
Proof.
  intros HN. revert w. induction es as [|e0 es IH]; intros w Hrows; cbn [for_each].
  - exists w. split_and!; try done. intros e.
    rewrite bool_decide_eq_false_2 by apply not_elem_of_nil. by destruct (demandItems w !! e).
  - destruct (Hrows e0) as [row Hrow]; [apply list_elem_of_here|].
    destruct (price_edge_spec N1 gtt w e0 row HN Hrow) as (w1 & -> & _ & Hr1 & Hd1). simpl.
    destruct (IH w1) as (w' & -> & Hr & Hd).
    { intros e He. rewrite Hd1. destruct (decide (e = e0)); [eauto|].
      apply Hrows. by apply list_elem_of_further. }
    exists w'. split; [done|]. split; [congruence|].
    intros e. rewrite Hd, Hd1. destruct (decide (e = e0)) as [->|Hne].
    + rewrite Hrow. simpl.
      rewrite (bool_decide_eq_true_2 (e0 ∈ e0 :: es)) by apply list_elem_of_here.
      f_equal. case_bool_decide; [apply read0_idem|done].
    + destruct (demandItems w !! e) as [r|]; simpl; [|done]. f_equal.
      rewrite (bool_decide_ext (e ∈ e0 :: es) (e ∈ es)); [done|].
      rewrite elem_of_cons. tauto.
Qed.

(** After a loop that binds the loop variables in every iteration they
    hold its last edge. *)
Lemma for_each_cells (f : walk → Edge → option walk) es w w' :
  (∀ w e w1, f w e = Some w1 → cells w1 = Some e) →
  for_each f es w = Some w' →
  cells w' = match last es with Some e => Some e | None => cells w end.
Proof.
  intros Hf. revert w. induction es as [|e0 es IH]; intros w Hs; cbn [for_each] in Hs.
  - by injection Hs as <-.
  - destruct (f w e0) as [w1|] eqn:H1; simpl in Hs; [|done].
    rewrite (IH w1 Hs). destruct es as [|e1 es]; [simpl; by eapply Hf|].
    rewrite last_cons_cons. destruct (last (e1 :: es)) eqn:Hl; [done|].
    by apply last_None in Hl.
Qed.

(** The edge list of a grid with at least one node ends in a self-loop. *)
Lemma grid_edges_last n ninit :
  (0 < n)%nat →
  let g := Scenario.complete_graph n ninit in
  ∃ i, last (g_edges g ++ map (λ i, (i, i)) (g_nodes g)) = Some (i, i).
Proof.
  intros Hn g. destruct n as [|n]; [lia|].
  exists (Z.of_nat n). rewrite last_app.
  change (map (λ i, (i, i)) (g_nodes g))
    with ((λ i : Z, (i, i)) <$> (Z.of_nat <$> seq 0 (S n))).
  rewrite !fmap_last, seq_S, last_snoc. done.
Qed.

Lemma grid_tables_spec N1 N2 tf ninit gtt fix_price trips :
  0 < N1 * N2 →
  ∃ sc, init N1 N2 tf ninit gtt fix_price trips = Some sc ∧
    G sc = Scenario.complete_graph (Z.to_nat (N1 * N2)) ninit ∧
    edges sc = g_edges (G sc) ++ map (λ i, (i, i)) (g_nodes (G sc)) ∧
    ∀ e, e ∈ edges sc →
      (∀ t, time_of (rebTime sc) e t = Some 0) ∧
      (∀ t, t ≠ 0 → time_of (demandTime sc) e t = Some 0) ∧
      time_of (demandTime sc) e 0 = Some (if fix_price then distance N1 gtt e else 0).
Proof.
  intros HN. assert (HN1 : N1 ≠ 0) by lia.
  unfold init.
  set (g := Scenario.complete_graph (Z.to_nat (N1 * N2)) ninit).
  set (es := g_edges g ++ map (λ i, (i, i)) (g_nodes g)).
  destruct (grid_edges_last (Z.to_nat (N1 * N2)) ninit) as [i Hlast]; [lia|].
  fold g es in Hlast.
  destruct (new_tables_spec es {| cells := None; demandItems := ∅; rebItems := ∅ |})
    as (w1 & H1 & Hd1 & Hr1).
  destruct (ratio_edges_spec es w1) as (w2 & H2 & Hd2 & Hr2).
  rewrite H1. simpl. rewrite H2. simpl.
  assert (Hc2 : cells w2 = Some (i, i)).
  { rewrite (for_each_cells ratio_edge es w1 w2); [by rewrite Hlast| |done].
    intros w e w' Hw. rewrite ratio_edge_eq in Hw. by injection Hw as <-. }
  assert (Hrows : ∀ e, e ∈ es → demandItems w2 !! e = Some ∅ ∧ rebItems w2 !! e = Some ∅).
  { intros e He. rewrite Hd2, Hr2, Hd1, Hr1. by rewrite bool_decide_eq_true_2. }
  destruct fix_price.
  - destruct (price_edges_spec N1 gtt es w2 HN1) as (w3 & H3 & Hr3 & Hd3).
    { intros e He. destruct (Hrows e He) as [-> _]. eauto. }
    rewrite H3. simpl. eexists. split; [done|]. simpl.
    split; [done|]. split; [done|].
    assert (Hc3 : cells w3 = Some (i, i)).
    { rewrite (for_each_cells (price_edge N1 gtt) es w2 w3); [by rewrite Hlast| |done].
      intros w e w' Hw. unfold price_edge in Hw. simpl in Hw.
      destruct (demandItems w !! e) as [row|]; simpl in Hw; [|done].
      destruct (row !! 0); [by injection Hw as <-|].
      destruct (factory _ _ _); simpl in Hw; [|done]. by injection Hw as <-. }
    assert (Hf : factory N1 gtt w3 = Some 0).
    { unfold factory. rewrite Hc3. simpl. rewrite bool_decide_eq_false_2 by done.
      by rewrite distance_self. }
    intros e He. destruct (Hrows e He) as [Hde Hre].
    unfold time_of, tables. rewrite !lookup_fmap, Hr3, Hre, Hd3, Hde. simpl.
    rewrite bool_decide_eq_true_2 by done. rewrite Hf.
    unfold tt_get, read0. simpl. rewrite lookup_empty.
    split_and!.
    + intros t. by rewrite lookup_empty.
    + intros t Ht. by rewrite lookup_insert_ne.
    + by rewrite lookup_insert_eq.
  - eexists. split; [done|]. simpl. split; [done|]. split; [done|].
    assert (Hf : factory N1 gtt w2 = Some 0).
    { unfold factory. rewrite Hc2. simpl. rewrite bool_decide_eq_false_2 by done.
      by rewrite distance_self. }
    intros e He. destruct (Hrows e He) as [Hde Hre].
    unfold time_of, tables. rewrite !lookup_fmap, Hre, Hde. simpl. rewrite Hf.
    unfold tt_get. simpl. split_and!; intros; by rewrite lookup_empty.
Qed.

(** X14. In the scenario of a grid the factory of every travel-time table
    reads the constructor's loop variables when it is called, and these
    end on the last self-loop of the edge list: after construction every
    rebalancing time is 0, and so is every travel time but the one the
    price loop read at time 0 (with [fix_price]), which is the grid
    distance of the edge. *)
Theorem grid_tables_late_bound N1 N2 tf ninit gtt fix_price trips :
  0 < N1 * N2 →
  ∃ sc, init N1 N2 tf ninit gtt fix_price trips = Some sc ∧
    ∀ e, e ∈ edges sc →
      (∀ t, time_of (rebTime sc) e t = Some 0) ∧
      (∀ t, t ≠ 0 → time_of (demandTime sc) e t = Some 0) ∧
      time_of (demandTime sc) e 0 = Some (if fix_price then distance N1 gtt e else 0).
Proof.
  intros HN.
  destruct (grid_tables_spec N1 N2 tf ninit gtt fix_price trips HN) as (sc & ? & _ & _ & ?).
  by exists sc.
Qed.

(** A grid of two regions side by side with [fix_price]: the trip from 0
    to 1 takes three steps if asked at time 0 and no time if asked later,
    and rebalancing on that edge takes no time. *)
Lemma grid_tables_late_bound_witness :
  ∃ sc, init 2 1 10 5 3 true [] = Some sc ∧
        time_of (demandTime sc) (0, 1) 0 = Some 3 ∧
        time_of (demandTime sc) (0, 1) 1 = Some 0 ∧
        time_of (rebTime sc) (0, 1) 0 = Some 0.
Proof.
  destruct (grid_tables_late_bound 2 1 10 5 3 true []) as (sc & Hsc & Hall); [lia|].
  exists sc. split; [exact Hsc|].
  assert (Hin : (0, 1) ∈ edges sc).
  { vm_compute in Hsc. injection Hsc as <-. simpl. apply list_elem_of_here. }
  destruct (Hall (0, 1) Hin) as (Hr & Hd & H0).
  split; [exact H0|]. split; [apply Hd; lia|apply Hr].
Defined.

End GridFacts.

(** * An environment on the scenario of a grid *)

Lemma has_edge_g_edges g e :
  has_edge g e = true → e.1 ∈ g_nodes g → e ∈ g_edges g.
Proof.
  destruct e as [i j]. unfold has_edge, g_edges. simpl.
  intros Hj%bool_decide_eq_true Hi.
  apply list_elem_of_In, in_flat_map. exists i. split; [by apply list_elem_of_In|].
  apply (in_map (pair i)). by apply list_elem_of_In.
Qed.

Lemma complete_graph_adj n ninit i js :
  g_adj (Scenario.complete_graph n ninit) !! i = Some js →
  i ∈ g_nodes (Scenario.complete_graph n ninit).
Proof.
  simpl. intros Hin%elem_of_list_to_map_2.
  apply list_elem_of_fmap in Hin as (y & [= -> ->] & Hy). done.
Qed.

Lemma init_rebTime h sc md b h' s :
  init h sc md b = Some (h', s) → rebTime s = Scenario.rebTime sc.
Proof.
  unfold init, Scenario.deepcopy. intros Hs.
  destruct (h !! Scenario.G sc) as [g|] eqn:Hg; simpl in Hs; [|done].
  assert (Hne : fresh (dom h) ≠ Scenario.G sc).
  { intros Heq. apply (is_fresh (dom h)). rewrite Heq. apply elem_of_dom. eauto. }
  rewrite lookup_insert_ne in Hs by done. rewrite Hg in Hs. simpl in Hs.
  destruct (Scenario.tstep sc) as [ts|] eqn:Hts; simpl in Hs; [|done].
  destruct (for_each load_trip _ _) as [s1|] eqn:H1; simpl in Hs; [|done].
  apply load_trips_frame in H1 as (HG & Hsc & Hrt & Htm & Hrg & _ & _ & _). simpl in *.
  destruct (build_edges g) as [es|] eqn:Hes; simpl in Hs; [|done].
  destruct (mapM _ (g_nodes g)) as [ne|]; simpl in Hs; [|done].
  rewrite Hrt, Htm in Hs.
  destruct (refresh_edge_times _ 0 g) as [g'|] eqn:Hr; simpl in Hs; [|done].
  destruct (for_each (seed_region g') _ _) as [s2|] eqn:H2; simpl in Hs; [|done].
  apply seed_regions_frame in H2 as (A & D & ->). injection Hs as <- <-. simpl.
  exact Hrt.
Qed.

(** With rebalancing times 0 the loop of [reb_step] charges nothing and
    writes the ledger under the key of the current step only. *)
Lemma reb_edges_free g t kes s s' :
  for_each (reb_edge g t) kes s = Some s' →
  (∀ e, has_edge g e = true → time_of (rebTime s) e t = Some 0) →
  reward s' = reward s ∧
  in_flight (rebFlow s') (t + 1) = in_flight (rebFlow s) (t + 1).
Proof.
  revert s. induction kes as [|[k [i j]] kes IH]; intros s Hs H0; cbn [for_each] in Hs.
  - by injection Hs as <-.
  - destruct (reb_edge g t s (k, (i, j))) as [s1|] eqn:H1; simpl in Hs; [|done].
    pose proof (reb_edge_static _ _ _ _ _ H1) as (Hrt & _).
    destruct (IH s1 Hs) as (-> & ->); [by rewrite Hrt|].
    destruct (has_edge g (i, j)) eqn:He.
    + apply reb_edge_move in H1 as (a_i & r_k & τ & x & er & _ & _ & Ht & _ & _ & ->); [|done].
      rewrite (H0 _ He) in Ht. injection Ht as <-. simpl. split.
      * replace (Qc_of_Z 0) with 0%Qc by (by apply Qc_is_canon). ring.
      * rewrite in_flight_set2. rewrite bool_decide_eq_false_2 by lia. lia.
    + rewrite reb_edge_skip in H1 by done. by injection H1 as <-.
Qed.

Section OnGrid.
Context (shuffle : list Passenger.t → list Passenger.t).
Context (demand_update : Z → Qc → Qc → Qc → Z).

(** X15. An environment built on the scenario of a grid (with [tstep],
    which that scenario lacks, set by the caller) starts with the
    scenario's rebalancing times and graph, and matching and rebalancing
    keep them. There every rebalancing step returns the reward 0, whatever
    the action, and puts no vehicle on the road beyond the step: the
    rebalancing times the tables give are all 0. *)
Theorem grid_rebalancing_is_free N1 N2 tf ninit gtt fix_price trips sc :
  0 < N1 * N2 →
  GridScenario.init N1 N2 tf ninit gtt fix_price trips = Some sc →
  (∀ h l tstep md b h1 s,
     h !! l = Some (GridScenario.G sc) →
     init h (GridScenario.to_scenario sc l tstep) md b = Some (h1, s) →
     on_grid sc h1 s) ∧
  (∀ h s pr coin s' o,
     on_grid sc h s →
     match_step_simple shuffle demand_update h s pr coin = Some (s', o) →
     on_grid sc h s') ∧
  (∀ h s action h' s' o,
     on_grid sc h s →
     reb_step h s action = Some (h', s', o) →
     on_grid sc h' s' ∧ out_reward o = 0%Qc ∧
     in_flight (rebFlow s') (time s') = in_flight (rebFlow s) (time s')).
Proof.
  intros HN Hsc.
  destruct (GridFacts.grid_tables_spec N1 N2 tf ninit gtt fix_price trips HN)
    as (sc' & Hsc' & HG & Hes & Ht).
  rewrite Hsc in Hsc'. injection Hsc' as <-.
  assert (Hfree : ∀ g e t, g_adj g = g_adj (GridScenario.G sc) →
            has_edge g e = true → time_of (GridScenario.rebTime sc) e t = Some 0).
  { intros g e t Ha He. apply Ht. rewrite Hes. apply elem_of_app. left.
    assert (He' : has_edge (GridScenario.G sc) e = true).
    { unfold has_edge in *. by rewrite <- Ha. }
    apply has_edge_g_edges; [done|].
    unfold has_edge in He'. apply bool_decide_eq_true in He'.
    destruct (g_adj (GridScenario.G sc) !! e.1) as [js|] eqn:Hjs.
    - rewrite HG in Hjs |- *. by eapply complete_graph_adj.
    - simpl in He'. by apply elem_of_nil in He'. }
  split_and!.
  - intros h l tstep md b h1 s Hl Hi.
    pose proof (init_rebTime _ _ _ _ _ _ Hi) as Hrt.
    apply init_spec in Hi as (g & g' & Hg & HGs & _ & Hr & -> & _). simpl in *.
    rewrite Hl in Hg. injection Hg as <-.
    pose proof (refresh_edge_times_get _ _ _ _ Hr) as (Hn & _ & Ha & _).
    split; [done|]. exists g'. rewrite HGs, lookup_insert_eq. done.
  - intros h s pr coin s' o (Hrt & g & Hg & Ha & Hn) Hm.
    apply match_step_simple_Some in Hm as (g0 & d & b & _ & Hm & _).
    apply match_regions_keeps in Hm as ((_ & _ & _ & Hrt' & _ & _ & HG') & _).
    simpl in *. split; [by rewrite Hrt'|]. exists g. by rewrite HG'.
  - intros h s action h' s' o (Hrt & g & Hg & Ha & Hn)
      (g0 & s1 & s2 & g' & Hg0 & Hreb & Hland & -> & Hr & -> & ->)%reb_step_Some.
    rewrite Hg in Hg0. injection Hg0 as <-.
    unfold reb_loop in Hreb. unfold land_loop in Hland.
    pose proof (reb_edges_free _ _ _ _ _ Hreb) as Hf.
    pose proof (reb_edges_shape _ _ _ _ _ Hreb) as (ra & rf & A & D & I & r & er & Hs1).
    apply land_edges_acc in Hland as (A' & ->).
    pose proof (refresh_edge_times_get _ _ _ _ Hr) as (Hn' & _ & Ha' & _).
    destruct Hf as (Hrew & Hfl).
    { intros e He. unfold reb_begin. simpl. rewrite Hrt. by eapply Hfree. }
    subst s1. simpl in *. split_and!.
    + split; [done|]. exists g'. rewrite lookup_insert_eq.
      split; [done|]. by rewrite Ha', Hn'.
    + exact Hrew.
    + exact Hfl.
Qed.

End OnGrid.

Lemma grid_rebalancing_is_free_witness :
  ∃ h' s' o,
    reb_step at_grid.1 at_grid.2 [2; 0; 0; 0] = Some (h', s', o) ∧
    out_reward o = 0%Qc ∧ get2 (acc s') 1 1 = Some 7.
Proof.
  assert (Hsc : GridScenario.init 2 1 4 5 3 true (line_trips 2 4 quiet (Qc_of_Z 3))
                = Some grid_2x1).
  { apply succeeds_Some. vm_compute. reflexivity. }
  destruct (grid_rebalancing_is_free shuffle42 no_elasticity 2 1 4 5 3 true _ _ ltac:(lia) Hsc)
    as (Hinit & Hmatch & Hreb).
  assert (E0 : env_grid = Some (the_env env_grid)).
  { apply succeeds_Some. vm_compute. reflexivity. }
  assert (E1 : match_step_simple shuffle42 no_elasticity (the_env env_grid).1
                 (the_env env_grid).2 None (λ _, true)
               = Some (at_grid.2, default blank_out (snd <$>
                   match_step_simple shuffle42 no_elasticity (the_env env_grid).1
                     (the_env env_grid).2 None (λ _, true)))).
  { vm_compute. reflexivity. }
  assert (H1 : at_grid.1 = (the_env env_grid).1) by (vm_compute; reflexivity).
  assert (E2 : reb_step at_grid.1 at_grid.2 [2; 0; 0; 0]
              = Some (default (∅, blank, blank_out) (reb_step at_grid.1 at_grid.2 [2; 0; 0; 0]))).
  { apply succeeds_Some. vm_compute. reflexivity. }
  assert (A1 : get2 (acc (default (∅, blank, blank_out)
                 (reb_step at_grid.1 at_grid.2 [2; 0; 0; 0])).1.2) 1 1 = Some 7).
  { vm_compute. reflexivity. }
  destruct (default _ (reb_step _ _ _)) as [[h' s'] o].
  exists h', s', o. split; [exact E2|]. split; [|exact A1].
  assert (G0 : on_grid grid_2x1 (the_env env_grid).1 (the_env env_grid).2).
  { destruct (the_env env_grid) as [h1 s1]. eapply Hinit; [|exact E0].
    apply lookup_singleton_eq. }
  pose proof (Hmatch _ _ _ _ _ _ G0 E1) as G1.
  rewrite <- H1 in G1.
  by destruct (Hreb _ _ _ _ _ _ G1 E2) as (_ & ? & _).
Defined.

(** * The agent *)

Module SACFacts.
Import SAC.

Section Construction.
Context {Net Opt : Type}.
Context (new_actor : Z → option Net).
Context (new_critic : critic_class → Z → nat → option Net).
Context (configure_optimizers : Net → Net → Net → Opt).

Abbreviation init := (SAC.init new_actor new_critic configure_optimizers).

Lemma select_critic_mode v c :
  select_critic v = Some c → takes_mode c = true → v = 4.
Proof.
  unfold select_critic. repeat case_bool_decide; intros [= <-]; simpl; try done; lia.
Qed.

Lemma call_critic_Some v mode k n :
  call_critic new_critic (select_critic v) mode k = Some n → v = 4.
Proof.
  unfold call_critic. destruct (select_critic v) as [c|] eqn:Hc; simpl; [|done].
  destruct (takes_mode c) eqn:Hm; [|done]. intros _. by eapply select_critic_mode.
Qed.

(** X16. The constructor raises unless [critic_version] is 4: no other
    value names a critic class, or the class it names does not take the
    keyword [mode]. The agent it returns has its counter at 0 and each
    target equal to its critic. *)
Theorem init_needs_critic_4 critic_version mode q a :
  init critic_version mode q = Some a →
  critic_version = 4 ∧ lag a = 0 ∧ q_lag a = q ∧
  critic1_target a = critic1 a ∧ critic2_target a = critic2 a.
Proof.
  unfold SAC.init. intros Hi.
  destruct (new_actor mode) as [p|]; simpl in Hi; [|done].
  destruct (call_critic _ _ _ 0%nat) as [c1|] eqn:H1; simpl in Hi; [|done].
  destruct (call_critic _ _ _ 1%nat) as [c2|]; simpl in Hi; [|done].
  destruct (call_critic _ _ _ 2%nat) as [c3|]; simpl in Hi; [|done].
  destruct (call_critic _ _ _ 3%nat) as [c4|]; simpl in Hi; [|done].
  injection Hi as <-. simpl. split; [|done]. by eapply call_critic_Some.
Qed.

End Construction.

Section Training.
Context {Net Opt Data : Type}.
Context (critic_steps : agent Net Opt → Data → option (Net * Net * Opt)).
Context (polyak_avg : Net → Net → Net).
Context (actor_step : agent Net Opt → Data → option (Net * Opt)).

Abbreviation update := (SAC.update critic_steps polyak_avg actor_step).
Abbreviation updates := (SAC.updates critic_steps polyak_avg actor_step).

Lemma update_Some a d a' :
  update a d = Some a' →
  q_lag a' = q_lag a ∧
  if bool_decide (lag a + 1 = q_lag a) then
    lag a' = 0 ∧
    critic1_target a' = polyak_avg (critic1_target a) (critic1 a') ∧
    critic2_target a' = polyak_avg (critic2_target a) (critic2 a')
  else
    lag a' = lag a + 1 ∧
    critic1_target a' = critic1_target a ∧ critic2_target a' = critic2_target a.
Proof.
  unfold SAC.update. intros Hu.
  destruct (critic_steps _ d) as [[[c1 c2] o]|]; simpl in Hu; [|done].
  destruct (actor_step _ d) as [[p o']|]; simpl in Hu; [|done].
  injection Hu as <-.
  by case_bool_decide.
Qed.

Lemma update_counted q n a d a' :
  0 ≤ n → counted q n a → update a d = Some a' → counted q (n + 1) a'.
Proof.
  intros Hn (Hq & Hl) (Hq' & Hu)%update_Some.
  split; [congruence|]. rewrite Hq, Hl in Hu.
  destruct (decide (0 < q)) as [Hpos|Hneg].
  - rewrite (bool_decide_eq_true_2 (0 < q)) in Hu |- * by done.
    pose proof (Z.mod_pos_bound n q Hpos) as Hb.
    assert (Hs : (n + 1) mod q = (n mod q + 1) mod q).
    { rewrite (Z.add_mod n 1), (Z.add_mod (n mod q) 1), Z.mod_mod by lia. done. }
    case_bool_decide as Heq; destruct Hu as (-> & _).
    + rewrite Hs, Heq, Z.mod_same by lia. done.
    + rewrite Hs, (Z.mod_small (n mod q + 1)) by lia. done.
  - rewrite (bool_decide_eq_false_2 (0 < q)) in Hu |- * by done.
    rewrite bool_decide_eq_false_2 in Hu by lia. by destruct Hu as (-> & _).
Qed.

Lemma updates_counted q ds n a a' :
  0 ≤ n → counted q n a → updates a ds = Some a' →
  counted q (n + Z.of_nat (length ds)) a'.
Proof.
  unfold SAC.updates. revert n a.
  induction ds as [|d ds IH]; intros n a Hn Hc Hu; cbn [for_each] in Hu.
  - injection Hu as <-. simpl. by rewrite Z.add_0_r.
  - destruct (SAC.update _ _ _ a d) as [a1|] eqn:H1; simpl in Hu; [|done].
    replace (n + Z.of_nat (length (d :: ds))) with (n + 1 + Z.of_nat (length ds))
      by (simpl length; lia).
    apply (IH _ a1); [lia| |done]. by eapply update_counted.
Qed.

(** X17. A fresh agent refreshes its target critics in the updates number
    [q_lag], [2 q_lag], ... and in no other: the [n+1]-st update leaves the
    targets as they are unless [q_lag] is positive and divides [n+1]; then
    each target becomes the average of itself and its critic as the update
    has trained it. With [q_lag] 0 or negative the targets are never
    refreshed. *)
Theorem update_refreshes_targets_every_q_lag a ds a' d a'' :
  lag a = 0 →
  updates a ds = Some a' →
  update a' d = Some a'' →
  if bool_decide (0 < q_lag a ∧ (Z.of_nat (length ds) + 1) mod q_lag a = 0) then
    critic1_target a'' = polyak_avg (critic1_target a') (critic1 a'') ∧
    critic2_target a'' = polyak_avg (critic2_target a') (critic2 a'')
  else
    critic1_target a'' = critic1_target a' ∧ critic2_target a'' = critic2_target a'.
Proof.
  intros H0 Hds Hd.
  assert (Hc : counted (q_lag a) 0 a).
  { split; [done|]. rewrite H0. by case_bool_decide. }
  apply (updates_counted (q_lag a) ds 0 a a') in Hds; [|lia|done]. rewrite Z.add_0_l in Hds.
  destruct Hds as (Hq & Hl).
  apply update_Some in Hd as (_ & Hu).
  rewrite Hq, Hl in Hu. set (n := Z.of_nat (length ds)) in *.
  assert (Hn : 0 ≤ n) by lia.
  destruct (decide (0 < q_lag a)) as [Hpos|Hneg].
  - rewrite (bool_decide_eq_true_2 (0 < q_lag a)) in Hu by done.
    pose proof (Z.mod_pos_bound n (q_lag a) Hpos) as Hb.
    assert (Hs : (n + 1) mod q_lag a = (n mod q_lag a + 1) mod q_lag a).
    { rewrite (Z.add_mod n 1), (Z.add_mod (n mod q_lag a) 1), Z.mod_mod by lia. done. }
    case_bool_decide as Heq.
    + rewrite bool_decide_eq_true_2; [by destruct Hu as (_ & ? & ?)|].
      split; [done|]. rewrite Hs, Heq, Z.mod_same by lia. done.
    + rewrite bool_decide_eq_false_2; [by destruct Hu as (_ & ? & ?)|].
      intros [_ Hm]. rewrite Hs, Z.mod_small in Hm by lia. lia.
  - rewrite (bool_decide_eq_false_2 (0 < q_lag a)) in Hu by done.
    rewrite bool_decide_eq_false_2 in Hu by lia.
    rewrite bool_decide_eq_false_2; [by destruct Hu as (_ & ? & ?)|].
    by intros [? _].
Qed.

End Training.

Lemma init_needs_critic_4_witness :
  toy_init 4 1 2 = Some toy_fresh ∧
  lag toy_fresh = 0 ∧ critic1_target toy_fresh = 0 ∧ critic2_target toy_fresh = 1.
Proof.
  assert (E : toy_init 4 1 2 = Some toy_fresh) by (vm_compute; reflexivity).
  split; [exact E|].
  destruct (init_needs_critic_4 (λ _, Some 0) (λ _ _ k, Some (Z.of_nat k)) (λ _ _ _, tt)
              4 1 2 toy_fresh E) as (_ & Hl & _ & H1 & H2).
  split; [exact Hl|]. split; [rewrite H1|rewrite H2]; vm_compute; reflexivity.
Defined.

(** With [q_lag] 2 the first update leaves the targets and the second
    refreshes them. *)
Lemma update_refreshes_targets_every_q_lag_witness :
  updates toy_steps toy_avg toy_actor toy_fresh [tt] = Some toy_once ∧
  update toy_steps toy_avg toy_actor toy_once tt = Some toy_twice ∧
  critic1_target toy_once = 0 ∧ critic1_target toy_twice = 2 ∧
  critic2_target toy_twice = 5.
Proof.
  assert (E1 : updates toy_steps toy_avg toy_actor toy_fresh [tt] = Some toy_once)
    by (vm_compute; reflexivity).
  assert (E2 : update toy_steps toy_avg toy_actor toy_once tt = Some toy_twice)
    by (vm_compute; reflexivity).
  split; [exact E1|]. split; [exact E2|]. split; [vm_compute; reflexivity|].
  pose proof (update_refreshes_targets_every_q_lag toy_steps toy_avg toy_actor
                toy_fresh [tt] toy_once tt toy_twice eq_refl E1 E2) as H.
  rewrite bool_decide_eq_true_2 in H by (vm_compute; split; reflexivity).
  destruct H as (H1 & H2).
  split; [rewrite H1|rewrite H2]; vm_compute; reflexivity.
Defined.

End SACFacts.

(** ** The reward of a phase *)

(** Serving a passenger books its price as revenue and the cost of its
    trip as operating cost, and adds the difference to the reward. *)
Lemma serve_pax_reward coin t n sv ip sv' :
  serve_pax coin t n sv ip = Some sv' →
  (reward (sv_env sv') - revenue (info (sv_env sv')) + operating_cost (info (sv_env sv'))
   = reward (sv_env sv) - revenue (info (sv_env sv)) + operating_cost (info (sv_env sv)))%Qc.
Proof.
  destruct ip as [i pax]. unfold serve_pax. intros Hs.
  assert (Hw : ∀ p d, wait_or_leave t i p d sv = Some sv' →
    (reward (sv_env sv') - revenue (info (sv_env sv')) + operating_cost (info (sv_env sv'))
     = reward (sv_env sv) - revenue (info (sv_env sv)) + operating_cost (info (sv_env sv)))%Qc).
  { intros p d. unfold wait_or_leave.
    destruct (Passenger.unmatched_update p) as [p' leave]. destruct leave.
    - destruct (add2 _ _ _ _); simpl; [|done]. by intros [= <-].
    - by intros [= <-]. }
  case_bool_decide; [|by eapply Hw].
  destruct (Passenger.match_ pax t _) as [[pax' accept]|]; simpl in Hs; [|done].
  destruct accept; [|by eapply Hw].
  destruct (time_of _ _ t) as [τ|]; simpl in Hs; [|done].
  destruct (add2 (paxFlow _) _ _ 1) as [pf|]; simpl in Hs; [|done].
  destruct (add2 (dacc _) _ _ 1) as [da|]; simpl in Hs; [|done].
  destruct (add2 (servedDemand _) _ _ 1) as [sd|]; simpl in Hs; [|done].
  destruct (np_add _ _ _) as [er|]; simpl in Hs; [|done].
  injection Hs as <-. simpl. ring.
Qed.

Lemma serve_queue_reward coin t n l sv sv' :
  for_each (serve_pax coin t n) l sv = Some sv' →
  (reward (sv_env sv') - revenue (info (sv_env sv')) + operating_cost (info (sv_env sv'))
   = reward (sv_env sv) - revenue (info (sv_env sv)) + operating_cost (info (sv_env sv)))%Qc.
Proof.
  revert sv. induction l as [|ip l IH]; intros sv Hs; cbn [for_each] in Hs.
  - by injection Hs as <-.
  - destruct (serve_pax coin t n sv ip) as [sv1|] eqn:H1; simpl in Hs; [|done].
    rewrite (IH _ Hs). by eapply serve_pax_reward.
Qed.

Section Rewards.
Context (shuffle : list Passenger.t → list Passenger.t).
Context (demand_update : Z → Qc → Qc → Qc → Z).

Lemma arrive_dests_reward pr t n js s s' :
  for_each (arrive_dest shuffle demand_update pr t n) js s = Some s' →
  reward s' = reward s ∧ info s' = info s.
Proof.
  revert s. induction js as [|j js IH]; intros s Hs; cbn [for_each] in Hs.
  - by injection Hs as <-.
  - destruct (arrive_dest _ _ _ _ _ s j) as [s1|] eqn:H1; simpl in Hs; [|done].
    destruct (IH _ Hs) as [-> ->]. clear Hs IH. unfold arrive_dest in H1.
    destruct (get2 (demand s) (n, j) t); simpl in H1; [|done].
    destruct (price s !! (n, j) ≫= _); simpl in H1; [|done].
    match type of H1 with
    | (?x ≫= _) = Some _ => destruct x as [[d p]|]; simpl in H1; [|done]
    end.
    destruct (passenger s !! n); simpl in H1; [|done].
    by injection H1 as <-.
Qed.

Lemma match_regions_reward g pr coin t ns s d s' d' :
  for_each (match_region shuffle demand_update g pr coin t) ns (s, d) = Some (s', d') →
  (reward s' - revenue (info s') + operating_cost (info s')
   = reward s - revenue (info s) + operating_cost (info s))%Qc.
Proof.
  revert s d. induction ns as [|n ns IH]; intros s d Hs; cbn [for_each] in Hs.
  - by injection Hs as <- <-.
  - destruct (match_region _ _ g pr coin t (s, d) n) as [[s1 d1]|] eqn:H1;
      simpl in Hs; [|done].
    rewrite (IH _ _ Hs). clear Hs IH. unfold match_region in H1.
    destruct (get2 (acc s) n t) as [a|]; simpl in H1; [|done].
    destruct (enqueue_region _ _ g pr t s n) as [s2|] eqn:H2; simpl in H1; [|done].
    unfold enqueue_region in H2.
    destruct (neighbors g n) as [js|]; simpl in H2; [|done].
    destruct (for_each _ js s) as [s3|] eqn:H3; simpl in H2; [|done].
    apply arrive_dests_reward in H3 as [Hr Hi].
    destruct (passenger s3 !! n); simpl in H2; [|done].
    destruct (enter_all _) as [[b q]|]; simpl in H2; [|done].
    injection H2 as <-.
    unfold serve_region in H1.
    destruct (for_each _ _ _) as [sv|] eqn:H4; simpl in H1; [|done].
    apply serve_queue_reward in H4. simpl in H4. injection H1 as <- <-.
    simpl. rewrite H4, Hr, Hi. done.
Qed.

(** The reward that [match_step_simple] has accumulated when it returns
    is the revenue less the operating cost that the call has booked. *)
Lemma match_step_simple_raw h s pr coin s' o :
  match_step_simple shuffle demand_update h s pr coin = Some (s', o) →
  reward s' = ((revenue (info s') - revenue (info s))
               - (operating_cost (info s') - operating_cost (info s)))%Qc.
Proof.
  intros (g & d & b & _ & Hloop & _)%match_step_simple_Some.
  apply match_regions_reward in Hloop. simpl in Hloop.
  transitivity ((reward s' - revenue (info s') + operating_cost (info s'))
                + revenue (info s') - operating_cost (info s'))%Qc; [ring|].
  rewrite Hloop. ring.
Qed.

End Rewards.

Lemma pax_edges_reward t kes s s' :
  for_each (pax_edge t) kes s = Some s' →
  (reward s' - revenue (info s') + operating_cost (info s')
   = reward s - revenue (info s) + operating_cost (info s))%Qc.
Proof.
  revert s. induction kes as [|[k [i j]] kes IH]; intros s Hs; cbn [for_each] in Hs.
  - by injection Hs as <-.
  - destruct (pax_edge t s (k, (i, j))) as [s1|] eqn:H1; simpl in Hs; [|done].
    rewrite (IH _ Hs). clear Hs IH. unfold pax_edge in H1.
    destruct (bool_decide (is_Some (demand s !! (i, j)))); simpl in H1;
      [|by injection H1 as <-].
    destruct (dict_has (sub (demand s) (i, j)) t); simpl in H1; [|by injection H1 as <-].
    destruct (paxAction s !! k) as [p_k|] eqn:Hp; simpl in H1; [|done].
    case_bool_decide as Hlt; [by injection H1 as <-|].
    destruct (get2 (acc s) i (t + 1)) as [a_i|] eqn:Ha; simpl in H1; [|done].
    case_bool_decide as Hle; simpl in H1; [|done].
    destruct (time_of (demandTime s) (i, j) t) as [τ|] eqn:Hτ; simpl in H1; [|done].
    rewrite get2_set2_eq in H1. simpl in H1.
    rewrite get2_set2_eq in H1. simpl in H1.
    destruct (add2 (dacc s) j (t + τ) _) as [D|]; simpl in H1; [|done].
    destruct (price s !! (i, j) ≫= _) as [p|]; simpl in H1; [|done].
    destruct (np_add _ _ _) as [er|]; simpl in H1; [|done].
    injection H1 as <-. simpl. ring.
Qed.

(** The reward that [pax_step] has accumulated when it returns is the
    revenue less the operating cost of the call, which [info] holds. *)
Lemma pax_step_raw s action s' o :
  pax_step s action = Some (s', o) →
  reward s' = (revenue (info s') - operating_cost (info s'))%Qc.
Proof.
  intros (s1 & H1 & H2)%pax_step_Some.
  apply carry_overs_get in H1 as [[A ->] _].
  apply pax_edges_reward in H2. simpl in H2.
  transitivity ((reward s' - revenue (info s') + operating_cost (info s'))
                + revenue (info s') - operating_cost (info s'))%Qc; [ring|].
  rewrite H2. ring.
Qed.

(** C2. The reward returned by a matching-phase call ([match_step_simple]
    or [pax_step]) is max(0, self.reward), hence never negative, where
    self.reward is what the call has accumulated from 0: the revenue less
    the operating cost it has booked (for [pax_step], which clears these
    two counters first, their difference). The reward returned by
    [reb_step] is self.reward unclipped, which is minus the sum, over the
    processed edges, of rebTime[i,j][t] * beta * applied flow. Both the
    clipping and a negative rebalancing reward do occur. *)
Theorem phase_rewards :
  (∀ shuffle demand_update h s pr coin s' o,
     match_step_simple shuffle demand_update h s pr coin = Some (s', o) →
     out_reward o = max0 (reward s') ∧ (0 ≤ out_reward o)%Qc ∧
     reward s' = ((revenue (info s') - revenue (info s))
                  - (operating_cost (info s') - operating_cost (info s)))%Qc) ∧
  (∀ s action s' o,
     pax_step s action = Some (s', o) →
     out_reward o = max0 (reward s') ∧ (0 ≤ out_reward o)%Qc ∧
     reward s' = (revenue (info s') - operating_cost (info s'))%Qc) ∧
  (∀ h s action h' s' o g,
     reb_step h s action = Some (h', s', o) → h !! G s = Some g →
     out_reward o = reward s' ∧
     reward s' =
       (- reb_cost g (rebTime s) (time s) (beta s) (rebAction s') (enumerate (edges s)))%Qc) ∧
  (∃ h s pr coin s' o,
     match_step_simple shuffle42 no_elasticity h s pr coin = Some (s', o) ∧
     (reward s' < 0)%Qc ∧ out_reward o = 0%Qc) ∧
  (∃ h s action h' s' o,
     reb_step h s action = Some (h', s', o) ∧ (out_reward o < 0)%Qc).
Proof.
  split_and!.
  - intros ???????? Hs. pose proof (match_step_simple_raw _ _ _ _ _ _ _ _ Hs) as Hraw.
    apply match_step_simple_reward in Hs as ->.
    split; [done|]. split; [apply max0_nonneg|exact Hraw].
  - intros ???? Hs. pose proof (pax_step_raw _ _ _ _ Hs) as Hraw.
    apply pax_step_reward in Hs as ->.
    split; [done|]. split; [apply max0_nonneg|exact Hraw].
  - intros. by eapply reb_step_reward.
  - set (X := match_step_simple shuffle42 no_elasticity (the_env env_free).1
                (the_env env_free).2 None (λ _, true)).
    assert (E : X = Some (default (blank, blank_out) X)).
    { apply succeeds_Some. vm_compute. reflexivity. }
    exists (the_env env_free).1, (the_env env_free).2, None, (λ _, true),
      (default (blank, blank_out) X).1, (default (blank, blank_out) X).2.
    split; [by destruct (default _ X)|].
    split; [apply (bool_decide_eq_true_1 _)|apply (bool_decide_eq_true_1 _)];
      vm_compute; reflexivity.
  - set (X := reb_step at_A.1 at_A.2 [7; 3; 0; 0]).
    assert (E : X = Some (default (∅, blank, blank_out) X)).
    { apply succeeds_Some. vm_compute. reflexivity. }
    exists at_A.1, at_A.2, [7; 3; 0; 0], (default (∅, blank, blank_out) X).1.1,
      (default (∅, blank, blank_out) X).1.2, (default (∅, blank, blank_out) X).2.
    split; [by destruct (default _ X) as [[??]?]|].
    apply (bool_decide_eq_true_1 _). vm_compute. reflexivity.
Qed.

(** ** Clipping of the rebalancing flows *)

(** C3 (amended). For every edge (i,j) of the graph that [reb_step]
    processes, whatever the requested vector, the flow applied (kept in
    rebAction[k], recorded in rebFlow and debited from acc[i][t+1]) is the
    minimum of what region i holds at the moment the edge is processed and
    the request: it never exceeds the holding, and the debit leaves
    acc[i][t+1] at zero or more. When no region is in debt before the call
    none is at any moment of the edge loop; and when no inventory and no
    ledger entry is negative before the call and no request on an edge of
    the graph is negative, no inventory is negative when the call returns. *)
Theorem reb_step_clips_flow h s action h' s' o :
  reb_step h s action = Some (h', s', o) →
  ∃ g,
    h !! G s = Some g ∧
    (∀ k i j, edges s !! k = Some (i, j) → has_edge g (i, j) = true →
       ∃ s_k s_k1 a_i r_k τ,
         for_each (reb_edge g (time s)) (take k (enumerate (edges s))) (reb_begin s action)
           = Some s_k ∧
         reb_edge g (time s) s_k (k, (i, j)) = Some s_k1 ∧
         get2 (acc s_k) i (time s + 1) = Some a_i ∧
         action !! k = Some r_k ∧
         time_of (rebTime s) (i, j) (time s) = Some τ ∧
         rebAction s' !! k = Some (Z.min a_i r_k) ∧
         get2 (rebFlow s_k1) (i, j) (time s + τ) = Some (Z.min a_i r_k) ∧
         get2 (acc s_k1) i (time s + 1) = Some (a_i - Z.min a_i r_k) ∧
         Z.min a_i r_k ≤ a_i ∧ 0 ≤ a_i - Z.min a_i r_k) ∧
    (vehicles_nonneg (time s) s →
     ∀ k s_k,
       for_each (reb_edge g (time s)) (take k (enumerate (edges s))) (reb_begin s action)
         = Some s_k →
       vehicles_nonneg (time s) s_k) ∧
    (books_nonneg s →
     (∀ k e r, edges s !! k = Some e → has_edge g e = true → action !! k = Some r → 0 ≤ r) →
     ∀ n k a, get2 (acc s') n k = Some a → 0 ≤ a).
Proof.
  intros (g & sm & sl & g' & Hg & Hreb & Hland & -> & Href & -> & ->)%reb_step_Some.
  exists g. split; [done|].
  destruct (reb_loop_clips_flow _ _ _ _ Hreb) as [Hedge Hnn]. split_and!.
  - intros k i j Hk He.
    destruct (Hedge k i j Hk He) as (s_k & s_k1 & a_i & r_k & τ & H1 & H2 & H3 & H4 & H5 & H6 & H7 & H8 & H9).
    exists s_k, s_k1, a_i, r_k, τ.
    pose proof (reb_edges_static _ _ _ _ _ H1) as (Hrt & _).
    pose proof Hland as Hland'. apply land_edges_acc in Hland' as [A ->].
    rewrite Hrt in H5. split_and!; try done. lia.
  - intros Hs k s_k Hk. by apply (Hnn Hs k).
  - intros Hb Hact n k a. unfold reb_loop in Hreb. unfold land_loop in Hland.
    apply reb_edges_nonneg_books in Hreb; [| |done].
    + apply land_edges_nonneg in Hland; [|done].
      destruct Hland as (HA & _). simpl. apply HA.
    + intros m e r Hm He Hr. simpl in Hr. by eapply Hact.
Qed.

(** C3 as stated fails: a negative request is applied as it is. Scenario A,
    five vehicles in each of its two regions: with -7 requested on edge
    (0,1) the flow applied is min(5, -7) = -7, region 0 is credited with
    seven vehicles and the ledger of the edge holds -7 under the arrival
    key 1; the next call, with a request of nothing, lands them, and
    acc[1][2] is 5 - 7. On the grid of two cells, where the rebalancing
    times are 0, the one call leaves acc[1][1] at -2. *)
Lemma negative_request_leaves_debt :
  (hs0 ← env_A;
   hs1 ← cycle42 (λ _, true) [-7; 0; 0; 0] hs0;
   hs2 ← cycle42 (λ _, true) [0; 0; 0; 0] hs1;
   '(_, s', _) ← reb_step at_grid.1 at_grid.2 [-7; 0; 0; 0];
   Some (edges hs0.2 !! 0%nat, get2 (acc hs0.2) 0 0, get2 (acc hs0.2) 1 0,
         rebAction hs1.2 !! 0%nat, get2 (acc hs1.2) 0 1, get2 (rebFlow hs1.2) (0, 1) 1,
         get2 (acc hs2.2) 1 2,
         edges at_grid.2 !! 0%nat, get2 (acc s') 0 1, get2 (acc s') 1 1))
  = Some (Some (0, 1), Some 5, Some 5, Some (-7), Some 12, Some (-7), Some (-2),
          Some (0, 1), Some 12, Some (-2)).
Proof. vm_compute. reflexivity. Qed.

(** Scenario A after matching, a request of 7 on edge (0,1) from a region
    that holds 5: the applied flow is 5, and no region is in debt when the
    call returns. *)
Lemma reb_step_clips_flow_witness :
  ∃ h' s' o,
    reb_step at_A.1 at_A.2 [7; 3; 0; 0] = Some (h', s', o) ∧
    rebAction s' !! 0%nat = Some 5 ∧
    ∀ n k a, get2 (acc s') n k = Some a → 0 ≤ a.
Proof.
  assert (E : reb_step at_A.1 at_A.2 [7; 3; 0; 0]
              = Some (default (∅, blank, blank_out) (reb_step at_A.1 at_A.2 [7; 3; 0; 0]))).
  { apply succeeds_Some. vm_compute. reflexivity. }
  assert (Hb : books_nonneg at_A.2).
  { apply books_nonneg_check; vm_compute; reflexivity. }
  destruct (default _ (reb_step _ _ _)) as [[h' s'] o].
  exists h', s', o. split; [exact E|].
  destruct (reb_step_clips_flow _ _ _ _ _ _ E) as (g & Hg & Hedge & _ & Hfin).
  split.
  - destruct (Hedge 0%nat 0 1) as (s_k & s_k1 & a_i & r_k & τ & H1 & _ & H3 & H4 & _ & H6 & _).
    + vm_compute. reflexivity.
    + rewrite (default_of_Some _ no_graph _ Hg). vm_compute. reflexivity.
    + rewrite H6. f_equal.
      rewrite (default_of_Some _ no_graph _ Hg) in H1.
      rewrite (default_of_Some _ blank _ H1) in H3.
      vm_compute in H3. vm_compute in H4. injection H3 as <-. injection H4 as <-. reflexivity.
  - apply Hfin; [exact Hb|].
    assert (Hedges : edges at_A.2 = [(0, 1); (1, 0); (1, 1); (0, 0)])
      by (vm_compute; reflexivity).
    rewrite Hedges. clear. intros [|[|[|[|k]]]] e r Hk _ Hr; cbn in Hk, Hr;
      try discriminate Hk; injection Hr as <-; lia.
Defined.

(** ** Requests on self-loops *)

(** C10. The edge list that [__init__] and [reset] build holds the
    self-loop (i,i) of every region, and the directed complete graph of a
    scenario has no such edge. For every state and every graph without
    self-loop edges [reb_step] skips these positions: two action vectors
    that agree on every other position give the same result, the same
    graph and, but for the stored action vector itself, the same
    environment (acc, rebFlow, dacc, reward and info included). *)
Theorem self_loop_actions_ignored :
  (∀ h sc md b h' s g i,
     init h sc md b = Some (h', s) → h !! Scenario.G sc = Some g →
     i ∈ g_nodes g → (i, i) ∈ edges s) ∧
  (∀ h s trips s' obs g i,
     reset h s trips = Some (s', obs) → h !! G s = Some g →
     i ∈ g_nodes g → (i, i) ∈ edges s') ∧
  (∀ n ninit i, has_edge (Scenario.complete_graph n ninit) (i, i) = false) ∧
  (∀ h s g a1 a2 h1 s1 o1,
     h !! G s = Some g →
     (∀ i, has_edge g (i, i) = false) →
     (∀ k i j, edges s !! k = Some (i, j) → i ≠ j → a1 !! k = a2 !! k) →
     reb_step h s a1 = Some (h1, s1, o1) →
     ∃ s2,
       reb_step h s a2 = Some (h1, s2, o1) ∧
       forget_rebAction s2 = forget_rebAction s1 ∧
       acc s2 = acc s1 ∧ rebFlow s2 = rebFlow s1 ∧ dacc s2 = dacc s1 ∧
       reward s2 = reward s1 ∧ info s2 = info s1).
Proof.
  split_and!.
  - intros h sc md b h' s g i Hi Hg Hn.
    apply init_spec in Hi as (g0 & g' & Hg0 & _ & _ & Hr & _ & Hes & _).
    assert (g0 = g) as -> by congruence.
    pose proof (refresh_edge_times_get _ _ _ _ Hr) as (Hn' & _).
    eapply build_edges_self; [exact Hes|]. by rewrite Hn'.
  - intros h s trips s' obs g i Hr Hg Hn.
    apply reset_reinitialises in Hr as (g0 & Hg0 & Hes & _).
    assert (g0 = g) as -> by congruence.
    by eapply build_edges_self.
  - apply complete_graph_no_self_loop.
  - intros h s g a1 a2 h1 s1 o1 Hg Hloop Hagree Hstep.
    apply reb_step_Some in Hstep
      as (g0 & sm & sl & g' & Hg0 & Hreb & Hland & -> & Href & -> & ->).
    assert (g0 = g) as -> by congruence.
    unfold reb_loop in Hreb.
    destruct (reb_edges_sim g (time s) (edges s) 0 (reb_begin s a1) (reb_begin s a2) sm)
      as (sm2 & Hreb2 & Hf); [done| |done|].
    { intros n [i j] Hn He. simpl. destruct (decide (i = j)) as [->|Hne].
      - by rewrite Hloop in He.
      - by eapply Hagree. }
    destruct (land_edges_sim (time s) (edges sm) sm sm2 sl Hf Hland) as (sl2 & Hland2 & Hf2).
    exists (set_time (time sl2 + 1) sl2).
    assert (Hedges : edges sm2 = edges sm) by (by pose proof (f_equal edges Hf) as E; simpl in E).
    assert (Hfin : forget_rebAction (set_time (time sl2 + 1) sl2)
                   = forget_rebAction (set_time (time sl + 1) sl)).
    { unfold forget_rebAction in *. destruct sl, sl2. simpl in *. simplify_eq. reflexivity. }
    pose proof (f_equal rebTime Hfin) as E1. pose proof (f_equal time Hfin) as E2.
    pose proof (f_equal G Hfin) as E3. pose proof (f_equal reward Hfin) as E4.
    pose proof (f_equal info Hfin) as E5. pose proof (f_equal ext_reward Hfin) as E6.
    pose proof (f_equal nregion Hfin) as E7. pose proof (f_equal tf Hfin) as E8.
    pose proof (f_equal acc Hfin) as E9. pose proof (f_equal dacc Hfin) as E10.
    pose proof (f_equal demand Hfin) as E11. pose proof (f_equal rebFlow Hfin) as E12.
    simpl in E1, E2, E3, E4, E5, E6, E7, E8, E9, E10, E11, E12.
    split_and!; try done.
    apply reb_step_Some. exists g, sm2, sl2, g'. split_and!; try done.
    + unfold land_loop. by rewrite Hedges.
    + simpl. simpl in Href. by rewrite E1, E2.
    + simpl. by rewrite E3.
    + unfold observe. simpl. by rewrite E2, E4, E5, E6, E7, E8, E9, E10, E11.
Qed.

(** Scenario A after matching: its edge list is
    [(0,1), (1,0), (1,1), (0,0)], and the requests 9 on the self-loops
    (1,1) and (0,0) change nothing. *)
Lemma self_loop_actions_ignored_witness :
  edges at_A.2 = [(0, 1); (1, 0); (1, 1); (0, 0)] ∧
  ∃ h1 s1 o1,
    reb_step at_A.1 at_A.2 [2; 0; 9; 9] = Some (h1, s1, o1) ∧
    ∃ s2,
      reb_step at_A.1 at_A.2 [2; 0; 0; 0] = Some (h1, s2, o1) ∧
      acc s2 = acc s1 ∧ reward s2 = reward s1.
Proof.
  assert (Hedges : edges at_A.2 = [(0, 1); (1, 0); (1, 1); (0, 0)]).
  { vm_compute. reflexivity. }
  split; [exact Hedges|].
  assert (E : reb_step at_A.1 at_A.2 [2; 0; 9; 9]
              = Some (default (∅, blank, blank_out) (reb_step at_A.1 at_A.2 [2; 0; 9; 9]))).
  { apply succeeds_Some. vm_compute. reflexivity. }
  destruct (default _ (reb_step _ _ _)) as [[h1 s1] o1].
  exists h1, s1, o1. split; [exact E|].
  set (g := default no_graph (at_A.1 !! G at_A.2)).
  assert (Hg : at_A.1 !! G at_A.2 = Some g).
  { apply succeeds_Some. vm_compute. reflexivity. }
  assert (Hadj : g_adj g = g_adj (Scenario.complete_graph 2 5)).
  { apply (bool_decide_eq_true_1 _). vm_compute. reflexivity. }
  destruct self_loop_actions_ignored as (_ & _ & Hcomplete & Hskip).
  assert (Hloop : ∀ i, has_edge g (i, i) = false).
  { intros i. pose proof (Hcomplete 2%nat 5 i) as Hc. unfold has_edge in *.
    rewrite <- Hadj in Hc. exact Hc. }
  assert (Hagree : ∀ (k : nat) (i j : Z),
             edges at_A.2 !! k = Some (i, j) → i ≠ j →
             [2; 0; 9; 9] !! k = [2; 0; 0; 0] !! k).
  { rewrite Hedges. clear. intros [|[|[|[|k]]]] i j Hk Hne; cbn in Hk;
      try discriminate Hk; injection Hk as <- <-; first [reflexivity|by destruct Hne]. }
  clearbody g.
  destruct (Hskip _ _ _ _ _ _ _ _ Hg Hloop Hagree E)
    as (s2 & H2 & _ & Hacc & _ & _ & Hrew & _).
  exists s2. split; [exact H2|]. split; [exact Hacc|exact Hrew].
Defined.
